(** * ZYLO reading assistant: document reader and pronunciation practice

    A shallow embedding of the pure cores of
    - [DocumentReader] (page segmentation, the read-aloud effect, the
      recording stop handler and the WAV encoder), and
    - [SentencePractice] (the positional word map and the encouragement
      messages),
    together with the properties stated about them.

    JavaScript strings are sequences of UTF-16 code units, numbers are
    IEEE 754 binary64 values, arrays are lists read with [!!]. *)

From Stdlib Require Import ZArith NArith QArith SpecFloat Floats.
From Stdlib Require Import Ascii String List Lia Lqa Bool.
From stdpp Require Import base list.
Import ListNotations.

Set Warnings "-inexact-float".
#[local] Open Scope nat_scope.

(** ** JavaScript strings *)

Module JsString.

(** A string is the list of its UTF-16 code units. *)
Definition jsstring := list N.

(** Literals: every character of a Rocq string is one code unit. *)
Definition js (s : String.string) : jsstring :=
  map N_of_ascii (list_ascii_of_string s).

(** [!s]: only the empty string is falsy. *)
Definition isEmpty (s : jsstring) : bool :=
  match s with [] => true | _ :: _ => false end.

(** WhiteSpace and LineTerminator code units: what [trim] removes and
    what [\s] matches. *)
Definition isWhiteSpace (c : N) : bool :=
  ((9 <=? c) && (c <=? 13) || (c =? 32) || (c =? 160) || (c =? 5760)
   || (8192 <=? c) && (c <=? 8202) || (c =? 8232) || (c =? 8233)
   || (c =? 8239) || (c =? 8287) || (c =? 12288) || (c =? 65279))%N.

Definition isDigit (c : N) : bool := ((48 <=? c) && (c <=? 57))%N.
Definition isUpper (c : N) : bool := ((65 <=? c) && (c <=? 90))%N.
Definition isLower (c : N) : bool := ((97 <=? c) && (c <=? 122))%N.

(** [[0-9a-zA-Z]] *)
Definition isAlnum (c : N) : bool := isDigit c || isUpper c || isLower c.

(** [\w] *)
Definition isWordChar (c : N) : bool := isAlnum c || (c =? 95)%N.

(** [[.!?]] *)
Definition isTerminal (c : N) : bool :=
  ((c =? 46) || (c =? 33) || (c =? 63))%N.

Fixpoint trimStart (s : jsstring) : jsstring :=
  match s with
  | [] => []
  | c :: s' => if isWhiteSpace c then trimStart s' else s
  end.

Definition trimEnd (s : jsstring) : jsstring := rev (trimStart (rev s)).

(** [s.trim()] *)
Definition trim (s : jsstring) : jsstring := trimEnd (trimStart s).

(** The case table of Basic Latin and Latin-1: the capital letters A-Z
    and U+00C0-U+00DE (the sign U+00D7 apart) have their small letter 32
    places on, and no other code unit below 256 changes when lowered. *)
Definition lowerUnit (c : N) : N :=
  (if isUpper c then c + 32
   else if (192 <=? c) && (c <=? 222) && negb (c =? 215) then c + 32
   else c)%N.

Definition lowerLatin1 (s : jsstring) : jsstring := map lowerUnit s.

(** Every code unit of the string is below 256. *)
Definition isLatin1 (s : jsstring) : bool := forallb (fun c => c <? 256)%N s.

(** [String.prototype.toLowerCase] is a function of the engine, which the
    definitions that call it take as [toLowerCase].  Of its case table
    only the part for Basic Latin and Latin-1 is written out here: on a
    string of code units below 256 the engine returns what
    [lowerLatin1] does. *)
Definition agreesOnLatin1 (toLowerCase : jsstring -> jsstring) : Prop :=
  forall s, isLatin1 s = true -> toLowerCase s = lowerLatin1 s.

(** [s.split(sep)] for a one-unit separator: [cur] is the piece being
    read.  The empty string splits into one empty piece. *)
Fixpoint splitOn (sep : N) (cur s : jsstring) : list jsstring :=
  match s with
  | [] => [cur]
  | c :: s' =>
      if (c =? sep)%N then cur :: splitOn sep [] s'
      else splitOn sep (cur ++ [c]) s'
  end.

(** [s.split(" ")] *)
Definition splitSpace (s : jsstring) : list jsstring := splitOn 32 [] s.

(** [/[.!?]/.test(s)] *)
Definition hasTerminal (s : jsstring) : bool := existsb isTerminal s.

(** [/[.!?]$/.test(s)]: the last code unit is a terminator. *)
Definition endsWithTerminal (s : jsstring) : bool :=
  match rev s with
  | c :: _ => isTerminal c
  | [] => false
  end.

(** Where the sentence scanner stands: before any match, inside the
    run [[^.!?]+] of a match, or inside its closing run [[.!?]+]. *)
Inductive phase := Outside | InText | InClose.

(** [s.match(/[^.!?]+[.!?]+|[^.!?]+$/g)], with [cur] the match being
    read.  A terminator met outside a match starts none and is skipped;
    a text run that reaches the end of the input is the second
    alternative. *)
Fixpoint scan (ph : phase) (cur s : jsstring) : list jsstring :=
  match s with
  | [] => match ph with Outside => [] | _ => [cur] end
  | c :: s' =>
      if isTerminal c then
        match ph with
        | Outside => scan Outside [] s'
        | _ => scan InClose (cur ++ [c]) s'
        end
      else
        match ph with
        | InClose => cur :: scan InText [c] s'
        | _ => scan InText (cur ++ [c]) s'
        end
  end.

(** The list of matches; [[]] stands for the [null] of no match. *)
Definition matchSentences (s : jsstring) : list jsstring :=
  scan Outside [] s.

(** [/^\(?[0-9a-zA-Z]{1,2}(\.|\))$/.test(s)] *)
Definition isCloser (c : N) : bool := ((c =? 46) || (c =? 41))%N.

Definition isSerialCore (s : jsstring) : bool :=
  match s with
  | [a; p] => isAlnum a && isCloser p
  | [a; b; p] => isAlnum a && isAlnum b && isCloser p
  | _ => false
  end.

Definition isSerialMarker (s : jsstring) : bool :=
  match s with
  | c :: s' => if (c =? 40)%N then isSerialCore s' else isSerialCore s
  | [] => false
  end.

End JsString.

(** ** JavaScript numbers *)

Module JsNumber.

(** A number is a binary64 value, in the Standard Library's
    specification of IEEE 754. *)
Definition number := spec_float.

Definition prec : Z := 53.
Definition emax : Z := 1024.

(** Decimal literals of the source, rounded as the parser rounds them. *)
Definition lit_0_1 : number := Eval vm_compute in Prim2SF 0.1%float.
Definition lit_0_9 : number := Eval vm_compute in Prim2SF 0.9%float.
Definition lit_1_3 : number := Eval vm_compute in Prim2SF 1.3%float.
Definition lit_12 : number := Eval vm_compute in Prim2SF 12%float.
Definition lit_120 : number := Eval vm_compute in Prim2SF 120%float.
Definition lit_0_85 : number := Eval vm_compute in Prim2SF 0.85%float.
Definition lit_0_65 : number := Eval vm_compute in Prim2SF 0.65%float.
Definition lit_0_7 : number := Eval vm_compute in Prim2SF 0.7%float.
Definition lit_0_4 : number := Eval vm_compute in Prim2SF 0.4%float.

(** Literals of the examples below. *)
Definition num (f : float) : number := Prim2SF f.

(** [a * b], [a / b], [Math.abs(a)], [a < b], [a > b], [a >= b]. *)
Definition mul (a b : number) : number := SFmul prec emax a b.
Definition div (a b : number) : number := SFdiv prec emax a b.
Definition abs (a : number) : number := SFabs a.
Definition lt (a b : number) : bool := SFltb a b.
Definition gt (a b : number) : bool := SFltb b a.
Definition ge (a b : number) : bool := SFleb b a.

(** Falsy numbers: the zeros and NaN. *)
Definition isFalsy (a : number) : bool :=
  match a with
  | S754_zero _ | S754_nan => true
  | _ => false
  end.

(** Insertion into an ascending list, and [a.sort((x, y) => x - y)].
    On lists without NaN the comparator is a total preorder and the
    sorted array is this one; with NaN the order is left to the engine
    and is not described here. *)
Fixpoint insertSorted (x : number) (l : list number) : list number :=
  match l with
  | [] => [x]
  | y :: l' => if SFleb x y then x :: l else y :: insertSorted x l'
  end.

Definition sortAscending (l : list number) : list number :=
  foldr insertSorted [] l.

End JsNumber.

(** ** DocumentReader: page segmentation *)

Module Segmenter.
Import JsString JsNumber.

(** A text item of the page's text content: [str] and [transform],
    whose entry 3 is the signed height and entry 5 the baseline Y. *)
Record TextItem := { str : jsstring; transform : list number }.

(** What [onPageLoadSuccess] reads of the page: the items of
    [getTextContent()] and the height of the scale-1 viewport. *)
Record Page := { items : list TextItem; viewportHeight : number }.

Record Sentence :=
  { text : jsstring; isMetadata : bool; itemIndices : list nat }.

(** [a[i]] on an array of numbers; past the end it is [undefined],
    which every arithmetic use below turns into NaN. *)
Definition at_ (a : list number) (i : nat) : number :=
  default S754_nan (a !! i).

Definition footerThreshold (p : Page) : number :=
  mul (viewportHeight p) lit_0_1.
Definition headerThreshold (p : Page) : number :=
  mul (viewportHeight p) lit_0_9.

Definition heights (p : Page) : list number :=
  sortAscending (map (fun item => abs (at_ (transform item) 3)) (items p)).

(** [heights[Math.floor(heights.length / 2)]] *)
Definition middleHeight (p : Page) : number :=
  at_ (heights p) (Nat.div (length (heights p)) 2).

(** [heights[Math.floor(heights.length / 2)] || 12] *)
Definition medianHeight (p : Page) : number :=
  if isFalsy (middleHeight p) then lit_12 else middleHeight p.

Definition headingThreshold (p : Page) : number :=
  mul (medianHeight p) lit_1_3.

Definition isHeading (p : Page) (item : TextItem) : bool :=
  gt (abs (at_ (transform item) 3)) (headingThreshold p).

Definition isSerial (item : TextItem) : bool :=
  isSerialMarker (trim (str item)).

Definition isHeaderOrFooter (p : Page) (item : TextItem) : bool :=
  let y := at_ (transform item) 5 in
  lt y (footerThreshold p) || gt y (headerThreshold p).

(** The [isMetadata] constant of the callback. *)
Definition itemIsMetadata (p : Page) (item : TextItem) : bool :=
  isHeading p item || isSerial item || isHeaderOrFooter p item.

(** The three variables the callback closes over. *)
Record Acc :=
  { allSentences : list Sentence;
    fullText : jsstring;
    currentItemIndices : list nat }.

(** [fullText.match(...) || [fullText]] *)
Definition splitRaw (s : jsstring) : list jsstring :=
  match matchSentences s with
  | [] => [s]
  | raw => raw
  end.

(** [raw.forEach(s => { if (s.trim()) allSentences.push(...) })] *)
Definition pushPieces (raw : list jsstring) (indices : list nat)
    (all : list Sentence) : list Sentence :=
  fold_left
    (fun all s =>
       if isEmpty (trim s) then all
       else all ++ [{| text := trim s; isMetadata := false;
                       itemIndices := indices |}])
    raw all.

(** The flush of the metadata branch, guarded by [fullText.trim()]. *)
Definition flushBeforeMetadata (st : Acc) : Acc :=
  if isEmpty (trim (fullText st)) then st
  else
    {| allSentences :=
         pushPieces (splitRaw (fullText st)) (currentItemIndices st)
           (allSentences st);
       fullText := [];
       currentItemIndices := [] |}.

(** The test of the body branch on the pieces of the new text. *)
Definition bodyFlushes (fullText' : jsstring) : bool :=
  let raw := splitRaw fullText' in
  (1 <? length raw)
  || ((length raw =? 1) && endsWithTerminal (trim fullText')).

(** The callback of [items.forEach((item, idx) => ...)]. *)
Definition step (p : Page) (st : Acc) (item : TextItem) (idx : nat) : Acc :=
  if isEmpty (str item) then st
  else if itemIsMetadata p item then
    let st' := flushBeforeMetadata st in
    {| allSentences :=
         allSentences st' ++
           [{| text := trim (str item); isMetadata := true;
               itemIndices := [idx] |}];
       fullText := fullText st';
       currentItemIndices := currentItemIndices st' |}
  else
    let fullText' := fullText st ++ str item ++ js " " in
    let indices' := currentItemIndices st ++ [idx] in
    if hasTerminal (str item) && bodyFlushes fullText' then
      {| allSentences :=
           allSentences st ++
             [{| text := trim fullText'; isMetadata := false;
                 itemIndices := indices' |}];
         fullText := [];
         currentItemIndices := [] |}
    else
      {| allSentences := allSentences st;
         fullText := fullText';
         currentItemIndices := indices' |}.

(** [a.forEach((x, idx) => ...)] threading the closed-over state. *)
Fixpoint forEach {A St : Type} (f : St -> A -> nat -> St)
    (l : list A) (idx : nat) (st : St) : St :=
  match l with
  | [] => st
  | x :: l' => forEach f l' (S idx) (f st x idx)
  end.

Definition emptyAcc : Acc :=
  {| allSentences := []; fullText := []; currentItemIndices := [] |}.

(** The flush after the loop. *)
Definition flushAtEnd (st : Acc) : list Sentence :=
  if isEmpty (trim (fullText st)) then allSentences st
  else pushPieces (splitRaw (fullText st)) (currentItemIndices st)
         (allSentences st).

(** The value [localSentences] holds once [onPageLoadSuccess] is done:
    it was reset to [[]] at entry and stays so on a page without
    items. *)
Definition onPageLoadSuccess (p : Page) : list Sentence :=
  match items p with
  | [] => []
  | _ => flushAtEnd (forEach (step p) (items p) 0 emptyAcc)
  end.

End Segmenter.

(** ** DocumentReader: the reading effect *)

Module Scheduler.
Import JsString JsNumber Segmenter.

(** A voice of the engine, by its name. *)
Definition Voice := jsstring.

(** What the effect sets on a [SpeechSynthesisUtterance]. *)
Record Utterance :=
  { utteranceText : jsstring; voice : option Voice; rate : number }.

(** Calls on [window.speechSynthesis]. *)
Inductive SpeechCall := cancel | speak (u : Utterance).

(** The props and state the reading effect depends on. *)
Record Reader :=
  { parentIsReading : bool;
    localSentences : list Sentence;
    activeSentenceIndex : nat;
    readingSpeed : number;
    selectedVoice : option Voice }.

(** [setActiveSentenceIndex(prev => f(prev))] *)
Definition setActiveSentenceIndex (f : nat -> nat) (r : Reader) : Reader :=
  {| parentIsReading := parentIsReading r;
     localSentences := localSentences r;
     activeSentenceIndex := f (activeSentenceIndex r);
     readingSpeed := readingSpeed r;
     selectedVoice := selectedVoice r |}.

(** [while (nextIdx < localSentences.length
            && localSentences[nextIdx].isMetadata) nextIdx++],
    run on [rest], the sentences from [nextIdx] on. *)
Fixpoint skipMetadata (rest : list Sentence) (nextIdx : nat) : nat :=
  match rest with
  | [] => nextIdx
  | s :: rest' =>
      if isMetadata s then skipMetadata rest' (S nextIdx) else nextIdx
  end.

(** What one run of the effect does: its calls on the engine, the index
    it sets if it sets one, and the calls of the cleanup it returns. *)
Record Outcome :=
  { calls : list SpeechCall;
    nextActive : option nat;
    cleanup : list SpeechCall }.

Definition utteranceOf (r : Reader) (sentenceObj : Sentence) : Utterance :=
  {| utteranceText := text sentenceObj;
     voice := selectedVoice r;
     rate := div (readingSpeed r) lit_120 |}.

(** The body of the reading effect. *)
Definition readingEffect (r : Reader) : Outcome :=
  if parentIsReading r && (0 <? length (localSentences r)) then
    match localSentences r !! activeSentenceIndex r with
    | None => {| calls := []; nextActive := None; cleanup := [] |}
    | Some sentenceObj =>
        if isMetadata sentenceObj then
          let nextIdx :=
            skipMetadata
              (drop (activeSentenceIndex r + 1) (localSentences r))
              (activeSentenceIndex r + 1) in
          if nextIdx <? length (localSentences r) then
            {| calls := []; nextActive := Some nextIdx; cleanup := [] |}
          else
            {| calls := [cancel]; nextActive := None; cleanup := [] |}
        else
          {| calls := [cancel; speak (utteranceOf r sentenceObj)];
             nextActive := None;
             cleanup := [cancel] |}
    end
  else {| calls := [cancel]; nextActive := None; cleanup := [] |}.

(** [utterance.onend] of the utterance made in the render [captured],
    run on the state [current] of the time the speech ends. *)
Definition onend (captured current : Reader) : Reader :=
  if (Z.of_nat (activeSentenceIndex captured)
      <? Z.of_nat (length (localSentences captured)) - 1)%Z
  then setActiveSentenceIndex S current
  else current.

(** The engine: the utterances spoken or queued. *)
Definition perform (queue : list Utterance) (c : SpeechCall)
    : list Utterance :=
  match c with
  | cancel => []
  | speak u => queue ++ [u]
  end.

Definition performAll (queue : list Utterance) (cs : list SpeechCall)
    : list Utterance :=
  fold_left perform cs queue.

(** The commits that follow one another: the effect runs, and an index
    it sets that differs from the active one brings a new render, whose
    commit runs the cleanup of the last effect and then the effect
    again.  [None] when [fuel] commits were not enough. *)
Fixpoint settle (fuel : nat) (r : Reader)
    : option (list SpeechCall * Reader) :=
  match fuel with
  | 0 => None
  | S fuel' =>
      let o := readingEffect r in
      match nextActive o with
      | None => Some (calls o, r)
      | Some j =>
          if j =? activeSentenceIndex r then Some (calls o, r)
          else
            match settle fuel' (setActiveSentenceIndex (fun _ => j) r) with
            | Some (cs, r') => Some (calls o ++ cleanup o ++ cs, r')
            | None => None
            end
      end
  end.

End Scheduler.

(** ** DocumentReader: recording and the WAV encoder *)

Module Wav.
Import JsString.
#[local] Open Scope Z_scope.

(** An entry of the [Float32Array] of a decoded channel: a finite
    binary32 value, an infinity or NaN.  The finite values are taken as
    the rationals they are: clamping compares exactly, and both products
    of the encoder are exact in binary64 (a 24-bit significand times a
    16-bit whole number), so rational arithmetic is what the code
    computes on them. *)
Inductive sample :=
| Finite (q : Q)
| PlusInfinity
| MinusInfinity
| NotANumber.

(** [a < b] on rationals. *)
Definition Qltb (a b : Q) : bool := negb (Qle_bool b a).

(** [Math.min(1, x)] *)
Definition min1 (x : sample) : sample :=
  match x with
  | Finite q => if Qltb 1 q then Finite 1 else x
  | PlusInfinity => Finite 1
  | MinusInfinity => MinusInfinity
  | NotANumber => NotANumber
  end.

(** [Math.max(-1, x)] *)
Definition maxNeg1 (x : sample) : sample :=
  match x with
  | Finite q => if Qltb q (-1) then Finite (-1) else x
  | PlusInfinity => PlusInfinity
  | MinusInfinity => Finite (-1)
  | NotANumber => NotANumber
  end.

(** [const s = Math.max(-1, Math.min(1, samples[i]))] *)
Definition clamp (x : sample) : sample := maxNeg1 (min1 x).

(** [s < 0 ? s * 0x8000 : s * 0x7FFF] *)
Definition scale (s : sample) : sample :=
  match s with
  | Finite q => if Qltb q 0 then Finite (q * 32768) else Finite (q * 32767)
  | PlusInfinity => PlusInfinity
  | MinusInfinity => MinusInfinity
  | NotANumber => NotANumber
  end.

(** The whole part of a rational, rounding toward zero. *)
Definition truncate (q : Q) : Z := Z.quot (Qnum q) (Zpos (Qden q)).

(** ToInt16, the conversion [setInt16] applies to its argument: NaN and
    the infinities give 0, a finite value is truncated and wrapped into
    the signed 16-bit range. *)
Definition toInt16 (x : sample) : Z :=
  match x with
  | Finite q => (truncate q + 32768) mod 65536 - 32768
  | _ => 0
  end.

(** The bytes of an [ArrayBuffer], each in [0, 256). *)
Definition DataView := list Z.

(** The setters of [DataView], little-endian where there is a choice.
    A write that does not fit the buffer throws a [RangeError] and
    writes nothing: [None]. *)
Definition setUint8 (offset : nat) (value : Z) (view : DataView)
    : option DataView :=
  if (offset + 1 <=? length view)%nat
  then Some (<[offset := value mod 256]> view)
  else None.

Definition setUint16 (offset : nat) (value : Z) (view : DataView)
    : option DataView :=
  if (offset + 2 <=? length view)%nat
  then Some (<[(offset + 1)%nat := (value / 256) mod 256]>
               (<[offset := value mod 256]> view))
  else None.

Definition setUint32 (offset : nat) (value : Z) (view : DataView)
    : option DataView :=
  if (offset + 4 <=? length view)%nat
  then Some (<[(offset + 3)%nat := (value / 16777216) mod 256]>
               (<[(offset + 2)%nat := (value / 65536) mod 256]>
                  (<[(offset + 1)%nat := (value / 256) mod 256]>
                     (<[offset := value mod 256]> view))))
  else None.

Definition setInt16 (offset : nat) (value : sample) (view : DataView)
    : option DataView :=
  setUint16 offset (toInt16 value mod 65536) view.

(** [writeString(view, offset, string)] *)
Fixpoint writeString (offset : nat) (string : jsstring) (view : DataView)
    : option DataView :=
  match string with
  | [] => Some view
  | c :: string' =>
      view ← setUint8 offset (Z.of_N c) view;
      writeString (S offset) string' view
  end.

(** The loop [for (let i = 0; i < samples.length; i++, offset += 2)]. *)
Fixpoint writeSamples (offset : nat) (samples : list sample)
    (view : DataView) : option DataView :=
  match samples with
  | [] => Some view
  | x :: samples' =>
      let s := clamp x in
      view ← setInt16 offset (scale s) view;
      writeSamples (offset + 2) samples' view
  end.

(** [encodeWav(samples, sampleRate)]: the bytes of the buffer it
    returns. *)
Definition encodeWav (samples : list sample) (sampleRate : Z)
    : option DataView :=
  let n := Z.of_nat (length samples) in
  let view := replicate (44 + length samples * 2) 0 in
  view ← writeString 0 (js "RIFF") view;
  view ← setUint32 4 (36 + n * 2) view;
  view ← writeString 8 (js "WAVE") view;
  view ← writeString 12 (js "fmt ") view;
  view ← setUint32 16 16 view;
  view ← setUint16 20 1 view;
  view ← setUint16 22 1 view;
  view ← setUint32 24 sampleRate view;
  view ← setUint32 28 (sampleRate * 2) view;
  view ← setUint16 32 2 view;
  view ← setUint16 34 16 view;
  view ← writeString 36 (js "data") view;
  view ← setUint32 40 (n * 2) view;
  writeSamples 44 samples view.

(** What [decodeAudioData] resolves with: the rate and the channels of
    the decoded audio, of which there is at least one. *)
Record AudioBuffer :=
  { sampleRate : Z;
    channel0 : list sample;
    otherChannels : list (list sample) }.

Definition numberOfChannels (b : AudioBuffer) : nat :=
  S (length (otherChannels b)).

Record Blob := { blobType : String.string; blobBytes : list Z }.

(** What a handler can throw. *)
Inductive Error := DecodeError | RangeError.

(** What the stop handler does that is seen from outside it. *)
Inductive Event :=
| consoleLog
| consoleError (e : Error)
| onPractice (b : Blob)
| trackStop (track : nat).

(** A run: the events so far and how the run ended. *)
Inductive Completion (A : Type) :=
| Returned (a : A)
| Thrown (e : Error).
Arguments Returned {A} a.
Arguments Thrown {A} e.

Definition Run (A : Type) : Type := list Event * Completion A.

Definition ret {A : Type} (a : A) : Run A := ([], Returned a).
Definition throw {A : Type} (e : Error) : Run A := ([], Thrown e).
Definition emit (ev : Event) : Run unit := ([ev], Returned tt).

Definition bind {A B : Type} (m : Run A) (k : A -> Run B) : Run B :=
  match m with
  | (evs, Returned a) => let '(evs', c) := k a in (evs ++ evs', c)
  | (evs, Thrown e) => (evs, Thrown e)
  end.

(** [try { body } catch (err) { handler }] *)
Definition tryCatch {A : Type} (body : Run A) (handler : Error -> Run A)
    : Run A :=
  match body with
  | (evs, Returned a) => (evs, Returned a)
  | (evs, Thrown e) => let '(evs', c) := handler e in (evs ++ evs', c)
  end.

Notation "'do' x <- m ; k" := (bind m (fun x => k))
  (at level 10, x name, m at level 100, k at level 200).
Notation "'exec' m ; k" := (bind m (fun _ => k))
  (at level 10, m at level 100, k at level 200).

(** [convertToWav(blob)], given the decoder of the audio context made
    with [{ sampleRate: 16000 }]; the decoder rejects by [None]. *)
Definition convertToWav (decodeAudioData : list Z -> option AudioBuffer)
    (blob : Blob) : Run Blob :=
  match decodeAudioData (blobBytes blob) with
  | None => throw DecodeError
  | Some audioBuffer =>
      let pcmData := channel0 audioBuffer in
      match encodeWav pcmData 16000 with
      | None => throw RangeError
      | Some wavBuffer =>
          ret {| blobType := "audio/wav"; blobBytes := wavBuffer |}
      end
  end.

(** [stream.getTracks().forEach(track => track.stop())] *)
Fixpoint stopAll (tracks : list nat) : Run unit :=
  match tracks with
  | [] => ret tt
  | track :: tracks' => exec emit (trackStop track); stopAll tracks'
  end.

(** [recorder.onstop], for the chunks recorded and the tracks of the
    stream acquired by [startRecording].  The [onPractice] prop is the
    parent's asynchronous handler: calling it does not throw. *)
Definition onstop (decodeAudioData : list Z -> option AudioBuffer)
    (audioChunks : list (list Z)) (streamTracks : list nat) : Run unit :=
  let webmBlob :=
    {| blobType := "audio/webm"; blobBytes := concat audioChunks |} in
  exec tryCatch
         (exec emit consoleLog;
          do wavBlob <- convertToWav decodeAudioData webmBlob;
          emit (onPractice wavBlob))
         (fun err =>
            exec emit (consoleError err);
            emit (onPractice webmBlob));
  stopAll streamTracks.

(** The fields of a WAV header, read back little-endian. *)
Definition getUint16 (offset : nat) (view : DataView) : option Z :=
  b0 ← view !! offset;
  b1 ← view !! (offset + 1)%nat;
  Some (b0 + 256 * b1).

Definition getUint32 (offset : nat) (view : DataView) : option Z :=
  b0 ← view !! offset;
  b1 ← view !! (offset + 1)%nat;
  b2 ← view !! (offset + 2)%nat;
  b3 ← view !! (offset + 3)%nat;
  Some (b0 + 256 * b1 + 65536 * b2 + 16777216 * b3).

Definition getInt16 (offset : nat) (view : DataView) : option Z :=
  u ← getUint16 offset view;
  Some (if u <? 32768 then u else u - 65536).

End Wav.

(** ** SentencePractice *)

Module Practice.
Import JsString JsNumber.

Record WordMatch := { word : jsstring; correct : bool }.

(** [getWordMatchMap(expected, spoken)], given the [toLowerCase] of the
    engine; [spoken] is [None] when it is [undefined] or [null]. *)
Definition getWordMatchMap (toLowerCase : jsstring -> jsstring)
    (expected : jsstring) (spoken : option jsstring) : list WordMatch :=
  let exp := splitSpace (toLowerCase expected) in
  let spk :=
    match spoken with
    | Some s => splitSpace (toLowerCase s)
    | None => []
    end in
  imap (fun i word =>
          {| word := word; correct := bool_decide (spk !! i = Some word) |})
    exp.

(** The three strings [getEncouragement] returns. *)
Definition greatJob : String.string :=
  "Great job! Your pronunciation was clear and confident 🎉".
Definition niceEffort : String.string :=
  "Nice effort — you're very close! Try reading a little slower 🌟".
Definition goodTry : String.string :=
  "Good try! Let's practice again — focus on the highlighted words 💪".

(** [getEncouragement(score)] *)
Definition getEncouragement (score : number) : String.string :=
  if ge score lit_0_85 then greatJob
  else if ge score lit_0_65 then niceEffort
  else goodTry.

End Practice.

(** ** Predicates of the statements *)

Module Shape.
Import JsString Segmenter.

(** No terminator at all. *)
Definition textOnly (s : jsstring) : bool :=
  forallb (fun c => negb (isTerminal c)) s.

(** Terminators occur only as a prefix of the string. *)
Fixpoint leadingOnly (s : jsstring) : bool :=
  match s with
  | [] => true
  | c :: s' => if isTerminal c then leadingOnly s' else textOnly s'
  end.

(** The string is not empty and its last code unit is no terminator. *)
Fixpoint endsText (s : jsstring) : bool :=
  match s with
  | [] => false
  | c :: s' =>
      match s' with
      | [] => negb (isTerminal c)
      | _ :: _ => endsText s'
      end
  end.

(** Strictly increasing list of indices. *)
Definition increasing (l : list nat) : Prop :=
  forall i j a b, l !! i = Some a -> l !! j = Some b -> i < j -> a < b.

(** No index occurs in the lists of two different sentences. *)
Definition disjointIndices (out : list Sentence) : Prop :=
  forall i j s1 s2 k,
    out !! i = Some s1 -> out !! j = Some s2 -> i <> j ->
    k ∈ itemIndices s1 -> k ∉ itemIndices s2.

(** All the indices recorded so far, those of the open accumulator
    last. *)
Definition usedIndices (st : Acc) : list nat :=
  concat (map itemIndices (allSentences st)) ++ currentItemIndices st.

(** What holds of the accumulator before the item of index [n]. *)
Record AccInv (n : nat) (st : Acc) : Prop :=
  { inv_sentences :
      Forall (fun s => itemIndices s <> [] /\ increasing (itemIndices s))
        (allSentences st);
    inv_current : increasing (currentItemIndices st);
    inv_bound : Forall (fun k => k < n) (usedIndices st);
    inv_nodup : NoDup (usedIndices st);
    inv_leading : leadingOnly (fullText st) = true;
    inv_pending : fullText st <> [] -> currentItemIndices st <> [] }.

(** The item of index [k] is a non-empty item that is not metadata. *)
Definition isBody (p : Page) (k : nat) : Prop :=
  exists item, items p !! k = Some item
               /\ isEmpty (str item) = false
               /\ itemIsMetadata p item = false.

(** The sentence pushed for a metadata item. *)
Definition metadataSentence (item : TextItem) (k : nat) : Sentence :=
  {| text := trim (str item); isMetadata := true; itemIndices := [k] |}.

(** The item of index [k] is a non-empty metadata item. *)
Definition isMetadataItem (p : Page) (k : nat) (item : TextItem) : Prop :=
  items p !! k = Some item
  /\ isEmpty (str item) = false
  /\ itemIsMetadata p item = true.

(** A sentence is accounted for by the items before index [n]. *)
Definition justified (p : Page) (n : nat) (s : Sentence) : Prop :=
  if isMetadata s then
    exists k item, k < n /\ isMetadataItem p k item
                   /\ s = metadataSentence item k
  else Forall (isBody p) (itemIndices s).

(** What the accumulator says of the classification of the items before
    index [n]. *)
Record ClassInv (p : Page) (n : nat) (st : Acc) : Prop :=
  { cls_sentences : Forall (justified p n) (allSentences st);
    cls_current : Forall (isBody p) (currentItemIndices st);
    cls_complete :
      forall k item, k < n -> isMetadataItem p k item ->
                     metadataSentence item k ∈ allSentences st }.

End Shape.


(** ** The bytes the encoder is shown to write *)

Module Layout.
Import JsString Wav.
#[local] Open Scope Z_scope.

(** The four bytes of [v], lowest first. *)
Definition le32 (v : Z) : list Z :=
  [v mod 256; (v / 256) mod 256; (v / 65536) mod 256;
   (v / 16777216) mod 256].

(** The two bytes of [v], lowest first. *)
Definition le16 (v : Z) : list Z := [v mod 256; (v / 256) mod 256].

(** The 44 bytes before the samples, for [n] samples. *)
Definition header (n : nat) (sampleRate : Z) : list Z :=
  [82; 73; 70; 70] ++ le32 (36 + Z.of_nat n * 2)
  ++ [87; 65; 86; 69] ++ [102; 109; 116; 32] ++ le32 16
  ++ le16 1 ++ le16 1 ++ le32 sampleRate ++ le32 (sampleRate * 2)
  ++ le16 2 ++ le16 16 ++ [100; 97; 116; 97] ++ le32 (Z.of_nat n * 2).

(** The two bytes written for the sample [x]. *)
Definition sampleBytes (x : sample) : list Z :=
  le16 (toInt16 (scale (clamp x)) mod 65536).

End Layout.

(** ** The wording of the specification, where it differs from the code *)

Module Specified.
Import JsString JsNumber Segmenter.

(** "Its height exceeds 1.3 x the median fragment height of the page",
    the median being the middle entry of the sorted heights as the code
    picks it. *)
Definition exceedsMedian (p : Page) (item : TextItem) : bool :=
  gt (abs (at_ (transform item) 3)) (mul (middleHeight p) lit_1_3).

(** "Metadata exactly when at least one of these holds." *)
Definition itemIsMetadata (p : Page) (item : TextItem) : bool :=
  exceedsMedian p item || isSerial item || isHeaderOrFooter p item.

(** "On a body fragment with terminal punctuation, immediately flush the
    accumulator and split the accumulated text at terminal punctuation,
    each split piece being its own non-metadata sentence." *)
Definition stepBody (st : Acc) (item : TextItem) (idx : nat) : Acc :=
  let fullText' := fullText st ++ str item ++ js " " in
  let indices' := currentItemIndices st ++ [idx] in
  if hasTerminal (str item) then
    {| allSentences :=
         pushPieces (splitRaw fullText') indices' (allSentences st);
       fullText := [];
       currentItemIndices := [] |}
  else
    {| allSentences := allSentences st;
       fullText := fullText';
       currentItemIndices := indices' |}.

(** "Normalized by lower-casing and stripping punctuation and then
    split on whitespace": what is neither a word character nor
    whitespace is removed, and the pieces are what lies between runs of
    whitespace. *)
Definition stripPunctuation (s : jsstring) : jsstring :=
  List.filter (fun c => isWordChar c || isWhiteSpace c) s.

Fixpoint splitRuns (inGap : bool) (cur s : jsstring) : list jsstring :=
  match s with
  | [] => [cur]
  | c :: s' =>
      if isWhiteSpace c then
        if inGap then splitRuns true cur s' else cur :: splitRuns true [] s'
      else splitRuns false (cur ++ [c]) s'
  end.

Definition normalize (toLowerCase : jsstring -> jsstring) (s : jsstring)
    : list jsstring :=
  splitRuns false [] (stripPunctuation (toLowerCase s)).

(** "Word i is marked correct iff spoken[i] equals expected[i]." *)
Definition positional (toLowerCase : jsstring -> jsstring)
    (expected spoken : jsstring) : list bool :=
  imap (fun i word =>
          bool_decide (normalize toLowerCase spoken !! i = Some word))
    (normalize toLowerCase expected).

End Specified.

(** ** Pages of the examples *)

Module Examples.
Import JsString JsNumber Segmenter.

(** An upright item of height [h] with its baseline at [y]. *)
Definition upright (s : String.string) (h y : float) : TextItem :=
  {| str := js s;
     transform := [num h; num 0; num 0; num h; num 72; num y] |}.

(** An item turned by a quarter turn: entry 3 of its transform is 0. *)
Definition turned (s : String.string) (h y : float) : TextItem :=
  {| str := js s;
     transform := [num 0; num h; num (- h); num 0; num 72; num y] |}.

(** A body line holding two sentences, and a small upright line. *)
Definition twoInOneItem : TextItem :=
  upright "The cat sat. It was happy!" 12 600.
Definition smallItem : TextItem := upright "Hello" 5 400.

(** A heading over two body lines. *)
Definition chapterPage : Page :=
  {| items := [upright "Chapter 1" 20 700; upright "The cat sat." 12 600;
               upright "It was happy!" 12 580];
     viewportHeight := num 800 |}.

(** One body line holding two sentences. *)
Definition twoInOnePage : Page :=
  {| items := [twoInOneItem]; viewportHeight := num 800 |}.

(** Two turned lines and one small upright line. *)
Definition turnedPage : Page :=
  {| items := [turned "Side" 12 600; turned "note" 12 500; smallItem];
     viewportHeight := num 800 |}.

(** A reader that plays, at sentence [i] of [sentences]. *)
Definition playing (sentences : list Sentence) (i : nat)
    : Scheduler.Reader :=
  {| Scheduler.parentIsReading := true;
     Scheduler.localSentences := sentences;
     Scheduler.activeSentenceIndex := i;
     Scheduler.readingSpeed := num 120;
     Scheduler.selectedVoice := None |}.

Definition sentence (s : String.string) (meta : bool) (i : nat) : Sentence :=
  {| text := js s; isMetadata := meta; itemIndices := [i] |}.

(** A reader that plays the only sentence of its page. *)
Definition lastSentenceReader : Scheduler.Reader :=
  playing [sentence "The end." false 0] 0.

End Examples.

(** ** Predicates on segmented pages *)

Module Pages.
Import JsString Segmenter Shape.

(** Some code unit of the string is not whitespace. *)
Definition hasInk (s : jsstring) : bool :=
  existsb (fun c => negb (isWhiteSpace c)) s.

(** The string after its leading terminators. *)
Fixpoint textPart (s : jsstring) : jsstring :=
  match s with
  | [] => []
  | c :: s' => if isTerminal c then textPart s' else s
  end.

(** The metadata sentences of the items [l], the first of which has
    index [idx], in the order of the items. *)
Fixpoint metadataFrom (p : Page) (l : list TextItem) (idx : nat)
    : list Sentence :=
  match l with
  | [] => []
  | item :: l' =>
      (if negb (isEmpty (str item)) && itemIsMetadata p item
       then [metadataSentence item idx] else [])
      ++ metadataFrom p l' (S idx)
  end.

(** The texts of the items of the given indices, each followed by a
    space. *)
Definition joined (p : Page) (indices : list nat) : jsstring :=
  flat_map
    (fun k => match items p !! k with
              | Some item => str item ++ js " "
              | None => []
              end)
    indices.

(** The text of a sentence that is not metadata: not empty, and the
    trimmed text of its items, with or without their leading
    terminators. *)
Definition bodyText (p : Page) (s : Sentence) : Prop :=
  isMetadata s = false ->
  isEmpty (text s) = false
  /\ (text s = trim (joined p (itemIndices s))
      \/ text s = trim (textPart (joined p (itemIndices s)))).

(** What the accumulator holds before the item of index [n]: its text is
    that of its open indices, every body item so far is recorded, a
    text that is not blank is not blank after its leading terminators
    either, and the sentences pushed have the text of their items. *)
Record CoverInv (p : Page) (n : nat) (st : Acc) : Prop :=
  { cov_acc : AccInv n st;
    cov_text : fullText st = joined p (currentItemIndices st);
    cov_body : forall k, k < n -> isBody p k -> k ∈ usedIndices st;
    cov_pending :
      hasInk (fullText st) = true -> hasInk (textPart (fullText st)) = true;
    cov_sentences : Forall (bodyText p) (allSentences st) }.

End Pages.

(** ** DocumentReader: navigation and play to the end *)

Module Navigation.
Import JsString Segmenter Scheduler.

(** Calls on the props of the parent. *)
Inductive ParentCall := onJumpTo (index : nat).

(** What a handler leaves: the state, and its calls on the parent and on
    the engine. *)
Record Handled :=
  { reader : Reader;
    parentCalls : list ParentCall;
    speechCalls : list SpeechCall }.

(** [handleNextSentence]; [jump] tells whether the [onJumpTo] prop is
    given. *)
Definition handleNextSentence (jump : bool) (r : Reader) : Handled :=
  if (Z.of_nat (activeSentenceIndex r)
      <? Z.of_nat (length (localSentences r)) - 1)%Z
  then
    let nextIndex := activeSentenceIndex r + 1 in
    {| reader := setActiveSentenceIndex (fun _ => nextIndex) r;
       parentCalls := if jump then [onJumpTo nextIndex] else [];
       speechCalls := [] |}
  else {| reader := r; parentCalls := []; speechCalls := [] |}.

(** [handlePrevSentence] *)
Definition handlePrevSentence (jump : bool) (r : Reader) : Handled :=
  if 0 <? activeSentenceIndex r then
    let prevIndex := activeSentenceIndex r - 1 in
    {| reader := setActiveSentenceIndex (fun _ => prevIndex) r;
       parentCalls := if jump then [onJumpTo prevIndex] else [];
       speechCalls := [] |}
  else {| reader := r; parentCalls := []; speechCalls := [] |}.

(** The effect that follows the parent: [parentIndex] is [None] when
    the prop is [undefined]. *)
Definition syncWithParent (parentIndex : option nat) (r : Reader) : Reader :=
  match parentIndex with
  | Some index =>
      if index =? activeSentenceIndex r then r
      else setActiveSentenceIndex (fun _ => index) r
  | None => r
  end.

(** [handleSentenceClick(index)] *)
Definition handleSentenceClick (jump : bool) (index : nat) (r : Reader)
    : Handled :=
  {| reader := setActiveSentenceIndex (fun _ => index) r;
     parentCalls := if jump then [onJumpTo index] else [];
     speechCalls := if parentIsReading r then [cancel] else [] |}.

(** The first index from [idx] on of a sentence that is not metadata,
    [rest] being the sentences from [idx] on. *)
Fixpoint findBody (rest : list Sentence) (idx : nat) : option nat :=
  match rest with
  | [] => None
  | s :: rest' => if isMetadata s then findBody rest' (S idx) else Some idx
  end.

Definition nextBody (sentences : list Sentence) (i : nat) : option nat :=
  findBody (drop i sentences) i.

(** The texts passed to [speak], in the order of the calls. *)
Definition spokenTexts (cs : list SpeechCall) : list jsstring :=
  omap (fun c => match c with
                 | speak u => Some (utteranceText u)
                 | cancel => None
                 end) cs.

(** Playing on without a touch of the user: the commits settle; when
    they leave an utterance with the engine it is spoken to its end and
    its [onend] runs; a cursor moved by [onend] brings the cleanup of
    the last effect and the next commits.  [None] when [fuel] sentences
    were not enough. *)
Fixpoint playThrough (fuel : nat) (r : Reader)
    : option (list SpeechCall * Reader) :=
  match fuel with
  | 0 => None
  | S fuel' =>
      match settle 2 r with
      | None => None
      | Some (cs, r1) =>
          match performAll [] cs with
          | [] => Some (cs, r1)
          | _ :: _ =>
              let r2 := onend r1 r1 in
              if activeSentenceIndex r2 =? activeSentenceIndex r1
              then Some (cs, r1)
              else
                match playThrough fuel' r2 with
                | Some (cs', r') =>
                    Some (cs ++ cleanup (readingEffect r1) ++ cs', r')
                | None => None
                end
          end
      end
  end.


End Navigation.

(** ** DocumentReader: the spans of the text layer *)

Module Dom.
Import JsString Segmenter.

(** What the reader touches of a span: its class list, and the index of
    the sentence its [onclick] passes to [handleSentenceClick], when it
    has one.  A span is known by its position among the spans of the
    container. *)
Record Span := { classList : list String.string; onclick : option nat }.

Definition classListContains (c : String.string)
    (cl : list String.string) : bool :=
  existsb (String.eqb c) cl.

(** [el.classList.add(c)] *)
Definition classListAdd (c : String.string) (cl : list String.string)
    : list String.string :=
  if classListContains c cl then cl else cl ++ [c].

(** [el.classList.remove(c)] *)
Definition classListRemove (c : String.string) (cl : list String.string)
    : list String.string :=
  List.filter (fun d => negb (String.eqb c d)) cl.

(** The body of [elements.forEach] in [mapSentencesToDom]. *)
Definition bindSpan (s : Sentence) (sIdx : nat) (el : Span) : Span :=
  let cl := classListAdd "sentence-token"%string (classList el) in
  if isMetadata s then {| classList := cl; onclick := onclick el |}
  else {| classList := classListAdd "interactive-token"%string cl;
          onclick := Some sIdx |}.

(** [s.itemIndices.map(idx => spans[idx]).filter(Boolean)]: the spans
    that exist, by position. *)
Definition elementsOf (spans : list Span) (s : Sentence) : list nat :=
  filter (fun idx => idx < length spans) (itemIndices s).

(** [elements.forEach(el => ...)] on the spans. *)
Definition forElements (f : Span -> Span) (elements : list nat)
    (spans : list Span) : list Span :=
  fold_left (fun spans el => alter f el spans) elements spans.

(** [mapSentencesToDom(sentences)]: the spans after it and the map it
    stores, or [None] when there is no container and it returns at
    once. *)
Definition mapSentencesToDom (container : option (list Span))
    (sentences : list Sentence)
    : option (list Span * list (list nat)) :=
  match container with
  | None => None
  | Some spans =>
      Some (forEach
              (fun spans' s sIdx =>
                 forElements (bindSpan s sIdx) (elementsOf spans s) spans')
              sentences 0 spans,
            map (elementsOf spans) sentences)
  end.

(** The body of [elements.forEach] in the highlighting effect. *)
Definition highlightSpan (isActive : bool) (el : Span) : Span :=
  {| classList :=
       if isActive then classListAdd "sentence-active"%string (classList el)
       else classListRemove "sentence-active"%string (classList el);
     onclick := onclick el |}.

(** The highlighting effect: the spans after it, and the span scrolled
    into view, if any. *)
Definition highlightEffect (domItemsMap : list (list nat))
    (activeSentenceIndex : nat) (spans : list Span)
    : list Span * option nat :=
  match domItemsMap with
  | [] => (spans, None)
  | _ =>
      forEach
        (fun (acc : list Span * option nat) elements idx =>
           let isActive := idx =? activeSentenceIndex in
           (forElements (highlightSpan isActive) elements (fst acc),
            if isActive then
              match elements with
              | el :: _ => Some el
              | [] => snd acc
              end
            else snd acc))
        domItemsMap 0 (spans, None)
  end.

(** Groups of spans worked through one after the other, the group of
    index [idx] changing its spans [els x] by [f x idx]: the shape of
    both loops above. *)
Definition run {X : Type} (els : X -> list nat)
    (f : X -> nat -> Span -> Span) (l : list X) (n : nat)
    (spans : list Span) : list Span :=
  forEach (fun spans' x idx => forElements (f x idx) (els x) spans')
    l n spans.

(** A span as the text layer renders it. *)
Definition plainSpan : Span := {| classList := []; onclick := None |}.

End Dom.

(** ** The value an audio sample is written as *)

Module Quantize.
Import Wav.

(** What the encoder passes to [setInt16] for a finite sample [q]: the
    clamped sample times [0x8000] when it is negative and times
    [0x7FFF] otherwise. *)
Definition scaled (q : Q) : Q :=
  if Qltb 1 q then 32767
  else if Qltb q (-1) then -32768
  else if Qltb q 0 then q * 32768 else q * 32767.

End Quantize.

(** ** DocumentReader: word feedback and the spoken correction *)

Module Feedback.
Import JsString JsNumber Segmenter Scheduler Practice.

(** [s.replace(/[^\w\s]/g, '')] *)
Definition removePunctuation (s : jsstring) : jsstring :=
  List.filter (fun c => isWordChar c || isWhiteSpace c) s.

(** [s.split(/\s+/)]: [cur] is the piece being read, [inGap] tells that
    the last unit read was white space.  The empty string splits into
    one empty piece, and white space at either end leaves an empty
    piece there. *)
Fixpoint splitBlanks (inGap : bool) (cur s : jsstring) : list jsstring :=
  match s with
  | [] => [cur]
  | c :: s' =>
      if isWhiteSpace c then
        if inGap then splitBlanks true cur s'
        else cur :: splitBlanks true [] s'
      else splitBlanks false (cur ++ [c]) s'
  end.

(** [s.toLowerCase().replace(/[^\w\s]/g, '').split(/\s+/)], given the
    [toLowerCase] of the engine. *)
Definition words (toLowerCase : jsstring -> jsstring) (s : jsstring)
    : list jsstring :=
  splitBlanks false [] (removePunctuation (toLowerCase s)).

(** The [result] of a practice result; a [score] that is missing
    compares as NaN does. *)
Record Result := { spoken_text : option jsstring; score : number }.

(** The [practiceResult] prop, when it is given. *)
Record PracticeResult := { result : option Result }.

(** [practiceResult.result?.spoken_text || ""] *)
Definition spokenText (pr : PracticeResult) : jsstring :=
  match result pr with
  | Some r => match spoken_text r with Some t => t | None => [] end
  | None => []
  end.

(** [getWordFeedback()] *)
Definition getWordFeedback (toLowerCase : jsstring -> jsstring)
    (practiceResult : option PracticeResult)
    (localSentences : list Sentence) (activeSentenceIndex : nat)
    : list WordMatch :=
  match practiceResult, localSentences !! activeSentenceIndex with
  | Some pr, Some s =>
      let expected := words toLowerCase (text s) in
      let spoken := words toLowerCase (spokenText pr) in
      map (fun word =>
             {| word := word; correct := bool_decide (word ∈ spoken) |})
        expected
  | _, _ => []
  end.

(** [l.join(sep)] *)
Fixpoint join (sep : jsstring) (l : list jsstring) : jsstring :=
  match l with
  | [] => []
  | x :: l' =>
      match l' with
      | [] => x
      | _ :: _ => x ++ sep ++ join sep l'
      end
  end.

(** A call on the engine made at once, or by [setTimeout] after [ms]
    milliseconds. *)
Inductive Scheduled :=
| now (c : SpeechCall)
| later (ms : nat) (c : SpeechCall).

(** The effect that speaks the correction, run for a new
    [practiceResult] with the [wordFeedback] of the same render. *)
Definition correctionEffect (practiceResult : option PracticeResult)
    (wordFeedback : list WordMatch) (selectedVoice : option Voice)
    : list Scheduled :=
  match practiceResult with
  | Some pr =>
      match result pr with
      | Some r =>
          if lt (score r) lit_0_85 then
            let missedWords :=
              map word
                (List.filter (fun w => negb (correct w)) wordFeedback) in
            if 0 <? length missedWords then
              let correctionText :=
                js "Let's try these words again: "
                  ++ join (js ", ") missedWords in
              [now cancel;
               later 1000
                 (speak {| utteranceText := correctionText;
                           voice := selectedVoice;
                           rate := lit_0_9 |})]
            else []
          else []
      | None => []
      end
  | None => []
  end.

End Feedback.

(** ** App: the reading assistant that hosts the document reader *)

Module Data.
Import JsString.

(** A sentence as the server sends it; only its text is read. *)
Record ServerSentence := { text : jsstring }.

(** [response.data] of the upload request. *)
Record Uploaded :=
  { uploaded : bool;
    sentences : list ServerSentence;
    pdf_url : jsstring }.

(** [response.data] of the evaluation request; [word_feedback] is [None]
    when it is missing. *)
Record Evaluation :=
  { success : bool;
    is_correct : bool;
    word_feedback : option (list jsstring);
    feedback : jsstring }.

End Data.

Module Assistant.
Import JsString.

Record SessionStats :=
  { totalSentences : nat;
    completedSentences : nat;
    correctAttempts : nat;
    totalAttempts : nat }.

Definition noStats : SessionStats :=
  {| totalSentences := 0; completedSentences := 0;
     correctAttempts := 0; totalAttempts := 0 |}.

Inductive View := upload | dashboard | reading.

(** The status line: one constructor for each text the component sets,
    [listeningTo index] for the text made with [index + 1] and
    [uploadFailed] for the one made with the message of the error. *)
Inductive Status :=
| uploadToBegin
| processingPdf
| pdfLoaded
| uploadFailed
| listeningToSentence
| stoppedListening
| evaluating
| excellent
| practiceError
| listeningTo (index : nat).

(** The state of [ReadingAssistant] that its handlers read or write. *)
Record App :=
  { pdfUrl : option jsstring;
    allSentences : list Data.ServerSentence;
    currentSentenceIndex : nat;
    isProcessing : bool;
    isReading : bool;
    status : Status;
    feedback : jsstring;
    wordFeedback : list jsstring;
    practiceResult : option Data.Evaluation;
    currentView : View;
    sessionStats : SessionStats }.

Definition initial : App :=
  {| pdfUrl := None; allSentences := []; currentSentenceIndex := 0;
     isProcessing := false; isReading := false; status := uploadToBegin;
     feedback := []; wordFeedback := []; practiceResult := None;
     currentView := upload; sessionStats := noStats |}.

(** The setters of the state. *)
Definition setPdfUrl (v : option jsstring) (a : App) : App :=
  {| pdfUrl := v; allSentences := allSentences a;
     currentSentenceIndex := currentSentenceIndex a;
     isProcessing := isProcessing a; isReading := isReading a;
     status := status a; feedback := feedback a;
     wordFeedback := wordFeedback a; practiceResult := practiceResult a;
     currentView := currentView a; sessionStats := sessionStats a |}.

Definition setAllSentences (v : list Data.ServerSentence) (a : App) : App :=
  {| pdfUrl := pdfUrl a; allSentences := v;
     currentSentenceIndex := currentSentenceIndex a;
     isProcessing := isProcessing a; isReading := isReading a;
     status := status a; feedback := feedback a;
     wordFeedback := wordFeedback a; practiceResult := practiceResult a;
     currentView := currentView a; sessionStats := sessionStats a |}.

Definition setCurrentSentenceIndex (f : nat -> nat) (a : App) : App :=
  {| pdfUrl := pdfUrl a; allSentences := allSentences a;
     currentSentenceIndex := f (currentSentenceIndex a);
     isProcessing := isProcessing a; isReading := isReading a;
     status := status a; feedback := feedback a;
     wordFeedback := wordFeedback a; practiceResult := practiceResult a;
     currentView := currentView a; sessionStats := sessionStats a |}.

Definition setIsProcessing (v : bool) (a : App) : App :=
  {| pdfUrl := pdfUrl a; allSentences := allSentences a;
     currentSentenceIndex := currentSentenceIndex a;
     isProcessing := v; isReading := isReading a;
     status := status a; feedback := feedback a;
     wordFeedback := wordFeedback a; practiceResult := practiceResult a;
     currentView := currentView a; sessionStats := sessionStats a |}.

Definition setIsReading (v : bool) (a : App) : App :=
  {| pdfUrl := pdfUrl a; allSentences := allSentences a;
     currentSentenceIndex := currentSentenceIndex a;
     isProcessing := isProcessing a; isReading := v;
     status := status a; feedback := feedback a;
     wordFeedback := wordFeedback a; practiceResult := practiceResult a;
     currentView := currentView a; sessionStats := sessionStats a |}.

Definition setStatus (v : Status) (a : App) : App :=
  {| pdfUrl := pdfUrl a; allSentences := allSentences a;
     currentSentenceIndex := currentSentenceIndex a;
     isProcessing := isProcessing a; isReading := isReading a;
     status := v; feedback := feedback a;
     wordFeedback := wordFeedback a; practiceResult := practiceResult a;
     currentView := currentView a; sessionStats := sessionStats a |}.

Definition setFeedback (v : jsstring) (a : App) : App :=
  {| pdfUrl := pdfUrl a; allSentences := allSentences a;
     currentSentenceIndex := currentSentenceIndex a;
     isProcessing := isProcessing a; isReading := isReading a;
     status := status a; feedback := v;
     wordFeedback := wordFeedback a; practiceResult := practiceResult a;
     currentView := currentView a; sessionStats := sessionStats a |}.

Definition setWordFeedback (v : list jsstring) (a : App) : App :=
  {| pdfUrl := pdfUrl a; allSentences := allSentences a;
     currentSentenceIndex := currentSentenceIndex a;
     isProcessing := isProcessing a; isReading := isReading a;
     status := status a; feedback := feedback a;
     wordFeedback := v; practiceResult := practiceResult a;
     currentView := currentView a; sessionStats := sessionStats a |}.

Definition setPracticeResult (v : option Data.Evaluation) (a : App) : App :=
  {| pdfUrl := pdfUrl a; allSentences := allSentences a;
     currentSentenceIndex := currentSentenceIndex a;
     isProcessing := isProcessing a; isReading := isReading a;
     status := status a; feedback := feedback a;
     wordFeedback := wordFeedback a; practiceResult := v;
     currentView := currentView a; sessionStats := sessionStats a |}.

Definition setCurrentView (v : View) (a : App) : App :=
  {| pdfUrl := pdfUrl a; allSentences := allSentences a;
     currentSentenceIndex := currentSentenceIndex a;
     isProcessing := isProcessing a; isReading := isReading a;
     status := status a; feedback := feedback a;
     wordFeedback := wordFeedback a; practiceResult := practiceResult a;
     currentView := v; sessionStats := sessionStats a |}.

Definition setSessionStats (f : SessionStats -> SessionStats) (a : App)
    : App :=
  {| pdfUrl := pdfUrl a; allSentences := allSentences a;
     currentSentenceIndex := currentSentenceIndex a;
     isProcessing := isProcessing a; isReading := isReading a;
     status := status a; feedback := feedback a;
     wordFeedback := wordFeedback a; practiceResult := practiceResult a;
     currentView := currentView a; sessionStats := f (sessionStats a) |}.

(** What a handler starts outside the state. *)
Inductive Effect :=
| postUpload
| postEvaluate (audio : list Z) (text : jsstring)
| setTimeout (ms : nat)
| playSuccessSound
| triggerConfetti
| consoleError.

(** A handler is a closure of the render that made it: it reads the
    state [rendered] of that render, and its setters act on the state
    [a] of the time it runs. *)

(** [handleFileUpload(file)] up to its [await]. *)
Definition handleFileUpload (a : App) : App * list Effect :=
  (setStatus processingPdf (setIsProcessing true a), [postUpload]).

(** [handleFileUpload] from its [await] on; [None] is a request that
    fails. *)
Definition handleFileUploadResumed (response : option Data.Uploaded)
    (a : App) : App * list Effect :=
  match response with
  | Some data =>
      if Data.uploaded data then
        (setIsProcessing false
           (setStatus pdfLoaded
              (setCurrentView reading
                 (setPdfUrl (Some (Data.pdf_url data))
                    (setAllSentences (Data.sentences data) a)))), [])
      else (setIsProcessing false a, [])
  | None =>
      (setIsProcessing false (setStatus uploadFailed a), [consoleError])
  end.

(** [readCurrentSentence()] *)
Definition readCurrentSentence (rendered a : App) : App :=
  if isProcessing rendered
     || negb (bool_decide
                (is_Some (allSentences rendered
                            !! currentSentenceIndex rendered)))
  then a
  else
    setStatus
      (if negb (isReading rendered) then listeningToSentence
       else stoppedListening)
      (setIsReading (negb (isReading rendered)) a).

(** [practiceCurrentSentence(audioBlob)] up to its [await]: reading the
    text of a sentence that is not there throws, and the [catch] and
    [finally] blocks run at once. *)
Definition practiceCurrentSentence (rendered : App) (audioBlob : list Z)
    (a : App) : App * list Effect :=
  let a := setStatus evaluating (setIsProcessing true a) in
  match allSentences rendered !! currentSentenceIndex rendered with
  | Some s => (a, [postEvaluate audioBlob (Data.text s)])
  | None => (setIsProcessing false (setStatus practiceError a), [])
  end.

(** [practiceCurrentSentence] from its [await] on; [None] is a request
    that fails. *)
Definition practiceCurrentSentenceResumed
    (response : option Data.Evaluation) (a : App) : App * list Effect :=
  match response with
  | Some data =>
      if Data.success data then
        let a := setPracticeResult (Some data) a in
        let a :=
          setWordFeedback
            (match Data.word_feedback data with
             | Some l => l
             | None => []
             end) a in
        let a := setFeedback (Data.feedback data) a in
        let a :=
          setSessionStats
            (fun prev =>
               {| totalSentences := totalSentences prev;
                  completedSentences := completedSentences prev;
                  correctAttempts :=
                    if Data.is_correct data then correctAttempts prev + 1
                    else correctAttempts prev;
                  totalAttempts := totalAttempts prev + 1 |}) a in
        if Data.is_correct data then
          (setIsProcessing false (setStatus excellent a),
           [playSuccessSound; triggerConfetti; setTimeout 2500])
        else (setIsProcessing false a, [])
      else (setIsProcessing false a, [])
  | None => (setIsProcessing false (setStatus practiceError a), [])
  end.

(** The callback of the timeout set after a correct attempt. *)
Definition advance (a : App) : App :=
  setFeedback []
    (setWordFeedback []
       (setPracticeResult None
          (setSessionStats
             (fun prev =>
                {| totalSentences := totalSentences prev;
                   completedSentences := completedSentences prev + 1;
                   correctAttempts := correctAttempts prev;
                   totalAttempts := totalAttempts prev |})
             (setCurrentSentenceIndex (fun prev => prev + 1) a)))).

(** [jumpToSentence(index)] *)
Definition jumpToSentence (index : nat) (a : App) : App :=
  setStatus (listeningTo index)
    (setFeedback []
       (setWordFeedback []
          (setPracticeResult None
             (setCurrentSentenceIndex (fun _ => index) a)))).

(** [restartSession()] *)
Definition restartSession (a : App) : App :=
  setSessionStats (fun _ => noStats)
    (setAllSentences []
       (setCurrentView upload
          (setCurrentSentenceIndex (fun _ => 0) a))).

(** The assistant with what is pending around it: the timeouts set and
    the requests sent that have not come back. *)
Record World :=
  { app : App;
    timeouts : nat;
    evaluations : nat;
    uploads : nat }.

Definition start : World :=
  {| app := initial; timeouts := 0; evaluations := 0; uploads := 0 |}.

(** What can happen next.  A handler called from outside the render
    (the stop handler of a recorder) comes with the state of the render
    that made it. *)
Inductive Event :=
| fileChosen
| uploadSettles (response : option Data.Uploaded)
| readAloudClicked
| recordingStopped (rendered : App) (audioBlob : list Z)
| evaluationSettles (response : option Data.Evaluation)
| timeoutFires
| jumped (index : nat)
| restarted.

Definition count (P : Effect -> bool) (effects : list Effect) : nat :=
  length (List.filter P effects).

Definition isTimeout (e : Effect) : bool :=
  match e with setTimeout _ => true | _ => false end.
Definition isEvaluate (e : Effect) : bool :=
  match e with postEvaluate _ _ => true | _ => false end.
Definition isUpload (e : Effect) : bool :=
  match e with postUpload => true | _ => false end.

(** The state after a handler, with what the handler started. *)
Definition after (w : World) (r : App * list Effect) : World :=
  {| app := fst r;
     timeouts := timeouts w + count isTimeout (snd r);
     evaluations := evaluations w + count isEvaluate (snd r);
     uploads := uploads w + count isUpload (snd r) |}.

(** One event; an answer or a timeout that nothing is waiting for does
    not happen. *)
Definition step (w : World) (e : Event) : World :=
  match e with
  | fileChosen => after w (handleFileUpload (app w))
  | uploadSettles response =>
      match uploads w with
      | 0 => w
      | S n =>
          after {| app := app w; timeouts := timeouts w;
                   evaluations := evaluations w; uploads := n |}
            (handleFileUploadResumed response (app w))
      end
  | readAloudClicked =>
      after w (readCurrentSentence (app w) (app w), [])
  | recordingStopped rendered audioBlob =>
      after w (practiceCurrentSentence rendered audioBlob (app w))
  | evaluationSettles response =>
      match evaluations w with
      | 0 => w
      | S n =>
          after {| app := app w; timeouts := timeouts w;
                   evaluations := n; uploads := uploads w |}
            (practiceCurrentSentenceResumed response (app w))
      end
  | timeoutFires =>
      match timeouts w with
      | 0 => w
      | S n =>
          {| app := advance (app w); timeouts := n;
             evaluations := evaluations w; uploads := uploads w |}
      end
  | jumped index => after w (jumpToSentence index (app w), [])
  | restarted => after w (restartSession (app w), [])
  end.

Definition run (w : World) (events : list Event) : World :=
  fold_left step events w.

Definition isRestart (e : Event) : bool :=
  match e with restarted => true | _ => false end.

(** What every event keeps. *)
Definition counted (w : World) : Prop :=
  correctAttempts (sessionStats (app w))
  <= totalAttempts (sessionStats (app w))
  /\ totalSentences (sessionStats (app w)) = 0.

(** What every event but a restart keeps. *)
Definition settled (w : World) : Prop :=
  completedSentences (sessionStats (app w)) + timeouts w
  = correctAttempts (sessionStats (app w)).

End Assistant.

(** ** DocumentReader: the recording session *)

Module Recording.
Import JsString Wav.

(** A [MediaRecorder] with the stream it records, by the tracks of the
    stream: its [state] is recording or inactive, and after [stop()] its
    [stop] event is queued until it fires. *)
Record Recorder :=
  { stream : list nat;
    isActive : bool;
    stopQueued : bool }.

(** What the component does that is seen from outside: the events of a
    stop handler, the error logged when the microphone is refused, and
    the alert that follows it. *)
Inductive Logged :=
| fromStopHandler (e : Wav.Event)
| microphoneError
| alert.

(** The recording state of the component, [isRecording] and the two
    refs, with the recorders made so far, the calls of [getUserMedia]
    not yet answered and what was logged. *)
Record Session :=
  { isRecording : bool;
    mediaRecorderRef : option nat;
    audioChunksRef : list (list Z);
    recorders : list Recorder;
    pending : nat;
    log : list Logged }.

Definition idle : Session :=
  {| isRecording := false; mediaRecorderRef := None; audioChunksRef := [];
     recorders := []; pending := 0; log := [] |}.

(** [startRecording()] up to its [await]. *)
Definition startRecording (s : Session) : Session :=
  {| isRecording := isRecording s;
     mediaRecorderRef := mediaRecorderRef s;
     audioChunksRef := audioChunksRef s;
     recorders := recorders s;
     pending := S (pending s);
     log := log s |}.

(** [startRecording] from its [await] on, with the stream granted: the
    new recorder is put in the ref, the chunks are emptied, the
    recorder is started. *)
Definition startRecordingResumed (tracks : list nat) (s : Session)
    : Session :=
  {| isRecording := true;
     mediaRecorderRef := Some (length (recorders s));
     audioChunksRef := [];
     recorders :=
       recorders s
         ++ [{| stream := tracks; isActive := true; stopQueued := false |}];
     pending := pending s;
     log := log s |}.

(** The [catch] block of [startRecording], when the microphone is
    refused. *)
Definition startRecordingRefused (s : Session) : Session :=
  {| isRecording := isRecording s;
     mediaRecorderRef := mediaRecorderRef s;
     audioChunksRef := audioChunksRef s;
     recorders := recorders s;
     pending := pending s;
     log := log s ++ [microphoneError; alert] |}.

(** [recorder.ondataavailable], for the bytes of [e.data]. *)
Definition ondataavailable (data : list Z) (s : Session) : Session :=
  if 0 <? length data then
    {| isRecording := isRecording s;
       mediaRecorderRef := mediaRecorderRef s;
       audioChunksRef := audioChunksRef s ++ [data];
       recorders := recorders s;
       pending := pending s;
       log := log s |}
  else s.

(** [recorder.stop()]: a recorder that records becomes inactive and its
    [stop] event is queued; on an inactive recorder nothing happens. *)
Definition stop (r : Recorder) : Recorder :=
  if isActive r then
    {| stream := stream r; isActive := false; stopQueued := true |}
  else r.

(** [stopRecording()] *)
Definition stopRecording (s : Session) : Session :=
  match mediaRecorderRef s with
  | Some current =>
      if isRecording s then
        {| isRecording := false;
           mediaRecorderRef := mediaRecorderRef s;
           audioChunksRef := audioChunksRef s;
           recorders := alter stop current (recorders s);
           pending := pending s;
           log := log s |}
      else s
  | None => s
  end.

(** [handlePracticeClick()] *)
Definition handlePracticeClick (s : Session) : Session :=
  if isRecording s then stopRecording s else startRecording s.

(** The [stop] event of a recorder: its handler runs with the chunks in
    the ref at that time and the stream of its own call of
    [startRecording]. *)
Definition stopFires (decodeAudioData : list Z -> option AudioBuffer)
    (id : nat) (s : Session) : Session :=
  match recorders s !! id with
  | Some r =>
      if stopQueued r then
        {| isRecording := isRecording s;
           mediaRecorderRef := mediaRecorderRef s;
           audioChunksRef := audioChunksRef s;
           recorders :=
             <[id := {| stream := stream r; isActive := false;
                        stopQueued := false |}]> (recorders s);
           pending := pending s;
           log :=
             log s
               ++ map fromStopHandler
                    (fst (onstop decodeAudioData (audioChunksRef s)
                            (stream r))) |}
      else s
  | None => s
  end.

(** What can happen next. *)
Inductive Event :=
| practiceClicked
| microphoneGranted (tracks : list nat)
| microphoneRefused
| dataAvailable (id : nat) (data : list Z)
| stopEvent (id : nat).

(** The session with one call of [getUserMedia] fewer to answer. *)
Definition answered (n : nat) (s : Session) : Session :=
  {| isRecording := isRecording s;
     mediaRecorderRef := mediaRecorderRef s;
     audioChunksRef := audioChunksRef s;
     recorders := recorders s;
     pending := n;
     log := log s |}.

(** One event.  An answer that no call waits for does not happen; data
    comes from a recorder that records or whose [stop] event is
    queued. *)
Definition step (decodeAudioData : list Z -> option AudioBuffer)
    (s : Session) (e : Event) : Session :=
  match e with
  | practiceClicked => handlePracticeClick s
  | microphoneGranted tracks =>
      match pending s with
      | 0 => s
      | S n => startRecordingResumed tracks (answered n s)
      end
  | microphoneRefused =>
      match pending s with
      | 0 => s
      | S n => startRecordingRefused (answered n s)
      end
  | dataAvailable id data =>
      match recorders s !! id with
      | Some r =>
          if isActive r || stopQueued r then ondataavailable data s else s
      | None => s
      end
  | stopEvent id => stopFires decodeAudioData id s
  end.

Definition run (decodeAudioData : list Z -> option AudioBuffer)
    (s : Session) (events : list Event) : Session :=
  fold_left (step decodeAudioData) events s.

(** The recorder in the ref records whenever the component says it
    records, the ref names a recorder that exists, and no recorder that
    records has its [stop] event queued. *)
Definition coherent (s : Session) : Prop :=
  (isRecording s = true ->
   exists current r,
     mediaRecorderRef s = Some current
     /\ recorders s !! current = Some r
     /\ isActive r = true)
  /\ (forall current, mediaRecorderRef s = Some current ->
                      current < length (recorders s))
  /\ Forall (fun r => isActive r = true -> stopQueued r = false)
       (recorders s).

(** A recorder that records and is not the one in the ref. *)
Definition orphaned (id : nat) (tracks : list nat) (s : Session) : Prop :=
  recorders s !! id
  = Some {| stream := tracks; isActive := true; stopQueued := false |}
  /\ mediaRecorderRef s <> Some id
  /\ forall current, mediaRecorderRef s = Some current ->
                     current < length (recorders s).

(** The chunks a handler keeps. *)
Definition kept (chunks : list (list Z)) : list (list Z) :=
  List.filter (fun data => 0 <? length data) chunks.

End Recording.

(** ** SentencePractice: recording and sending *)

Module Panel.
Import JsString Feedback.

(** A [MediaRecorder] of the panel: whether it records, whether its
    [stop] event is queued, and its [onstop] handler when one is set,
    by what the handler closes over: the [chunks] and the
    [sentenceText] of the render that set it. *)
Record Recorder :=
  { isActive : bool;
    stopQueued : bool;
    onstop : option (list (list Z) * jsstring) }.

(** The body of a request sent to the evaluation service: the bytes of
    the blob and the sentence. *)
Record Posted := { audio : list Z; word : jsstring }.

(** The props and state of the panel that recording reads or writes,
    with the recorders made so far, the calls of [getUserMedia] not yet
    answered, the requests sent and the number of them not yet
    answered. *)
Record State :=
  { sentenceText : jsstring;
    chunks : list (list Z);
    recording : bool;
    result : option Result;
    mediaRecorderRef : option nat;
    recorders : list Recorder;
    pending : nat;
    posted : list Posted;
    awaiting : nat }.

(** [startRecording()] up to its [await]. *)
Definition startRecording (s : State) : State :=
  {| sentenceText := sentenceText s; chunks := chunks s;
     recording := recording s; result := result s;
     mediaRecorderRef := mediaRecorderRef s; recorders := recorders s;
     pending := S (pending s); posted := posted s;
     awaiting := awaiting s |}.

(** [startRecording] from its [await] on, with the stream granted. *)
Definition startRecordingResumed (s : State) : State :=
  {| sentenceText := sentenceText s; chunks := [];
     recording := true; result := None;
     mediaRecorderRef := Some (length (recorders s));
     recorders :=
       recorders s
         ++ [{| isActive := true; stopQueued := false; onstop := None |}];
     pending := pending s; posted := posted s;
     awaiting := awaiting s |}.

(** [recorder.ondataavailable], for the bytes of [e.data]. *)
Definition ondataavailable (data : list Z) (s : State) : State :=
  if 0 <? length data then
    {| sentenceText := sentenceText s; chunks := chunks s ++ [data];
       recording := recording s; result := result s;
       mediaRecorderRef := mediaRecorderRef s; recorders := recorders s;
       pending := pending s; posted := posted s;
     awaiting := awaiting s |}
  else s.

(** [recorder.stop()] followed by the assignment of [onstop]. *)
Definition stopWith (handler : list (list Z) * jsstring) (r : Recorder)
    : Recorder :=
  {| isActive := false;
     stopQueued := isActive r || stopQueued r;
     onstop := Some handler |}.

(** [stopRecording()], a closure of the render [rendered]; without a
    recorder in the ref the call of [stop] throws and nothing is
    done. *)
Definition stopRecording (rendered s : State) : State :=
  match mediaRecorderRef s with
  | Some current =>
      {| sentenceText := sentenceText s; chunks := chunks s;
         recording := false; result := result s;
         mediaRecorderRef := mediaRecorderRef s;
         recorders :=
           alter (stopWith (chunks rendered, sentenceText rendered))
             current (recorders s);
         pending := pending s; posted := posted s;
     awaiting := awaiting s |}
  | None => s
  end.

(** The [stop] event of a recorder: its handler makes the blob of the
    chunks it closed over and sends it with the sentence. *)
Definition stopFires (id : nat) (s : State) : State :=
  match recorders s !! id with
  | Some r =>
      if stopQueued r then
        let sent :=
          match onstop r with
          | Some (closed, text) =>
              [{| audio := concat closed; word := text |}]
          | None => []
          end in
        {| sentenceText := sentenceText s; chunks := chunks s;
           recording := recording s; result := result s;
           mediaRecorderRef := mediaRecorderRef s;
           recorders :=
             <[id := {| isActive := false; stopQueued := false;
                        onstop := onstop r |}]> (recorders s);
           pending := pending s;
           posted := posted s ++ sent;
           awaiting := awaiting s + length sent |}
      else s
  | None => s
  end.

(** The handler from its [await]s on: [setResult(data.result)]. *)
Definition resultArrives (data_result : option Result) (s : State) : State :=
  match awaiting s with
  | 0 => s
  | S n =>
      {| sentenceText := sentenceText s; chunks := chunks s;
         recording := recording s; result := data_result;
         mediaRecorderRef := mediaRecorderRef s; recorders := recorders s;
         pending := pending s; posted := posted s; awaiting := n |}
  end.

(** What can happen next. *)
Inductive Event :=
| startClicked
| microphoneGranted
| dataAvailable (id : nat) (data : list Z)
| stopClicked
| stopEvent (id : nat)
| evaluated (data_result : option Result).

(** One event.  The start button is there while the panel does not
    record and the stop button while it does; a button is the one of
    the last render. *)
Definition step (s : State) (e : Event) : State :=
  match e with
  | startClicked => if recording s then s else startRecording s
  | microphoneGranted =>
      match pending s with
      | 0 => s
      | S n =>
          startRecordingResumed
            {| sentenceText := sentenceText s; chunks := chunks s;
               recording := recording s; result := result s;
               mediaRecorderRef := mediaRecorderRef s;
               recorders := recorders s;
               pending := n; posted := posted s;
               awaiting := awaiting s |}
      end
  | dataAvailable id data =>
      match recorders s !! id with
      | Some r =>
          if isActive r || stopQueued r then ondataavailable data s else s
      | None => s
      end
  | stopClicked => if recording s then stopRecording s s else s
  | stopEvent id => stopFires id s
  | evaluated data_result => resultArrives data_result s
  end.

Definition run (s : State) (events : list Event) : State :=
  fold_left step events s.

(** The chunks a handler keeps. *)
Definition kept (data : list (list Z)) : list (list Z) :=
  List.filter (fun d => 0 <? length d) data.

End Panel.

(** ** The order of the sentences of a page *)

Module Order.
Import JsString JsNumber Segmenter.

(** The last item of a sentence. *)
Definition lastIndex (s : Sentence) : option nat := last (itemIndices s).

(** Every sentence of [out] ends before the item of index [b]. *)
Definition endBefore (b : nat) (out : list Sentence) : Prop :=
  Forall (fun s => forall a, lastIndex s = Some a -> a < b) out.

(** The last items of the sentences come in the order of the
    sentences. *)
Definition byLastIndex (out : list Sentence) : Prop :=
  forall i j si sj a b,
    out !! i = Some si -> out !! j = Some sj -> i < j ->
    lastIndex si = Some a -> lastIndex sj = Some b -> a < b.

(** What holds of the accumulator before the item of index [n]: the
    sentences pushed are in the order of their last items, which all
    come before [n], as the open indices do; and an accumulated text
    that is not blank has a last open index, after the last item of
    every sentence pushed. *)
Record OrderInv (n : nat) (st : Acc) : Prop :=
  { ord_sentences : byLastIndex (allSentences st);
    ord_bound : endBefore n (allSentences st);
    ord_open : Forall (fun k => k < n) (currentItemIndices st);
    ord_current :
      Pages.hasInk (fullText st) = true ->
      exists b, last (currentItemIndices st) = Some b
                /\ endBefore b (allSentences st) }.

(** A blank body line, a heading and a body line. *)
Definition blankLedPage : Page :=
  {| items := [Examples.upright " " 12 600; Examples.upright "Title" 20 580;
               Examples.upright "Hello." 12 560];
     viewportHeight := num 800 |}.

End Order.

(** ** The string operations on small inputs *)

Section StringExamples.
Import JsString.

Example trim_both_ends : trim (js "  a b  ") = js "a b".
Proof. reflexivity. Qed.

Example trim_blank : trim (js "   ") = [].
Proof. reflexivity. Qed.

Example trim_no_break_space : trim [160; 97; 8195; 10]%N = [97]%N.
Proof. reflexivity. Qed.

Example split_double_space : splitSpace (js "a  b") = [js "a"; []; js "b"].
Proof. reflexivity. Qed.

Example split_empty : splitSpace [] = [[]].
Proof. reflexivity. Qed.

Example lower_mixed : lowerLatin1 (js "The CAT.") = js "the cat.".
Proof. reflexivity. Qed.

Example match_two_pieces :
  matchSentences (js "Hi there. Bye") = [js "Hi there."; js " Bye"].
Proof. reflexivity. Qed.

Example match_closing_run :
  matchSentences (js "What?! No.") = [js "What?!"; js " No."].
Proof. reflexivity. Qed.

Example match_leading_terminators :
  matchSentences (js "...and so on ") = [js "and so on "].
Proof. reflexivity. Qed.

Example match_only_terminators : matchSentences (js "?!") = [].
Proof. reflexivity. Qed.

Example match_empty : matchSentences [] = [].
Proof. reflexivity. Qed.

Example serial_markers :
  map isSerialMarker [js "1."; js "a)"; js "(12)"; js "(b."; js "IV."]
  = [true; true; true; true; true].
Proof. reflexivity. Qed.

Example not_serial_markers :
  map isSerialMarker [js "abc."; js "1"; js "."; js "((1)"; js "1.)"; js "a) "]
  = [false; false; false; false; false; false].
Proof. reflexivity. Qed.

End StringExamples.

(** ** Facts on the sentence scanner *)

Section ScanFacts.
Import JsString Shape.

Lemma scan_textOnly cur s :
  textOnly s = true -> scan InText cur s = [cur ++ s].
Proof.
  revert cur; induction s as [|c s IH]; intros cur H; simpl in *.
  - by rewrite app_nil_r.
  - apply andb_prop in H as [Hc Hs].
    apply negb_true_iff in Hc. rewrite Hc, IH by done.
    by rewrite <- app_assoc.
Qed.

Lemma scan_leadingOnly s :
  leadingOnly s = true -> length (scan Outside [] s) <= 1.
Proof.
  induction s as [|c s IH]; simpl; intros H; [lia|].
  destruct (isTerminal c); [auto|].
  rewrite scan_textOnly by done. simpl; lia.
Qed.

Lemma scan_inside_nonempty ph cur s :
  ph <> Outside -> 1 <= length (scan ph cur s).
Proof.
  revert ph cur; induction s as [|c s IH]; intros ph cur Hph; simpl.
  - destruct ph; simpl; [done|lia..].
  - destruct (isTerminal c), ph; try done; simpl; try lia; by apply IH.
Qed.

Lemma endsText_cons c s : s <> [] -> endsText (c :: s) = endsText s.
Proof. by destruct s. Qed.

Lemma scan_close_two cur s :
  endsText s = true -> 2 <= length (scan InClose cur s).
Proof.
  revert cur; induction s as [|c s IH]; intros cur H; [done|].
  simpl. destruct (isTerminal c) eqn:Hc.
  - destruct s as [|d s]; [simpl in H; by rewrite Hc in H|].
    apply IH. by rewrite endsText_cons in H.
  - simpl. pose proof (scan_inside_nonempty InText [c] s ltac:(done)). lia.
Qed.

Lemma endsText_tail c s :
  endsText (c :: s) = true -> endsText s = true \/ s = [].
Proof. destruct s; [by right|by left]. Qed.

Lemma endsText_terminal c s :
  endsText (c :: s) = true -> isTerminal c = true -> endsText s = true.
Proof.
  destruct s; simpl; [|done]. intros H Hc. by rewrite Hc in H.
Qed.

Lemma scan_text_one cur s :
  endsText s = true \/ s = [] ->
  length (scan InText cur s) <= 1 -> textOnly s = true.
Proof.
  revert cur; induction s as [|c s IH]; intros cur H Hlen; [done|].
  destruct H as [H|]; [|done].
  simpl in Hlen |- *. destruct (isTerminal c) eqn:Hc; simpl.
  - pose proof (scan_close_two (cur ++ [c]) s
                  (endsText_terminal _ _ H Hc)). lia.
  - eauto using endsText_tail.
Qed.

Lemma scan_outside_one s :
  endsText s = true ->
  length (scan Outside [] s) <= 1 -> leadingOnly s = true.
Proof.
  induction s as [|c s IH]; intros H Hlen; [done|].
  simpl in Hlen |- *. destruct (isTerminal c) eqn:Hc.
  - eauto using endsText_terminal.
  - eauto using scan_text_one, endsText_tail.
Qed.

Lemma endsText_snoc s c : endsText (s ++ [c]) = negb (isTerminal c).
Proof.
  induction s as [|d s IH]; [done|].
  change ((d :: s) ++ [c]) with (d :: (s ++ [c])).
  rewrite endsText_cons; [done|]. by destruct s.
Qed.

Lemma textOnly_app s t : textOnly (s ++ t) = textOnly s && textOnly t.
Proof. apply forallb_app. Qed.

Lemma leadingOnly_app s t :
  leadingOnly s = true -> textOnly t = true -> leadingOnly (s ++ t) = true.
Proof.
  induction s as [|c s IH]; simpl; intros Hs Ht.
  - destruct t as [|d t]; [done|]. simpl in *.
    apply andb_prop in Ht as [Hd Ht]. apply negb_true_iff in Hd.
    by rewrite Hd.
  - destruct (isTerminal c); [auto|].
    by rewrite textOnly_app, Hs, Ht.
Qed.

Lemma hasTerminal_false s : hasTerminal s = false -> textOnly s = true.
Proof.
  unfold hasTerminal, textOnly. induction s as [|c s IH]; simpl; [done|].
  intros H. apply orb_false_elim in H as [Hc Hs].
  by rewrite Hc, IH.
Qed.

End ScanFacts.

(** ** The accumulator invariant *)

Section SegmenterInvariant.
Import JsString Segmenter Shape.

Lemma increasing_nil : increasing [].
Proof. intros i j a b H. by rewrite lookup_nil in H. Qed.

Lemma increasing_snoc l n :
  increasing l -> Forall (fun k => k < n) l -> increasing (l ++ [n]).
Proof.
  intros Hl Hn i j a b Hi Hj Hij.
  apply lookup_lt_Some in Hj as Hjlen. rewrite length_app in Hjlen.
  simpl in Hjlen.
  rewrite lookup_app_l in Hi by lia.
  destruct (decide (j < length l)) as [Hlt|Hge].
  - rewrite lookup_app_l in Hj by done. eauto.
  - rewrite lookup_app_r in Hj by lia.
    replace (j - length l) with 0 in Hj by lia.
    injection Hj as <-.
    eapply Forall_lookup_1 in Hn; eauto.
Qed.

Lemma increasing_singleton n : increasing [n].
Proof. apply (increasing_snoc [] n); [apply increasing_nil|constructor]. Qed.

Lemma pushPieces_cases raw indices all :
  length raw <= 1 ->
  pushPieces raw indices all = all
  \/ exists t, pushPieces raw indices all =
               all ++ [{| text := t; isMetadata := false;
                          itemIndices := indices |}].
Proof.
  destruct raw as [|s [|]]; simpl; intros H; [by left| |lia].
  destruct (isEmpty (trim s)); [by left|right; eauto].
Qed.

Lemma splitRaw_leadingOnly s :
  leadingOnly s = true -> length (splitRaw s) <= 1.
Proof.
  intros H. apply scan_leadingOnly in H. unfold splitRaw, matchSentences.
  destruct (scan Outside [] s); simpl in *; lia.
Qed.

Lemma splitRaw_one s :
  endsText s = true -> length (splitRaw s) <= 1 -> leadingOnly s = true.
Proof.
  intros He H. apply scan_outside_one; [done|].
  unfold splitRaw, matchSentences in H.
  destruct (scan Outside [] s); simpl in *; lia.
Qed.

Lemma usedIndices_push all s t c :
  usedIndices {| allSentences := all ++ [s]; fullText := t;
                 currentItemIndices := c |}
  = concat (map itemIndices all) ++ itemIndices s ++ c.
Proof.
  unfold usedIndices; simpl.
  by rewrite map_app, concat_app, <- app_assoc; simpl; rewrite app_nil_r.
Qed.

Lemma AccInv_empty : AccInv 0 emptyAcc.
Proof.
  split; simpl; try done; try apply increasing_nil; constructor.
Qed.

Lemma AccInv_skip n st : AccInv n st -> AccInv (S n) st.
Proof.
  intros []. split; try done.
  eapply Forall_impl; [done|]. simpl; lia.
Qed.

(** Closing the accumulator as one sentence, or dropping it. *)
Lemma AccInv_close n st t :
  AccInv n st -> currentItemIndices st <> [] ->
  AccInv n {| allSentences :=
                allSentences st ++
                  [{| text := t; isMetadata := false;
                      itemIndices := currentItemIndices st |}];
              fullText := []; currentItemIndices := [] |}.
Proof.
  intros [] Hne.
  split; simpl; rewrite ?usedIndices_push, ?app_nil_r;
    [|apply increasing_nil|done..].
  apply Forall_app; split; [done|]. by repeat constructor.
Qed.

Lemma AccInv_drop n st :
  AccInv n st ->
  AccInv n {| allSentences := allSentences st;
              fullText := []; currentItemIndices := [] |}.
Proof.
  intros []. unfold usedIndices in *.
  split; unfold usedIndices; simpl; rewrite ?app_nil_r;
    [done|apply increasing_nil| | |done..].
  - by apply Forall_app in inv_bound0 as [].
  - by apply NoDup_app in inv_nodup0 as [].
Qed.

Lemma AccInv_flushBeforeMetadata n st :
  AccInv n st -> AccInv n (flushBeforeMetadata st).
Proof.
  intros H. unfold flushBeforeMetadata.
  destruct (isEmpty (trim (fullText st))) eqn:He; [done|].
  assert (fullText st <> []) as Hne by (intros Hnil; by rewrite Hnil in He).
  destruct (pushPieces_cases (splitRaw (fullText st))
              (currentItemIndices st) (allSentences st)) as [->|[t ->]].
  - apply splitRaw_leadingOnly, H.
  - by apply AccInv_drop.
  - apply AccInv_close; [done|]. by apply H.
Qed.

Lemma AccInv_metadata n st t :
  AccInv n st ->
  AccInv (S n)
    {| allSentences :=
         allSentences st ++
           [{| text := t; isMetadata := true; itemIndices := [n] |}];
       fullText := fullText st;
       currentItemIndices := currentItemIndices st |}.
Proof.
  intros []. split; simpl; [|done| | |done..].
  - apply Forall_app; split; [done|].
    repeat constructor; [done|apply increasing_singleton].
  - rewrite usedIndices_push.
    unfold usedIndices in inv_bound0.
    apply Forall_app in inv_bound0 as [Ha Hc].
    apply Forall_app; split; [|apply Forall_app; split].
    + eapply Forall_impl; [done|]. simpl; lia.
    + repeat constructor.
    + eapply Forall_impl; [done|]. simpl; lia.
  - rewrite usedIndices_push. unfold usedIndices in *.
    assert (n ∉ concat (map itemIndices (allSentences st))
                 ++ currentItemIndices st) as Hn.
    { intros Hin. eapply Forall_forall in inv_bound0; [|done]. lia. }
    simpl. rewrite <- Permutation_middle. by constructor.
Qed.

Lemma AccInv_usedIndices_snoc n st :
  AccInv n st ->
  Forall (fun k => k < S n) (usedIndices st ++ [n])
  /\ NoDup (usedIndices st ++ [n]).
Proof.
  intros []. split.
  - apply Forall_app; split; [|repeat constructor].
    eapply Forall_impl; [done|]. simpl; lia.
  - apply NoDup_app; repeat split; [done| |apply NoDup_singleton].
    intros k Hk ->%list_elem_of_singleton.
    eapply Forall_forall in inv_bound0; [|done]. lia.
Qed.

Lemma AccInv_current_snoc n st :
  AccInv n st -> increasing (currentItemIndices st ++ [n]).
Proof.
  intros []. apply increasing_snoc; [done|].
  unfold usedIndices in inv_bound0.
  by apply Forall_app in inv_bound0 as [].
Qed.

Lemma AccInv_accumulate n st t :
  AccInv n st -> leadingOnly t = true ->
  AccInv (S n)
    {| allSentences := allSentences st; fullText := t;
       currentItemIndices := currentItemIndices st ++ [n] |}.
Proof.
  intros H Ht.
  destruct (AccInv_usedIndices_snoc n st H) as [Hb Hd].
  pose proof (AccInv_current_snoc n st H) as Hc.
  destruct H. unfold usedIndices in *.
  split; unfold usedIndices; simpl; rewrite ?app_assoc; [done..|].
  intros _. by destruct (currentItemIndices st).
Qed.

Lemma AccInv_bodyFlush n st t :
  AccInv n st ->
  AccInv (S n)
    {| allSentences :=
         allSentences st ++
           [{| text := t; isMetadata := false;
               itemIndices := currentItemIndices st ++ [n] |}];
       fullText := []; currentItemIndices := [] |}.
Proof.
  intros H.
  destruct (AccInv_usedIndices_snoc n st H) as [Hb Hd].
  pose proof (AccInv_current_snoc n st H) as Hc.
  destruct H. unfold usedIndices in Hb, Hd.
  split; rewrite ?usedIndices_push; simpl; rewrite ?app_nil_r, ?app_assoc;
    [|apply increasing_nil|done..].
  apply Forall_app; split; [done|].
  repeat constructor; [|done]. by destruct (currentItemIndices st).
Qed.

Lemma AccInv_step p n st item :
  AccInv n st -> AccInv (S n) (step p st item n).
Proof.
  intros H. unfold step.
  destruct (isEmpty (str item)); [by apply AccInv_skip|].
  destruct (itemIsMetadata p item).
  { apply AccInv_metadata. by apply AccInv_flushBeforeMetadata. }
  set (t := fullText st ++ str item ++ js " ").
  assert (endsText t = true) as Het.
  { unfold t. rewrite app_assoc. apply (endsText_snoc _ 32%N). }
  destruct (hasTerminal (str item)) eqn:Hterm; simpl.
  - destruct (bodyFlushes t) eqn:Hflush; [by apply AccInv_bodyFlush|].
    apply AccInv_accumulate; [done|].
    apply splitRaw_one; [done|].
    unfold bodyFlushes in Hflush.
    apply orb_false_elim in Hflush as [Hlen _].
    apply Nat.ltb_ge in Hlen. done.
  - apply AccInv_accumulate; [done|].
    apply leadingOnly_app; [apply H|].
    rewrite textOnly_app. by rewrite hasTerminal_false.
Qed.

Lemma AccInv_forEach p l n st :
  AccInv n st -> AccInv (n + length l) (forEach (step p) l n st).
Proof.
  revert n st; induction l as [|item l IH]; intros n st H; simpl.
  - by rewrite Nat.add_0_r.
  - replace (n + S (length l)) with (S n + length l) by lia.
    apply IH. by apply AccInv_step.
Qed.

Lemma flushAtEnd_cases n st :
  AccInv n st ->
  flushAtEnd st = allSentences st
  \/ exists t, flushAtEnd st =
               allSentences st ++
                 [{| text := t; isMetadata := false;
                     itemIndices := currentItemIndices st |}]
               /\ currentItemIndices st <> [].
Proof.
  intros H. unfold flushAtEnd.
  destruct (isEmpty (trim (fullText st))) eqn:He; [by left|].
  assert (fullText st <> []) as Hne by (intros Hnil; by rewrite Hnil in He).
  destruct (pushPieces_cases (splitRaw (fullText st))
              (currentItemIndices st) (allSentences st)) as [->|[t ->]].
  - apply splitRaw_leadingOnly, H.
  - by left.
  - right. exists t. split; [done|]. by apply H.
Qed.

Lemma elem_of_concat (ls : list (list nat)) l i k :
  ls !! i = Some l -> k ∈ l -> k ∈ concat ls.
Proof.
  intros Hl%list_elem_of_lookup_2 Hk.
  apply list_elem_of_In, in_concat. exists l.
  by split; apply list_elem_of_In.
Qed.

Lemma NoDup_concat_disjoint (ls : list (list nat)) i j a b k :
  NoDup (concat ls) -> ls !! i = Some a -> ls !! j = Some b -> i <> j ->
  k ∈ a -> k ∉ b.
Proof.
  revert i j. induction ls as [|l ls IH]; intros i j Hd Hi Hj Hij Ha Hb.
  { by rewrite lookup_nil in Hi. }
  simpl in Hd. apply NoDup_app in Hd as (_ & Hcross & Hrest).
  destruct i as [|i], j as [|j]; simpl in *; try done.
  - injection Hi as ->. apply (Hcross k Ha). by eapply elem_of_concat.
  - injection Hj as ->. apply (Hcross k Hb). by eapply elem_of_concat.
  - eapply (IH i j); eauto.
Qed.

Lemma segmented_shape p :
  Forall (fun s => itemIndices s <> [] /\ increasing (itemIndices s))
    (onPageLoadSuccess p)
  /\ NoDup (concat (map itemIndices (onPageLoadSuccess p))).
Proof.
  unfold onPageLoadSuccess. destruct (items p) as [|item l] eqn:Hit.
  { split; constructor. }
  rewrite <- Hit.
  pose proof (AccInv_forEach p (items p) 0 emptyAcc AccInv_empty) as H.
  set (st := forEach (step p) (items p) 0 emptyAcc) in *.
  destruct (flushAtEnd_cases _ st H) as [->|(t & -> & Hne)].
  - split; [apply H|]. pose proof (inv_nodup _ _ H) as Hd.
    unfold usedIndices in Hd. by apply NoDup_app in Hd as [].
  - split.
    + apply Forall_app; split; [apply H|].
      repeat constructor; [done|apply H].
    + rewrite map_app, concat_app; simpl. rewrite app_nil_r. apply H.
Qed.

End SegmenterInvariant.

(** C1. Every sentence of a segmented page has a non-empty, strictly
    increasing list of item indices, and no item index occurs in the
    lists of two different sentences. *)
Theorem segmenter_indices_increasing_disjoint (p : Segmenter.Page) :
  Forall (fun s => Segmenter.itemIndices s <> []
                   /\ Shape.increasing (Segmenter.itemIndices s))
    (Segmenter.onPageLoadSuccess p)
  /\ Shape.disjointIndices (Segmenter.onPageLoadSuccess p).
Proof.
  destruct (segmented_shape p) as [Hs Hd]. split; [done|].
  intros i j s1 s2 k Hi Hj Hij.
  apply (NoDup_concat_disjoint _ i j _ _ k Hd); [| |done].
  - by rewrite list_lookup_fmap, Hi.
  - by rewrite list_lookup_fmap, Hj.
Qed.

(** ** Classification of the items *)

Section Classification.
Import JsString JsNumber Segmenter Shape.
Variable p : Page.

Lemma pushPieces_shape raw indices all :
  exists ts,
    pushPieces raw indices all =
    all ++ map (fun t => {| text := t; isMetadata := false;
                            itemIndices := indices |}) ts.
Proof.
  revert all; induction raw as [|s raw IH]; intros all; simpl.
  - exists []. by rewrite app_nil_r.
  - destruct (isEmpty (trim s)); [apply IH|].
    destruct (IH (all ++ [{| text := trim s; isMetadata := false;
                            itemIndices := indices |}])) as [ts ->].
    exists (trim s :: ts). by rewrite <- app_assoc.
Qed.

Lemma justified_mono n s : justified p n s -> justified p (S n) s.
Proof.
  unfold justified. destruct (isMetadata s); [|done].
  intros (k & item & ? & ?). exists k, item. split; [lia|done].
Qed.

Lemma justified_pieces n indices ts all :
  Forall (justified p n) all -> Forall (isBody p) indices ->
  Forall (justified p n)
    (all ++ map (fun t => {| text := t; isMetadata := false;
                             itemIndices := indices |}) ts).
Proof.
  intros Ha Hi. apply Forall_app; split; [done|].
  apply Forall_fmap, Forall_true. by intros t.
Qed.

Lemma ClassInv_empty : ClassInv p 0 emptyAcc.
Proof. split; simpl; [constructor..|]. intros; lia. Qed.

Lemma ClassInv_flushBeforeMetadata n st :
  ClassInv p n st -> ClassInv p n (flushBeforeMetadata st).
Proof.
  intros [Hs Hc Hm]. unfold flushBeforeMetadata.
  destruct (isEmpty (trim (fullText st))); [done|].
  destruct (pushPieces_shape (splitRaw (fullText st))
              (currentItemIndices st) (allSentences st)) as [ts Hts].
  split; simpl; rewrite ?Hts.
  - by apply justified_pieces.
  - constructor.
  - intros k item Hk Hit. apply elem_of_app; left; eauto.
Qed.

Lemma ClassInv_step n st item :
  items p !! n = Some item ->
  ClassInv p n st -> ClassInv p (S n) (step p st item n).
Proof.
  intros Hn H. unfold step.
  destruct (isEmpty (str item)) eqn:He.
  { destruct H as [Hs Hc Hm]. split; [|done|].
    - eapply Forall_impl; [done|apply justified_mono].
    - intros k item' Hk (Hk' & He' & Hmeta).
      destruct (decide (k = n)) as [->|]; [congruence|].
      apply Hm; [lia|done]. }
  destruct (itemIsMetadata p item) eqn:Hmeta.
  { apply ClassInv_flushBeforeMetadata in H as [Hs Hc Hm].
    split; simpl; [|done|].
    - apply Forall_app; split.
      + eapply Forall_impl; [done|apply justified_mono].
      + repeat constructor. exists n, item. repeat split; try done. lia.
    - intros k item' Hk (Hk' & He' & Hmeta').
      destruct (decide (k = n)) as [->|].
      + assert (item' = item) as -> by congruence.
        apply elem_of_app; right. by apply list_elem_of_singleton.
      + apply elem_of_app; left. apply Hm; [lia|done]. }
  assert (isBody p n) as Hbody by (by exists item).
  destruct H as [Hs Hc Hm].
  assert (Forall (isBody p) (currentItemIndices st ++ [n])) as Hc'.
  { apply Forall_app; split; [done|by repeat constructor]. }
  assert (forall k item', k < S n -> isMetadataItem p k item' ->
                          metadataSentence item' k ∈ allSentences st) as Hm'.
  { intros k item' Hk (Hk' & He' & Hmeta').
    destruct (decide (k = n)) as [->|]; [congruence|].
    apply Hm; [lia|done]. }
  assert (Forall (justified p (S n)) (allSentences st)) as Hs'.
  { eapply Forall_impl; [done|apply justified_mono]. }
  destruct (hasTerminal (str item) && bodyFlushes _); [|by split].
  split; simpl.
  - apply Forall_app; split; [done|]. by repeat constructor.
  - constructor.
  - intros k item' Hk Hit. apply elem_of_app; left; eauto.
Qed.

Lemma ClassInv_forEach l n st :
  drop n (items p) = l ->
  ClassInv p n st -> ClassInv p (n + length l) (forEach (step p) l n st).
Proof.
  revert n st; induction l as [|item l IH]; intros n st Hl H; simpl.
  - by rewrite Nat.add_0_r.
  - replace (n + S (length l)) with (S n + length l) by lia.
    assert (items p !! n = Some item) as Hn.
    { rewrite <- (Nat.add_0_r n), <- lookup_drop. by rewrite Hl. }
    apply IH; [|by apply ClassInv_step].
    replace (S n) with (n + 1) by lia. by rewrite <- drop_drop, Hl.
Qed.

(** The sentences of the page are those of the last accumulator, then
    pieces made of its open indices. *)
Lemma onPageLoadSuccess_shape :
  exists st ts,
    ClassInv p (length (items p)) st
    /\ onPageLoadSuccess p =
       allSentences st ++
         map (fun t => {| text := t; isMetadata := false;
                          itemIndices := currentItemIndices st |}) ts.
Proof.
  unfold onPageLoadSuccess. destruct (items p) as [|item l] eqn:Hit.
  { exists emptyAcc, []. split; [|done]. rewrite <- Hit.
    replace (length (items p)) with 0 by (by rewrite Hit).
    apply ClassInv_empty. }
  rewrite <- Hit.
  pose proof (ClassInv_forEach (items p) 0 emptyAcc eq_refl ClassInv_empty)
    as H.
  set (st := forEach (step p) (items p) 0 emptyAcc) in *.
  exists st. unfold flushAtEnd.
  destruct (isEmpty (trim (fullText st))).
  - exists []. split; [done|]. by rewrite app_nil_r.
  - destruct (pushPieces_shape (splitRaw (fullText st))
                (currentItemIndices st) (allSentences st)) as [ts Hts].
    eauto.
Qed.

Lemma onPageLoadSuccess_justified :
  Forall (justified p (length (items p))) (onPageLoadSuccess p)
  /\ forall k item, isMetadataItem p k item ->
                    metadataSentence item k ∈ onPageLoadSuccess p.
Proof.
  destruct onPageLoadSuccess_shape as (st & ts & [Hs Hc Hm] & ->). split.
  - by apply justified_pieces.
  - intros k item Hit. apply elem_of_app; left. apply Hm; [|done].
    destruct Hit as [Hit _]. by apply lookup_lt_Some in Hit.
Qed.

End Classification.

(** ** Statements on the segmenter *)

Section SegmenterStatements.
Import JsString JsNumber Segmenter Shape Examples.

Lemma splitRaw_nonempty s : 1 <= length (splitRaw s).
Proof.
  unfold splitRaw. destruct (matchSentences s); simpl; lia.
Qed.

Lemma bodyFlushes_spec t :
  endsText t = true ->
  bodyFlushes t = negb (leadingOnly t) || endsWithTerminal (trim t).
Proof.
  intros He. unfold bodyFlushes.
  pose proof (splitRaw_nonempty t) as Hge.
  destruct (leadingOnly t) eqn:Hl; simpl.
  - pose proof (splitRaw_leadingOnly t Hl) as Hle.
    replace (length (splitRaw t)) with 1 by lia. done.
  - destruct (1 <? length (splitRaw t)) eqn:Hlt; [done|].
    apply Nat.ltb_ge in Hlt.
    pose proof (splitRaw_one t He Hlt). congruence.
Qed.

End SegmenterStatements.

(** C2 (amended). On a body fragment whose text holds terminal
    punctuation the accumulated text is flushed at once exactly when a
    terminator follows some other character in it or its trimmed form
    ends with a terminator; the flush emits the whole trimmed text as
    one non-metadata sentence carrying the accumulated indices, and
    otherwise the fragment only joins the accumulator.  The fragments
    "The cat sat." and "It was happy!" after a heading give one sentence
    each. *)
Theorem body_terminator_flushes_whole_text :
  (forall (p : Segmenter.Page) (st : Segmenter.Acc)
          (item : Segmenter.TextItem) (idx : nat),
      JsString.isEmpty (Segmenter.str item) = false ->
      Segmenter.itemIsMetadata p item = false ->
      JsString.hasTerminal (Segmenter.str item) = true ->
      let t := Segmenter.fullText st ++ Segmenter.str item
                 ++ JsString.js " " in
      Segmenter.bodyFlushes t =
        negb (Shape.leadingOnly t)
        || JsString.endsWithTerminal (JsString.trim t)
      /\ Segmenter.step p st item idx =
         if Segmenter.bodyFlushes t then
           {| Segmenter.allSentences :=
                Segmenter.allSentences st ++
                  [{| Segmenter.text := JsString.trim t;
                      Segmenter.isMetadata := false;
                      Segmenter.itemIndices :=
                        Segmenter.currentItemIndices st ++ [idx] |}];
              Segmenter.fullText := [];
              Segmenter.currentItemIndices := [] |}
         else
           {| Segmenter.allSentences := Segmenter.allSentences st;
              Segmenter.fullText := t;
              Segmenter.currentItemIndices :=
                Segmenter.currentItemIndices st ++ [idx] |})
  /\ Segmenter.onPageLoadSuccess Examples.chapterPage =
     [{| Segmenter.text := JsString.js "Chapter 1";
         Segmenter.isMetadata := true; Segmenter.itemIndices := [0] |};
      {| Segmenter.text := JsString.js "The cat sat.";
         Segmenter.isMetadata := false; Segmenter.itemIndices := [1] |};
      {| Segmenter.text := JsString.js "It was happy!";
         Segmenter.isMetadata := false; Segmenter.itemIndices := [2] |}].
Proof.
  split; [|by vm_compute].
  intros p st item idx He Hm Ht t. split.
  - apply bodyFlushes_spec. unfold t. rewrite app_assoc.
    apply (endsText_snoc _ 32%N).
  - unfold Segmenter.step. rewrite He, Hm, Ht. simpl. fold t.
    by destruct (Segmenter.bodyFlushes t).
Qed.

Lemma body_terminator_flushes_whole_text_witness :
  Segmenter.step Examples.chapterPage Segmenter.emptyAcc
    (Examples.upright "The cat sat." 12 600) 1
  = {| Segmenter.allSentences :=
         [{| Segmenter.text := JsString.js "The cat sat.";
             Segmenter.isMetadata := false;
             Segmenter.itemIndices := [1] |}];
       Segmenter.fullText := [];
       Segmenter.currentItemIndices := [] |}.
Proof.
  destruct (proj1 body_terminator_flushes_whole_text
              Examples.chapterPage Segmenter.emptyAcc
              (Examples.upright "The cat sat." 12 600) 1)
    as [_ ->]; [vm_compute; reflexivity..|].
  vm_compute; reflexivity.
Defined.

(** C2 as stated fails: a body fragment holding two sentences is
    flushed as one sentence, where splitting at terminal punctuation
    would emit one sentence per piece. *)
Lemma body_flush_not_split_counterexample :
  Segmenter.itemIsMetadata Examples.twoInOnePage Examples.twoInOneItem = false
  /\ JsString.hasTerminal (Segmenter.str Examples.twoInOneItem) = true
  /\ Segmenter.onPageLoadSuccess Examples.twoInOnePage =
     [{| Segmenter.text := JsString.js "The cat sat. It was happy!";
         Segmenter.isMetadata := false; Segmenter.itemIndices := [0] |}]
  /\ Segmenter.allSentences
       (Specified.stepBody Segmenter.emptyAcc Examples.twoInOneItem 0) =
     [{| Segmenter.text := JsString.js "The cat sat.";
         Segmenter.isMetadata := false; Segmenter.itemIndices := [0] |};
      {| Segmenter.text := JsString.js "It was happy!";
         Segmenter.isMetadata := false; Segmenter.itemIndices := [0] |}]
  /\ Segmenter.step Examples.twoInOnePage Segmenter.emptyAcc
       Examples.twoInOneItem 0
     <> Specified.stepBody Segmenter.emptyAcc Examples.twoInOneItem 0.
Proof.
  repeat split; try (vm_compute; reflexivity).
  vm_compute. discriminate.
Qed.

(** C5 (amended). An item is pushed as a metadata sentence exactly when
    its text is not empty and its height exceeds 1.3 times the median
    height (12 standing for a median that is zero or not a number), or
    its trimmed text is a serial marker, or its baseline lies under a
    tenth or over nine tenths of the page height.  Only non-empty items
    that meet none of the three enter a non-metadata sentence, and an
    item with empty text enters no sentence. *)
Theorem classifier_marks_metadata
    (p : Segmenter.Page) (idx : nat) (item : Segmenter.TextItem) :
  Segmenter.items p !! idx = Some item ->
  let median :=
    if JsNumber.isFalsy (Segmenter.middleHeight p) then JsNumber.lit_12
    else Segmenter.middleHeight p in
  let height := JsNumber.abs (Segmenter.at_ (Segmenter.transform item) 3) in
  let y := Segmenter.at_ (Segmenter.transform item) 5 in
  let marked :=
    JsNumber.gt height (JsNumber.mul median JsNumber.lit_1_3)
    || JsString.isSerialMarker (JsString.trim (Segmenter.str item))
    || (JsNumber.lt y
          (JsNumber.mul (Segmenter.viewportHeight p) JsNumber.lit_0_1)
        || JsNumber.gt y
             (JsNumber.mul (Segmenter.viewportHeight p) JsNumber.lit_0_9)) in
  ((exists s, s ∈ Segmenter.onPageLoadSuccess p
              /\ Segmenter.isMetadata s = true
              /\ idx ∈ Segmenter.itemIndices s)
   <-> JsString.isEmpty (Segmenter.str item) = false /\ marked = true)
  /\ (forall s, s ∈ Segmenter.onPageLoadSuccess p ->
                Segmenter.isMetadata s = true ->
                idx ∈ Segmenter.itemIndices s ->
                s = Shape.metadataSentence item idx)
  /\ (forall s, s ∈ Segmenter.onPageLoadSuccess p ->
                Segmenter.isMetadata s = false ->
                idx ∈ Segmenter.itemIndices s ->
                JsString.isEmpty (Segmenter.str item) = false
                /\ marked = false)
  /\ (JsString.isEmpty (Segmenter.str item) = true ->
      forall s, s ∈ Segmenter.onPageLoadSuccess p ->
                idx ∉ Segmenter.itemIndices s).
Proof.
  intros Hit median height y marked.
  change marked with (Segmenter.itemIsMetadata p item).
  destruct (onPageLoadSuccess_justified p) as [Hj Hm].
  assert (forall s, s ∈ Segmenter.onPageLoadSuccess p ->
                    Segmenter.isMetadata s = true ->
                    idx ∈ Segmenter.itemIndices s ->
                    Shape.isMetadataItem p idx item
                    /\ s = Shape.metadataSentence item idx) as Hmeta.
  { intros s Hs Hsm Hidx.
    eapply Forall_forall in Hj; [|done]. unfold Shape.justified in Hj.
    rewrite Hsm in Hj. destruct Hj as (k & item' & _ & Hk & ->).
    simpl in Hidx. apply list_elem_of_singleton in Hidx as ->.
    assert (item' = item) as -> by (destruct Hk; congruence). done. }
  assert (forall s, s ∈ Segmenter.onPageLoadSuccess p ->
                    Segmenter.isMetadata s = false ->
                    idx ∈ Segmenter.itemIndices s ->
                    JsString.isEmpty (Segmenter.str item) = false
                    /\ Segmenter.itemIsMetadata p item = false) as Hbody.
  { intros s Hs Hsm Hidx.
    eapply Forall_forall in Hj; [|done]. unfold Shape.justified in Hj.
    rewrite Hsm in Hj. eapply Forall_forall in Hj; [|done].
    destruct Hj as (item' & Hk & ? & ?).
    assert (item' = item) as -> by congruence. done. }
  split; [split|split; [|split]].
  - intros (s & Hs & Hsm & Hidx).
    by destruct (Hmeta s Hs Hsm Hidx) as [(_ & ? & ?) _].
  - intros [He Hmk]. exists (Shape.metadataSentence item idx).
    split; [by apply Hm|]. split; [done|]. simpl. by left.
  - intros s Hs Hsm Hidx. by destruct (Hmeta s Hs Hsm Hidx).
  - done.
  - intros He s Hs Hidx. destruct (Segmenter.isMetadata s) eqn:Hsm.
    + destruct (Hmeta s Hs Hsm Hidx) as [(_ & ? & _) _]. congruence.
    + destruct (Hbody s Hs Hsm Hidx) as [? _]. congruence.
Qed.

Lemma classifier_marks_metadata_witness :
  exists s, s ∈ Segmenter.onPageLoadSuccess Examples.chapterPage
            /\ Segmenter.isMetadata s = true
            /\ 0 ∈ Segmenter.itemIndices s.
Proof.
  destruct (classifier_marks_metadata Examples.chapterPage 0
              (Examples.upright "Chapter 1" 20 700) eq_refl)
    as [[_ Hmark] _].
  apply Hmark. split; vm_compute; reflexivity.
Defined.

(** C5 as stated fails: on a page whose median height is zero the
    threshold is 1.3 times 12, so an item of height 5 exceeds 1.3 times
    the median and still is body. *)
Lemma classifier_median_fallback_counterexample :
  Segmenter.items Examples.turnedPage !! 2 = Some Examples.smallItem
  /\ Segmenter.middleHeight Examples.turnedPage = S754_zero false
  /\ Specified.exceedsMedian Examples.turnedPage Examples.smallItem = true
  /\ Specified.itemIsMetadata Examples.turnedPage Examples.smallItem = true
  /\ Segmenter.itemIsMetadata Examples.turnedPage Examples.smallItem = false
  /\ Segmenter.onPageLoadSuccess Examples.turnedPage =
     [{| Segmenter.text := JsString.js "Side note Hello";
         Segmenter.isMetadata := false;
         Segmenter.itemIndices := [0; 1; 2] |}].
Proof.
  repeat split; vm_compute; reflexivity.
Qed.

(** ** The reading effect *)

Section SchedulerFacts.
Import JsString JsNumber Segmenter Scheduler.

Lemma skipMetadata_from (sentences rest : list Sentence) n :
  drop n sentences = rest ->
  let j := skipMetadata rest n in
  n <= j
  /\ (forall k sk, n <= k < j -> sentences !! k = Some sk ->
                   isMetadata sk = true)
  /\ (j < length sentences ->
      exists sj, sentences !! j = Some sj /\ isMetadata sj = false)
  /\ (length sentences <= j ->
      forall k sk, n <= k -> sentences !! k = Some sk ->
                   isMetadata sk = true).
Proof.
  revert n; induction rest as [|s rest IH]; intros n Hd; simpl.
  - assert (length sentences <= n) as Hlen.
    { apply (f_equal length) in Hd. rewrite length_drop in Hd.
      simpl in Hd. lia. }
    repeat split; [lia|intros; lia|lia|].
    intros _ k sk Hk Hsk. apply lookup_lt_Some in Hsk. lia.
  - assert (sentences !! n = Some s) as Hn.
    { rewrite <- (Nat.add_0_r n), <- lookup_drop. by rewrite Hd. }
    assert (drop (S n) sentences = rest) as Hd'.
    { replace (S n) with (n + 1) by lia. by rewrite <- drop_drop, Hd. }
    destruct (isMetadata s) eqn:Hs.
    + destruct (IH (S n) Hd') as (Hle & Hrun & Hhit & Hnone).
      repeat split; [lia| |done|].
      * intros k sk Hk Hsk. destruct (decide (k = n)) as [->|].
        -- congruence.
        -- apply (Hrun k); [lia|done].
      * intros Hlen k sk Hk Hsk. destruct (decide (k = n)) as [->|].
        -- congruence.
        -- apply (Hnone Hlen k); [lia|done].
    + repeat split; [lia|intros; lia|by eauto|].
      intros Hlen. apply lookup_lt_Some in Hn. lia.
Qed.

Lemma readingEffect_body r s :
  parentIsReading r = true ->
  localSentences r !! activeSentenceIndex r = Some s ->
  isMetadata s = false ->
  readingEffect r =
  {| calls := [cancel; speak (utteranceOf r s)];
     nextActive := None; cleanup := [cancel] |}.
Proof.
  intros Hp Hs Hm. unfold readingEffect. rewrite Hp, Hs, Hm.
  apply lookup_lt_Some in Hs.
  destruct (localSentences r); [simpl in Hs; lia|done].
Qed.

Lemma readingEffect_metadata r s :
  parentIsReading r = true ->
  localSentences r !! activeSentenceIndex r = Some s ->
  isMetadata s = true ->
  let nextIdx :=
    skipMetadata (drop (activeSentenceIndex r + 1) (localSentences r))
      (activeSentenceIndex r + 1) in
  readingEffect r =
  if nextIdx <? length (localSentences r) then
    {| calls := []; nextActive := Some nextIdx; cleanup := [] |}
  else {| calls := [cancel]; nextActive := None; cleanup := [] |}.
Proof.
  intros Hp Hs Hm. unfold readingEffect. rewrite Hp, Hs, Hm.
  apply lookup_lt_Some in Hs.
  destruct (localSentences r); [simpl in Hs; lia|done].
Qed.

End SchedulerFacts.

(** C4 (amended). While playing with a metadata sentence active, the
    effect passes nothing to the engine; it moves the cursor past the
    whole run of metadata sentences to the first sentence that is not
    metadata, and the utterance then passed to the engine has the text
    of that sentence, the selected voice and the reading rate, and is
    the only one the engine holds.  When no such sentence follows, the
    effect cancels and the engine is left empty, but nothing is
    stopped: the cursor stays where it was and the playing flag, which
    only the parent toggles, stays true. *)
Theorem autoskip_metadata_run (r : Scheduler.Reader) (s : Segmenter.Sentence) :
  Scheduler.parentIsReading r = true ->
  Scheduler.localSentences r !! Scheduler.activeSentenceIndex r = Some s ->
  Segmenter.isMetadata s = true ->
  let i := Scheduler.activeSentenceIndex r in
  let sentences := Scheduler.localSentences r in
  (forall u, Scheduler.speak u ∉ Scheduler.calls (Scheduler.readingEffect r))
  /\ ((exists j sj,
          i < j /\ sentences !! j = Some sj
          /\ Segmenter.isMetadata sj = false
          /\ (forall k sk, i <= k < j -> sentences !! k = Some sk ->
                           Segmenter.isMetadata sk = true)
          /\ forall fuel queue, 2 <= fuel ->
               exists u,
                 Scheduler.settle fuel r =
                   Some ([Scheduler.cancel; Scheduler.speak u],
                         Scheduler.setActiveSentenceIndex (fun _ => j) r)
                 /\ Scheduler.utteranceText u = Segmenter.text sj
                 /\ Scheduler.voice u = Scheduler.selectedVoice r
                 /\ Scheduler.rate u
                    = JsNumber.div (Scheduler.readingSpeed r)
                        JsNumber.lit_120
                 /\ Scheduler.performAll queue
                      [Scheduler.cancel; Scheduler.speak u]
                    = [u])
      \/ ((forall k sk, i <= k -> sentences !! k = Some sk ->
                        Segmenter.isMetadata sk = true)
          /\ forall fuel queue, 1 <= fuel ->
               exists r',
                 Scheduler.settle fuel r = Some ([Scheduler.cancel], r')
                 /\ Scheduler.performAll queue [Scheduler.cancel] = []
                 /\ Scheduler.activeSentenceIndex r' = i
                 /\ Scheduler.parentIsReading r' = true)).
Proof.
  intros Hp Hs Hm i sentences.
  pose proof (readingEffect_metadata r s Hp Hs Hm) as Heff. simpl in Heff.
  destruct (skipMetadata_from sentences _ (i + 1) eq_refl)
    as (Hle & Hrun & Hhit & Hnone).
  fold i sentences in Heff.
  set (j := Scheduler.skipMetadata (drop (i + 1) sentences) (i + 1)) in *.
  assert (forall k sk, i <= k < j -> sentences !! k = Some sk ->
                       Segmenter.isMetadata sk = true) as Hrun'.
  { intros k sk Hk Hsk. destruct (decide (k = i)) as [->|].
    - unfold i, sentences in Hsk. congruence.
    - apply (Hrun k); [lia|done]. }
  destruct (j <? length sentences) eqn:Hj.
  - apply Nat.ltb_lt in Hj. destruct (Hhit Hj) as (sj & Hsj & Hmj).
    split; [intros u Hu; rewrite Heff in Hu; by apply elem_of_nil in Hu|].
    left. exists j, sj.
    split; [lia|]. split; [done|]. split; [done|]. split; [done|].
    intros fuel queue Hfuel.
    exists (Scheduler.utteranceOf r sj).
    split; [|by repeat split].
    destruct fuel as [|[|fuel]]; [lia..|]. simpl Scheduler.settle.
    rewrite Heff. simpl.
    replace (j =? Scheduler.activeSentenceIndex r) with false
      by (symmetry; apply Nat.eqb_neq; unfold i in *; lia).
    by rewrite (readingEffect_body _ sj).
  - apply Nat.ltb_ge in Hj.
    split.
    { intros u Hu. rewrite Heff in Hu.
      apply list_elem_of_singleton in Hu. discriminate. }
    right. split.
    + intros k sk Hk Hsk. destruct (decide (k = i)) as [->|].
      * unfold i, sentences in Hsk. congruence.
      * apply (Hnone Hj k); [lia|done].
    + intros fuel queue Hfuel. exists r. split; [|by repeat split].
      destruct fuel as [|fuel]; [lia|]. simpl. by rewrite Heff.
Qed.

Lemma autoskip_metadata_run_witness :
  exists u,
    Scheduler.settle 2
      (Examples.playing (Segmenter.onPageLoadSuccess Examples.chapterPage) 0)
    = Some ([Scheduler.cancel; Scheduler.speak u],
            Examples.playing
              (Segmenter.onPageLoadSuccess Examples.chapterPage) 1)
    /\ Scheduler.utteranceText u = JsString.js "The cat sat.".
Proof.
  destruct (autoskip_metadata_run
              (Examples.playing
                 (Segmenter.onPageLoadSuccess Examples.chapterPage) 0)
              (Examples.sentence "Chapter 1" true 0))
    as [_ [(j & sj & Hij & Hj & Hm & Hrun & Hsettle)|[Hall _]]];
    [vm_compute; reflexivity..| |].
  - destruct (Hsettle 2 [] (le_n 2)) as (u & Hu & Htext & _).
    exists u. destruct j as [|[|j]]; [lia| |].
    + vm_compute in Hj. injection Hj as <-. split; [exact Hu|exact Htext].
    + specialize (Hrun 1 (Examples.sentence "The cat sat." false 1)).
      assert (false = true) as Habs; [|discriminate Habs].
      apply Hrun; [simpl; lia|vm_compute; reflexivity].
  - specialize (Hall 1 (Examples.sentence "The cat sat." false 1)).
    assert (false = true) as Habs; [|discriminate Habs].
    apply Hall; [simpl; lia|vm_compute; reflexivity].
Defined.

(** C4 as stated fails: on a page of metadata sentences only the effect
    cancels and leaves the state as it was, the playing flag still
    true. *)
Lemma autoskip_without_body_keeps_playing_counterexample :
  Scheduler.settle 2
    (Examples.playing
       [Examples.sentence "Chapter 1" true 0; Examples.sentence "1." true 1]
       0)
  = Some ([Scheduler.cancel],
          Examples.playing
            [Examples.sentence "Chapter 1" true 0;
             Examples.sentence "1." true 1] 0)
  /\ Scheduler.parentIsReading
       (Examples.playing
          [Examples.sentence "Chapter 1" true 0;
           Examples.sentence "1." true 1] 0)
     = true
  /\ Scheduler.parentIsReading
       (Examples.playing
          [Examples.sentence "Chapter 1" true 0;
           Examples.sentence "1." true 1] 0)
     <> false.
Proof.
  repeat split; try (vm_compute; reflexivity). vm_compute. discriminate.
Qed.

(** C3 (amended). While sentence [i] is being spoken, the end of the
    speech moves the cursor to [i + 1] when a sentence follows; at the
    last sentence it changes nothing: the cursor stays and the playing
    flag, which only the parent toggles, stays true. *)
Theorem onend_advances_or_stays (r : Scheduler.Reader) (s : Segmenter.Sentence) :
  Scheduler.parentIsReading r = true ->
  Scheduler.localSentences r !! Scheduler.activeSentenceIndex r = Some s ->
  Segmenter.isMetadata s = false ->
  let i := Scheduler.activeSentenceIndex r in
  let n := length (Scheduler.localSentences r) in
  Scheduler.calls (Scheduler.readingEffect r) =
    [Scheduler.cancel; Scheduler.speak (Scheduler.utteranceOf r s)]
  /\ (i + 1 = n -> Scheduler.onend r r = r)
  /\ (i + 1 < n ->
      Scheduler.onend r r = Scheduler.setActiveSentenceIndex S r
      /\ Scheduler.activeSentenceIndex (Scheduler.onend r r) = S i)
  /\ Scheduler.parentIsReading (Scheduler.onend r r) = true.
Proof.
  intros Hp Hs Hm i n. rewrite (readingEffect_body r s) by done.
  unfold Scheduler.onend. fold i n.
  destruct (Z.of_nat i <? Z.of_nat n - 1)%Z eqn:Hlt.
  - apply Z.ltb_lt in Hlt. repeat split; try done; lia.
  - apply Z.ltb_ge in Hlt. repeat split; try done; lia.
Qed.

Lemma onend_advances_or_stays_witness :
  Scheduler.activeSentenceIndex
    (Scheduler.onend
       (Examples.playing (Segmenter.onPageLoadSuccess Examples.chapterPage) 1)
       (Examples.playing (Segmenter.onPageLoadSuccess Examples.chapterPage) 1))
  = 2.
Proof.
  destruct (onend_advances_or_stays
              (Examples.playing
                 (Segmenter.onPageLoadSuccess Examples.chapterPage) 1)
              (Examples.sentence "The cat sat." false 1))
    as (_ & _ & Hnext & _); [vm_compute; reflexivity..|].
  apply Hnext. vm_compute. lia.
Defined.

(** C3 as stated fails: when the speech of the last sentence ends the
    playing flag is still true. *)
Lemma onend_last_keeps_playing_counterexample :
  Scheduler.activeSentenceIndex Examples.lastSentenceReader + 1
  = length (Scheduler.localSentences Examples.lastSentenceReader)
  /\ Scheduler.calls (Scheduler.readingEffect Examples.lastSentenceReader) =
     [Scheduler.cancel;
      Scheduler.speak
        (Scheduler.utteranceOf Examples.lastSentenceReader
           (Examples.sentence "The end." false 0))]
  /\ Scheduler.onend Examples.lastSentenceReader Examples.lastSentenceReader
     = Examples.lastSentenceReader
  /\ Scheduler.parentIsReading
       (Scheduler.onend Examples.lastSentenceReader
          Examples.lastSentenceReader) = true
  /\ Scheduler.parentIsReading
       (Scheduler.onend Examples.lastSentenceReader
          Examples.lastSentenceReader) <> false.
Proof.
  repeat split; try (vm_compute; reflexivity). vm_compute. discriminate.
Qed.

(** ** The WAV encoder *)

Section WavFacts.
Import JsString Wav Layout.
#[local] Open Scope Z_scope.

Lemma encodeWav_header samples sampleRate :
  encodeWav samples sampleRate =
  writeSamples 44 samples
    (header (length samples) sampleRate
       ++ replicate (length samples * 2) 0).
Proof. reflexivity. Qed.

Example encodeWav_three_samples :
  encodeWav [Finite (1 # 2); Finite (-1 # 2); Finite 3] 16000 =
  Some [82; 73; 70; 70; 42; 0; 0; 0; 87; 65; 86; 69; 102; 109; 116; 32;
        16; 0; 0; 0; 1; 0; 1; 0; 128; 62; 0; 0; 0; 125; 0; 0; 2; 0; 16; 0;
        100; 97; 116; 97; 6; 0; 0; 0; 255; 63; 0; 192; 255; 127].
Proof. reflexivity. Qed.

Example toInt16_truncates :
  map (fun x => toInt16 (scale (clamp x)))
    [Finite (1 # 2); Finite (-1 # 2); Finite (-3); PlusInfinity;
     MinusInfinity; NotANumber; Finite (1 # 100000)]
  = [16383; -16384; -32768; 32767; -32768; 0; 0].
Proof. reflexivity. Qed.

Lemma setInt16_at_end (pre rest : list Z) (x : sample) :
  setInt16 (length pre) x (pre ++ 0 :: 0 :: rest) =
  Some (pre ++ le16 (toInt16 x mod 65536) ++ rest).
Proof.
  unfold setInt16, setUint16.
  replace (length pre + 2 <=? length (pre ++ 0%Z :: 0%Z :: rest))%nat
    with true
    by (symmetry; apply Nat.leb_le; rewrite length_app; simpl; lia).
  f_equal.
  rewrite (insert_app_r_alt pre) by lia.
  rewrite (insert_app_r_alt pre) by (rewrite ?length_insert; lia).
  replace (length pre - length pre)%nat with 0%nat by lia.
  replace (length pre + 1 - length pre)%nat with 1%nat by lia.
  done.
Qed.

Lemma writeSamples_spec samples (pre : list Z) :
  writeSamples (length pre) samples
    (pre ++ replicate (length samples * 2) 0) =
  Some (pre ++ flat_map sampleBytes samples).
Proof.
  revert pre; induction samples as [|x samples IH]; intros pre; simpl.
  - done.
  - rewrite setInt16_at_end. simpl.
    specialize (IH (pre ++ sampleBytes x)).
    rewrite length_app in IH. simpl in IH.
    rewrite <- app_assoc in IH. simpl in IH.
    unfold sampleBytes, le16 in *. simpl. rewrite IH.
    by rewrite <- app_assoc.
Qed.

Lemma encodeWav_bytes samples sampleRate :
  encodeWav samples sampleRate =
  Some (header (length samples) sampleRate ++ flat_map sampleBytes samples).
Proof.
  rewrite encodeWav_header.
  apply (writeSamples_spec samples (header (length samples) sampleRate)).
Qed.

Lemma le32_value v :
  0 <= v < 4294967296 ->
  v mod 256 + 256 * ((v / 256) mod 256) + 65536 * ((v / 65536) mod 256)
  + 16777216 * ((v / 16777216) mod 256) = v.
Proof. intros Hv. Z.div_mod_to_equations. lia. Qed.

Lemma le16_signed v :
  -32768 <= v <= 32767 ->
  let u := (v mod 65536) mod 256 + 256 * (((v mod 65536) / 256) mod 256) in
  (if u <? 32768 then u else u - 65536) = v.
Proof.
  intros Hv u. destruct (u <? 32768) eqn:Hu.
  - apply Z.ltb_lt in Hu. unfold u in *. Z.div_mod_to_equations. lia.
  - apply Z.ltb_ge in Hu. unfold u in *. Z.div_mod_to_equations. lia.
Qed.

Lemma toInt16_range x : -32768 <= toInt16 x <= 32767.
Proof. destruct x; simpl; Z.div_mod_to_equations; lia. Qed.

Lemma flat_map_sampleBytes_lookup samples i x :
  samples !! i = Some x ->
  flat_map sampleBytes samples !! (2 * i)%nat
    = Some ((toInt16 (scale (clamp x)) mod 65536) mod 256)
  /\ flat_map sampleBytes samples !! (2 * i + 1)%nat
     = Some (((toInt16 (scale (clamp x)) mod 65536) / 256) mod 256).
Proof.
  revert i; induction samples as [|y samples IH]; intros i Hi.
  { by rewrite lookup_nil in Hi. }
  destruct i as [|i]; simpl in Hi.
  - injection Hi as ->. done.
  - destruct (IH i Hi) as [H0 H1].
    replace (2 * S i)%nat with (S (S (2 * i))) by lia.
    replace (S (S (2 * i)) + 1)%nat with (S (S (2 * i + 1))) by lia.
    done.
Qed.

Lemma getInt16_sample samples sampleRate i x :
  samples !! i = Some x ->
  getInt16 (44 + 2 * i)
    (header (length samples) sampleRate ++ flat_map sampleBytes samples)
  = Some (toInt16 (scale (clamp x))).
Proof.
  intros Hi. destruct (flat_map_sampleBytes_lookup samples i x Hi) as [H0 H1].
  unfold getInt16, getUint16.
  rewrite (lookup_app_r (header _ _)) by (simpl; lia).
  rewrite (lookup_app_r (header _ _)) by (simpl; lia).
  replace (44 + 2 * i - length (header (length samples) sampleRate))%nat
    with (2 * i)%nat by (simpl; lia).
  replace (44 + 2 * i + 1 - length (header (length samples) sampleRate))%nat
    with (2 * i + 1)%nat by (simpl; lia).
  rewrite H0, H1. simpl. f_equal.
  apply le16_signed, toInt16_range.
Qed.

(** Clamping and scaling on the rationals. *)

Lemma Qltb_lt a b : Qltb a b = true <-> (a < b)%Q.
Proof.
  unfold Qltb. rewrite negb_true_iff.
  destruct (Qle_bool b a) eqn:H.
  - apply Qle_bool_iff in H. split; [done|]. intros Hlt.
    exfalso. by apply (Qlt_not_le a b).
  - split; [|done]. intros _. apply Qnot_le_lt. intros Hle.
    apply Qle_bool_iff in Hle. congruence.
Qed.

Lemma Qltb_ge a b : Qltb a b = false <-> (b <= a)%Q.
Proof.
  unfold Qltb. rewrite negb_false_iff. apply Qle_bool_iff.
Qed.

Lemma clamp_cases x :
  (exists q, clamp x = Finite q /\ (-1 <= q <= 1)%Q)
  \/ (clamp x = NotANumber /\ x = NotANumber).
Proof.
  destruct x as [q| | |]; unfold clamp; simpl.
  - left. destruct (Qltb 1 q) eqn:H1; simpl.
    + exists 1%Q. by split.
    + apply Qltb_ge in H1. destruct (Qltb q (-1)) eqn:H2.
      * exists (-1)%Q. by split.
      * apply Qltb_ge in H2. exists q. by split.
  - left. exists 1%Q. by split.
  - left. exists (-1)%Q. by split.
  - by right.
Qed.

Lemma truncate_bounds (q : Q) (a b : Z) :
  a <= 0 <= b -> (inject_Z a <= q <= inject_Z b)%Q -> a <= truncate q <= b.
Proof.
  destruct q as [num den]. unfold Qle, truncate; simpl.
  intros Hab [Ha Hb].
  Z.to_euclidean_division_equations. nia.
Qed.

Lemma toInt16_exact (q : Q) :
  (-32768 <= q <= 32767)%Q -> toInt16 (Finite q) = truncate q.
Proof.
  intros Hq.
  pose proof (truncate_bounds q (-32768) 32767 ltac:(lia) Hq).
  unfold toInt16. Z.div_mod_to_equations. lia.
Qed.

End WavFacts.

Section RecorderFacts.
Import JsString Wav Layout.

Lemma stopAll_events tracks :
  stopAll tracks = (map trackStop tracks, Returned tt).
Proof.
  induction tracks as [|track tracks IH]; simpl; [done|].
  by rewrite IH.
Qed.

Lemma convertToWav_decoded decodeAudioData blob audioBuffer :
  decodeAudioData (blobBytes blob) = Some audioBuffer ->
  convertToWav decodeAudioData blob =
  ([], Returned
         {| blobType := "audio/wav";
            blobBytes :=
              header (length (channel0 audioBuffer)) 16000
                ++ flat_map sampleBytes (channel0 audioBuffer) |}).
Proof.
  intros Hd. unfold convertToWav. by rewrite Hd, encodeWav_bytes.
Qed.

End RecorderFacts.

(** C8. The stop handler ends normally and stops every track of the
    stream, whether the conversion succeeds or the decoding fails; when
    the decoding fails the caller receives the recorded WebM blob, and
    otherwise the WAV blob. *)
Theorem onstop_releases_microphone
    (decodeAudioData : list Z -> option Wav.AudioBuffer)
    (audioChunks : list (list Z)) (streamTracks : list nat) :
  let webmBlob :=
    {| Wav.blobType := "audio/webm";
       Wav.blobBytes := concat audioChunks |} in
  let events := fst (Wav.onstop decodeAudioData audioChunks streamTracks) in
  snd (Wav.onstop decodeAudioData audioChunks streamTracks)
    = Wav.Returned tt
  /\ (forall track, track ∈ streamTracks -> Wav.trackStop track ∈ events)
  /\ match decodeAudioData (concat audioChunks) with
     | None =>
         events =
           [Wav.consoleLog; Wav.consoleError Wav.DecodeError;
            Wav.onPractice webmBlob]
             ++ map Wav.trackStop streamTracks
     | Some audioBuffer =>
         exists wavBuffer,
           Wav.encodeWav (Wav.channel0 audioBuffer) 16000
             = Some wavBuffer
           /\ events =
              [Wav.consoleLog;
               Wav.onPractice {| Wav.blobType := "audio/wav";
                                 Wav.blobBytes := wavBuffer |}]
                ++ map Wav.trackStop streamTracks
     end.
Proof.
  intros webmBlob events. unfold events, Wav.onstop.
  rewrite stopAll_events. fold webmBlob.
  destruct (decodeAudioData (concat audioChunks)) as [audioBuffer|] eqn:Hd.
  - rewrite (convertToWav_decoded _ webmBlob audioBuffer Hd). simpl.
    split; [done|]. split.
    + intros track Ht. rewrite !elem_of_cons. do 2 right.
      by apply list_elem_of_fmap_2.
    + eexists. split; [apply encodeWav_bytes|done].
  - unfold Wav.convertToWav. simpl. rewrite Hd. simpl.
    split; [done|]. split; [|done].
    intros track Ht. rewrite !elem_of_cons. do 3 right.
    by apply list_elem_of_fmap_2.
Qed.

(** ** SentencePractice *)

Section PracticeFacts.
Import JsString JsNumber Practice.

(** The order of binary64 against a positive finite constant: a value
    under [c1] is not at or over a constant [c2] of the same exponent
    and a mantissa at least as large. *)
Lemma lt_then_not_ge (score : number) (m1 m2 : positive) (e : Z) :
  (m1 <= m2)%positive ->
  lt score (S754_finite false m1 e) = true ->
  ge score (S754_finite false m2 e) = false.
Proof.
  intros Hm. unfold lt, ge, SFltb, SFleb.
  destruct score as [s|s| |s m e']; simpl; try done.
  - by destruct s.
  - destruct s; [done|].
    rewrite (Z.compare_antisym e' e).
    destruct (Z.compare_spec e' e) as [->|Hlt|Hgt]; simpl; try done.
    fold (Pos.compare m m1). fold (Pos.compare m2 m).
    destruct (Pos.compare_spec m m1) as [->|Hlt|Hgt]; try done.
    intros _. destruct (Pos.compare_spec m2 m); try done; lia.
Qed.

Lemma getEncouragement_great score :
  ge score lit_0_85 = true -> getEncouragement score = greatJob.
Proof. intros H. unfold getEncouragement. by rewrite H. Qed.

Lemma getEncouragement_nice score :
  ge score lit_0_65 = true -> lt score lit_0_85 = true ->
  getEncouragement score = niceEffort.
Proof.
  intros H65 H85. unfold getEncouragement.
  assert (ge score lit_0_85 = false) as ->
    by exact (lt_then_not_ge score _ _ _ (Pos.le_refl _) H85).
  by rewrite H65.
Qed.

Lemma getEncouragement_good score :
  lt score lit_0_65 = true -> getEncouragement score = goodTry.
Proof.
  intros H65. unfold getEncouragement.
  assert (ge score lit_0_65 = false) as ->
    by exact (lt_then_not_ge score _ _ _ (Pos.le_refl _) H65).
  assert (ge score lit_0_85 = false) as ->; [|done].
  apply (lt_then_not_ge score 5854679515581645 7656119366529843 (-53));
    [by vm_compute|exact H65].
Qed.

End PracticeFacts.

(** C9. The message is a function of the score alone: every score at or
    over 0.85 gets the Excellent message, every score at or over 0.65
    and under 0.85 the Close message, every score under 0.65 the
    NeedsWork message; the three messages differ; 0.9, 0.7 and 0.4 get
    them in this order. *)
Theorem encouragement_tiers :
  (forall score, JsNumber.ge score JsNumber.lit_0_85 = true ->
                 Practice.getEncouragement score = Practice.greatJob)
  /\ (forall score, JsNumber.ge score JsNumber.lit_0_65 = true ->
                    JsNumber.lt score JsNumber.lit_0_85 = true ->
                    Practice.getEncouragement score = Practice.niceEffort)
  /\ (forall score, JsNumber.lt score JsNumber.lit_0_65 = true ->
                    Practice.getEncouragement score = Practice.goodTry)
  /\ (Practice.greatJob <> Practice.niceEffort
      /\ Practice.niceEffort <> Practice.goodTry
      /\ Practice.greatJob <> Practice.goodTry)
  /\ Practice.getEncouragement JsNumber.lit_0_9 = Practice.greatJob
  /\ Practice.getEncouragement JsNumber.lit_0_7 = Practice.niceEffort
  /\ Practice.getEncouragement JsNumber.lit_0_4 = Practice.goodTry.
Proof.
  split; [apply getEncouragement_great|].
  split; [apply getEncouragement_nice|].
  split; [apply getEncouragement_good|].
  by repeat split.
Qed.

Lemma encouragement_tiers_witness :
  Practice.getEncouragement (JsNumber.num 0.75) = Practice.niceEffort.
Proof.
  apply (proj1 (proj2 encouragement_tiers)); vm_compute; reflexivity.
Defined.

(** C6 (amended). The expected text and the transcript are lower-cased
    and split at every single space, with no punctuation stripped; the
    map has one entry per expected word, and entry [i] is correct
    exactly when the transcript has a word [i] equal to it.  This holds
    of every text, whatever the engine's case table does outside
    Latin-1.  Expected "the cat sat" against spoken "the cat sad" gives
    true, true, false. *)
Theorem positional_word_map
    (toLowerCase : JsString.jsstring -> JsString.jsstring)
    (expected spoken : JsString.jsstring) :
  JsString.agreesOnLatin1 toLowerCase ->
  let exp := JsString.splitSpace (toLowerCase expected) in
  let spk := JsString.splitSpace (toLowerCase spoken) in
  let result := Practice.getWordMatchMap toLowerCase expected (Some spoken) in
  length result = length exp
  /\ (forall i m, result !! i = Some m ->
        exp !! i = Some (Practice.word m)
        /\ (Practice.correct m = true <-> spk !! i = Some (Practice.word m)))
  /\ (forall i w, exp !! i = Some w ->
        result !! i
        = Some {| Practice.word := w;
                  Practice.correct := bool_decide (spk !! i = Some w) |})
  /\ map Practice.correct
       (Practice.getWordMatchMap toLowerCase (JsString.js "the cat sat")
          (Some (JsString.js "the cat sad")))
     = [true; true; false].
Proof.
  intros Hlow exp spk result. split; [apply length_imap|].
  split; [|split].
  - intros i m Hm. unfold result, Practice.getWordMatchMap in Hm.
    fold exp spk in Hm. rewrite list_lookup_imap in Hm.
    destruct (exp !! i) as [w|] eqn:Hw; [|done]. simpl in Hm.
    injection Hm as <-. simpl. split; [done|]. apply bool_decide_eq_true.
  - intros i w Hw. unfold result, Practice.getWordMatchMap.
    fold exp spk. by rewrite list_lookup_imap, Hw.
  - unfold Practice.getWordMatchMap.
    rewrite !Hlow by reflexivity. reflexivity.
Qed.

Lemma positional_word_map_witness :
  map Practice.correct
    (Practice.getWordMatchMap JsString.lowerLatin1 (JsString.js "the cat sat")
       (Some (JsString.js "the cat sad")))
  = [true; true; false].
Proof.
  apply (proj2 (proj2 (proj2
           (positional_word_map JsString.lowerLatin1
              (JsString.js "the cat sat") (JsString.js "the cat sad")
              (fun s _ => eq_refl))))).
Defined.

(** C6 as stated fails: punctuation is not stripped, so the last word
    of "The cat sat." is not matched by "sat". *)
Lemma positional_keeps_punctuation_counterexample :
  map Practice.correct
    (Practice.getWordMatchMap JsString.lowerLatin1
       (JsString.js "The cat sat.") (Some (JsString.js "the cat sat")))
  = [true; true; false]
  /\ Specified.positional JsString.lowerLatin1
       (JsString.js "The cat sat.") (JsString.js "the cat sat")
     = [true; true; true]
  /\ map Practice.correct
       (Practice.getWordMatchMap JsString.lowerLatin1
          (JsString.js "The cat sat.") (Some (JsString.js "the cat sat")))
     <> Specified.positional JsString.lowerLatin1
          (JsString.js "The cat sat.") (JsString.js "the cat sat").
Proof.
  repeat split; try (vm_compute; reflexivity). vm_compute. discriminate.
Qed.


(** ** Trimming *)

Section TrimFacts.
Import JsString Shape Pages.

Lemma isTerminal_ink c : isTerminal c = true -> isWhiteSpace c = false.
Proof.
  unfold isTerminal. intros H.
  apply orb_prop in H as [H|H]; [apply orb_prop in H as [H|H]|];
    apply N.eqb_eq in H; by subst.
Qed.

Lemma hasInk_app s t : hasInk (s ++ t) = hasInk s || hasInk t.
Proof. apply existsb_app. Qed.

Lemma hasInk_rev s : hasInk (rev s) = hasInk s.
Proof.
  induction s as [|c s IH]; [done|]. simpl.
  rewrite hasInk_app, IH. simpl. rewrite orb_false_r. apply orb_comm.
Qed.

Lemma hasInk_trimStart s : hasInk (trimStart s) = hasInk s.
Proof.
  induction s as [|c s IH]; [done|]. simpl.
  destruct (isWhiteSpace c) eqn:Hc; simpl; [done|by rewrite Hc].
Qed.

Lemma hasInk_trim s : hasInk (trim s) = hasInk s.
Proof.
  unfold trim, trimEnd.
  by rewrite hasInk_rev, hasInk_trimStart, hasInk_rev, hasInk_trimStart.
Qed.

Lemma trimStart_blank s : hasInk s = false -> trimStart s = [].
Proof.
  induction s as [|c s IH]; [done|]. simpl. intros H.
  apply orb_false_elim in H as [Hc Hs]. apply negb_false_iff in Hc.
  rewrite Hc. auto.
Qed.

(** [s.trim()] is empty exactly when [s] is blank. *)
Lemma isEmpty_trim s : isEmpty (trim s) = negb (hasInk s).
Proof.
  destruct (hasInk s) eqn:H; simpl.
  - rewrite <- hasInk_trim in H.
    destruct (trim s) as [|c t]; [discriminate H|done].
  - unfold trim, trimEnd. rewrite (trimStart_blank s) by done. done.
Qed.

Lemma trimStart_ink c s : isWhiteSpace c = false -> trimStart (c :: s) = c :: s.
Proof. intros H. simpl. by rewrite H. Qed.

Lemma trimStart_app_blank w s :
  hasInk w = false -> trimStart (w ++ s) = trimStart s.
Proof.
  induction w as [|c w IH]; [done|]. simpl. intros H.
  apply orb_false_elim in H as [Hc Hw]. apply negb_false_iff in Hc.
  rewrite Hc. auto.
Qed.

Lemma hasTerminal_ink s : hasTerminal s = true -> hasInk s = true.
Proof.
  unfold hasTerminal, hasInk. induction s as [|c s IH]; [done|]. simpl.
  intros H. apply orb_prop in H as [H|H].
  - by rewrite (isTerminal_ink c H).
  - rewrite IH by done. apply orb_true_r.
Qed.

Lemma hasTerminal_app s t : hasTerminal (s ++ t) = hasTerminal s || hasTerminal t.
Proof. apply existsb_app. Qed.

Lemma textOnly_hasTerminal s : textOnly s = true -> hasTerminal s = false.
Proof.
  unfold hasTerminal, textOnly. induction s as [|c s IH]; [done|]. simpl.
  intros H. apply andb_prop in H as [Hc Hs]. apply negb_true_iff in Hc.
  by rewrite Hc, IH.
Qed.

Lemma textPart_textOnly s : textOnly s = true -> textPart s = s.
Proof.
  destruct s as [|c s]; [done|]. simpl. intros H.
  apply andb_prop in H as [Hc _]. apply negb_true_iff in Hc. by rewrite Hc.
Qed.

(** A text whose terminators all lead and whose rest is blank ends,
    once trimmed, with a terminator. *)
Lemma endsWithTerminal_leading s :
  leadingOnly s = true -> hasTerminal s = true ->
  hasInk (textPart s) = false ->
  endsWithTerminal (trim s) = true.
Proof.
  intros Hl Ht Hw.
  assert (exists t, s = t ++ textPart s /\ t <> []
                    /\ forallb isTerminal t = true) as (t & Hs & Hne & Hall).
  { clear Hw. induction s as [|c s IH]; [done|]. simpl in *.
    destruct (isTerminal c) eqn:Hc.
    - destruct (hasTerminal s) eqn:Hts.
      + destruct (IH Hl eq_refl) as (t & Hs & _ & Hall).
        exists (c :: t). simpl. rewrite Hc, Hall. by rewrite <- Hs.
      + exists [c]. simpl. rewrite Hc.
        rewrite textPart_textOnly by (by apply hasTerminal_false). done.
    - apply textOnly_hasTerminal in Hl. by rewrite Hl in Ht. }
  set (w := textPart s) in *.
  unfold endsWithTerminal, trim, trimEnd. rewrite rev_involutive.
  destruct t as [|c t]; [done|].
  assert (isWhiteSpace c = false) as Hc.
  { simpl in Hall. apply andb_prop in Hall as [Hc _].
    by apply isTerminal_ink. }
  rewrite Hs. simpl app. rewrite trimStart_ink by done.
  change (c :: t ++ w) with ((c :: t) ++ w).
  rewrite rev_app_distr, trimStart_app_blank by (by rewrite hasInk_rev).
  destruct (rev (c :: t)) as [|d r] eqn:Hr.
  { apply (f_equal length) in Hr. rewrite length_rev in Hr. done. }
  assert (isTerminal d = true) as Hd.
  { assert (In d (c :: t)) as Hin.
    { apply in_rev. rewrite Hr. by left. }
    rewrite forallb_forall in Hall. by apply Hall. }
  rewrite trimStart_ink by (by apply isTerminal_ink). done.
Qed.

End TrimFacts.

(** ** What a segmented page holds *)

Section PageFacts.
Import JsString Segmenter Shape Pages.
Variable p : Page.

Lemma forEach_items (Inv : nat -> Acc -> Prop) :
  Inv 0 emptyAcc ->
  (forall n st item,
      items p !! n = Some item -> Inv n st -> Inv (S n) (step p st item n)) ->
  Inv (length (items p)) (forEach (step p) (items p) 0 emptyAcc).
Proof.
  intros H0 Hstep.
  assert (forall l n st, drop n (items p) = l -> Inv n st ->
                         Inv (n + length l) (forEach (step p) l n st)) as H.
  { induction l as [|item l IH]; intros n st Hl Hn; simpl.
    - by rewrite Nat.add_0_r.
    - replace (n + S (length l)) with (S n + length l) by lia.
      assert (items p !! n = Some item) as Hit.
      { rewrite <- (Nat.add_0_r n), <- lookup_drop. by rewrite Hl. }
      apply IH; [|by apply Hstep].
      replace (S n) with (n + 1) by lia. by rewrite <- drop_drop, Hl. }
  apply (H (items p) 0 emptyAcc eq_refl H0).
Qed.

Lemma splitRaw_textPart s :
  leadingOnly s = true -> textPart s <> [] -> splitRaw s = [textPart s].
Proof.
  intros Hl Hne.
  assert (matchSentences s = [textPart s]) as Hm.
  { unfold matchSentences. induction s as [|c s IH]; [done|]. simpl in *.
    destruct (isTerminal c); [auto|].
    by rewrite scan_textOnly. }
  unfold splitRaw. by rewrite Hm.
Qed.

Lemma flush_one_piece s indices all :
  leadingOnly s = true -> hasInk (textPart s) = true ->
  pushPieces (splitRaw s) indices all =
  all ++ [{| text := trim (textPart s); isMetadata := false;
             itemIndices := indices |}].
Proof.
  intros Hl Hink. rewrite splitRaw_textPart; [|done|].
  - simpl. by rewrite isEmpty_trim, Hink.
  - intros Hnil. by rewrite Hnil in Hink.
Qed.

Lemma blank_textOnly s : hasInk s = false -> textOnly s = true.
Proof.
  unfold hasInk, textOnly. induction s as [|c s IH]; [done|]. simpl.
  intros H. apply orb_false_elim in H as [Hc Hs].
  apply negb_false_iff in Hc.
  destruct (isTerminal c) eqn:Ht.
  - apply isTerminal_ink in Ht. congruence.
  - simpl. auto.
Qed.

Lemma textPart_app s t :
  textPart s <> [] -> textPart (s ++ t) = textPart s ++ t.
Proof.
  induction s as [|c s IH]; [done|]. simpl.
  destruct (isTerminal c); auto.
Qed.

Lemma joined_snoc indices n item :
  items p !! n = Some item ->
  joined p (indices ++ [n]) = joined p indices ++ str item ++ js " ".
Proof.
  intros Hn. unfold joined. rewrite flat_map_app. simpl.
  by rewrite Hn, app_nil_r.
Qed.

Lemma joined_ink indices k item :
  k ∈ indices -> items p !! k = Some item -> hasInk (str item) = true ->
  hasInk (joined p indices) = true.
Proof.
  induction indices as [|j indices IH]; intros Hk Hit Hink.
  { by apply elem_of_nil in Hk. }
  unfold joined. simpl. rewrite hasInk_app.
  apply elem_of_cons in Hk as [<-|Hk].
  - by rewrite Hit, hasInk_app, Hink.
  - fold (joined p indices). rewrite (IH Hk Hit Hink). apply orb_true_r.
Qed.

Lemma CoverInv_empty : CoverInv p 0 emptyAcc.
Proof.
  split; simpl; [apply AccInv_empty|done|intros; lia|done|constructor].
Qed.

Lemma CoverInv_flushBeforeMetadata n st :
  CoverInv p n st -> CoverInv p n (flushBeforeMetadata st).
Proof.
  intros H. pose proof (AccInv_flushBeforeMetadata n st (cov_acc _ _ _ H))
    as Hacc.
  unfold flushBeforeMetadata in *. rewrite isEmpty_trim in *.
  destruct (hasInk (fullText st)) eqn:Hink; simpl in *; [|done].
  destruct H as [Ha Ht Hb Hp Hs].
  rewrite flush_one_piece in * by (auto; apply Ha).
  split; simpl; [done|done| |done|].
  - intros k Hk Hbody. rewrite usedIndices_push. simpl.
    rewrite app_nil_r. by apply Hb.
  - apply Forall_app; split; [done|]. apply Forall_singleton.
    intros _. simpl. split.
    + by rewrite isEmpty_trim, Hp.
    + right. by rewrite Ht.
Qed.

Lemma CoverInv_step n st item :
  items p !! n = Some item ->
  CoverInv p n st -> CoverInv p (S n) (step p st item n).
Proof.
  intros Hn H.
  pose proof (AccInv_step p n st item (cov_acc _ _ _ H)) as Hacc.
  unfold step in *.
  destruct (isEmpty (str item)) eqn:He.
  { destruct H as [Ha Ht Hb Hp Hs]. split; try done.
    intros k Hk Hbody. pose proof Hbody as (item' & Hk' & He' & _).
    destruct (decide (k = n)) as [->|]; [congruence|].
    apply Hb; [lia|done]. }
  destruct (itemIsMetadata p item) eqn:Hmeta.
  { apply CoverInv_flushBeforeMetadata in H.
    destruct H as [Ha Ht Hb Hp Hs]. split; simpl; [done|done| |done|].
    - intros k Hk Hbody. rewrite usedIndices_push. simpl.
      destruct (decide (k = n)) as [->|].
      + destruct Hbody as (item' & Hk' & _ & Hbm). congruence.
      + assert (k ∈ usedIndices (flushBeforeMetadata st)) as Hin
          by (apply Hb; [lia|done]).
        unfold usedIndices in Hin. rewrite !elem_of_app in *.
        destruct Hin; [by left|right; by right].
    - apply Forall_app; split; [done|]. apply Forall_singleton.
      intros Hm. simpl in Hm. discriminate Hm. }
  destruct H as [Ha Ht Hb Hp Hs].
  set (t := fullText st ++ str item ++ js " ") in *.
  assert (t = joined p (currentItemIndices st ++ [n])) as Ht'.
  { unfold t. by rewrite (joined_snoc _ n item), Ht. }
  assert (forall k, k < S n -> isBody p k ->
                    k ∈ usedIndices st ++ [n]) as Hb'.
  { intros k Hk Hbody. apply elem_of_app.
    destruct (decide (k = n)) as [->|]; [right; by left|].
    left. apply Hb; [lia|done]. }
  assert (endsText t = true) as Het.
  { unfold t. rewrite app_assoc. apply (endsText_snoc _ 32%N). }
  destruct (hasTerminal (str item)) eqn:Hterm; simpl in *.
  - destruct (bodyFlushes t) eqn:Hflush.
    + split; simpl; [done|done| |done|].
      * intros k Hk Hbody. rewrite usedIndices_push. simpl.
        rewrite app_nil_r, app_assoc. by apply Hb'.
      * apply Forall_app; split; [done|]. apply Forall_singleton.
        intros _. simpl. split.
        -- rewrite isEmpty_trim. unfold t.
           by rewrite !hasInk_app, (hasTerminal_ink _ Hterm), orb_true_r.
        -- left. by rewrite Ht'.
    + rewrite bodyFlushes_spec in Hflush by done.
      apply orb_false_elim in Hflush as [Hlead Hend].
      apply negb_false_iff in Hlead.
      split; simpl; [done|done| | |done].
      * intros k Hk Hbody. unfold usedIndices. simpl.
        rewrite app_assoc. by apply Hb'.
      * intros _. destruct (hasInk (textPart t)) eqn:Hink; [done|].
        rewrite endsWithTerminal_leading in Hend; [done|done| |done].
        unfold t. by rewrite !hasTerminal_app, Hterm, orb_true_r.
  - split; simpl; [done|done| | |done].
    + intros k Hk Hbody. unfold usedIndices. simpl.
      rewrite app_assoc. by apply Hb'.
    + intros Hink. destruct (hasInk (fullText st)) eqn:Hold.
      * specialize (Hp eq_refl). unfold t.
        rewrite textPart_app by (intros Hnil; by rewrite Hnil in Hp).
        by rewrite hasInk_app, Hp.
      * rewrite textPart_textOnly; [done|].
        unfold t. rewrite !textOnly_app.
        by rewrite (blank_textOnly _ Hold), (hasTerminal_false _ Hterm).
Qed.

Lemma CoverInv_items :
  CoverInv p (length (items p)) (forEach (step p) (items p) 0 emptyAcc).
Proof.
  apply (forEach_items (CoverInv p)); [apply CoverInv_empty|].
  intros n st item. apply CoverInv_step.
Qed.

(** The sentences of the page, from the accumulator the loop ends
    with. *)
Lemma onPageLoadSuccess_cover :
  items p <> [] ->
  let st := forEach (step p) (items p) 0 emptyAcc in
  CoverInv p (length (items p)) st
  /\ onPageLoadSuccess p =
     if hasInk (fullText st) then
       allSentences st ++
         [{| text := trim (textPart (fullText st)); isMetadata := false;
             itemIndices := currentItemIndices st |}]
     else allSentences st.
Proof.
  intros Hne st. pose proof CoverInv_items as H. fold st in H.
  split; [done|].
  assert (onPageLoadSuccess p = flushAtEnd st) as ->.
  { unfold onPageLoadSuccess, st. by destruct (items p). }
  unfold flushAtEnd. rewrite isEmpty_trim.
  destruct (hasInk (fullText st)) eqn:Hink; simpl; [|done].
  destruct H as [Ha Ht Hb Hp Hs].
  apply flush_one_piece; [apply Ha|auto].
Qed.

Lemma step_metadata st item n :
  List.filter isMetadata (allSentences (step p st item n)) =
  List.filter isMetadata (allSentences st)
  ++ (if negb (isEmpty (str item)) && itemIsMetadata p item
      then [metadataSentence item n] else []).
Proof.
  assert (forall raw indices all,
             List.filter isMetadata (pushPieces raw indices all)
             = List.filter isMetadata all) as Hpush.
  { intros raw indices all.
    destruct (pushPieces_shape raw indices all) as [ts ->].
    rewrite List.filter_app.
    assert (List.filter isMetadata
              (map (fun t => {| text := t; isMetadata := false;
                                itemIndices := indices |}) ts) = []) as ->.
    { induction ts; [done|]. simpl. done. }
    by rewrite app_nil_r. }
  unfold step. destruct (isEmpty (str item)); simpl.
  { by rewrite app_nil_r. }
  destruct (itemIsMetadata p item); simpl.
  - rewrite List.filter_app. simpl. f_equal.
    unfold flushBeforeMetadata.
    destruct (isEmpty (trim (fullText st))); [done|]. simpl. apply Hpush.
  - destruct (hasTerminal (str item) && bodyFlushes _); simpl.
    + rewrite List.filter_app. simpl. done.
    + by rewrite app_nil_r.
Qed.

Lemma forEach_metadata l n st :
  List.filter isMetadata (allSentences (forEach (step p) l n st)) =
  List.filter isMetadata (allSentences st) ++ metadataFrom p l n.
Proof.
  revert n st; induction l as [|item l IH]; intros n st; simpl.
  - by rewrite app_nil_r.
  - by rewrite IH, step_metadata, <- app_assoc.
Qed.

Lemma elem_of_concat_inv (ls : list (list nat)) k :
  k ∈ concat ls -> exists l, l ∈ ls /\ k ∈ l.
Proof.
  intros Hk. apply list_elem_of_In, in_concat in Hk as (l & Hl & Hk).
  exists l. by split; apply list_elem_of_In.
Qed.

End PageFacts.

Section PageStatements.
Import JsString Segmenter Shape Pages.

Lemma filter_metadata_pieces raw indices all :
  List.filter isMetadata (pushPieces raw indices all)
  = List.filter isMetadata all.
Proof.
  destruct (pushPieces_shape raw indices all) as [ts ->].
  rewrite List.filter_app.
  assert (List.filter isMetadata
            (map (fun t => {| text := t; isMetadata := false;
                              itemIndices := indices |}) ts) = []) as ->.
  { by induction ts. }
  by rewrite app_nil_r.
Qed.

Lemma filter_all_metadata (l : list Sentence) :
  Forall (fun s => isMetadata s = true) l -> List.filter isMetadata l = l.
Proof.
  induction 1 as [|s l Hs Hl IH]; [done|]. simpl. by rewrite Hs, IH.
Qed.

End PageStatements.

(** X1. The metadata sentences of a page are those of its non-empty
    metadata items, one for each, in the order of the items; each has
    the trimmed text of its item and the index of its item alone. *)
Theorem metadata_sentences_in_page_order (p : Segmenter.Page) :
  List.filter Segmenter.isMetadata (Segmenter.onPageLoadSuccess p)
  = Pages.metadataFrom p (Segmenter.items p) 0.
Proof.
  unfold Segmenter.onPageLoadSuccess.
  destruct (Segmenter.items p) as [|item l] eqn:Hit; [done|].
  rewrite <- Hit. unfold Segmenter.flushAtEnd.
  destruct (JsString.isEmpty _); rewrite ?filter_metadata_pieces;
    by rewrite forEach_metadata.
Qed.

(** X2. On a page where every item is empty or metadata, the sentences
    are the metadata sentences of the items and nothing else: no
    sentence that is not metadata is produced. *)
Theorem page_without_body_items (p : Segmenter.Page) :
  (forall k item, Segmenter.items p !! k = Some item ->
                  JsString.isEmpty (Segmenter.str item) = true
                  \/ Segmenter.itemIsMetadata p item = true) ->
  Segmenter.onPageLoadSuccess p
  = Pages.metadataFrom p (Segmenter.items p) 0.
Proof.
  intros Hall.
  rewrite <- (filter_all_metadata (Segmenter.onPageLoadSuccess p)).
  { unfold Segmenter.onPageLoadSuccess.
    destruct (Segmenter.items p) as [|item l] eqn:Hit; [done|].
    rewrite <- Hit. unfold Segmenter.flushAtEnd.
    destruct (JsString.isEmpty _); rewrite ?filter_metadata_pieces;
      by rewrite forEach_metadata. }
  destruct (segmented_shape p) as [Hshape _].
  destruct (onPageLoadSuccess_justified p) as [Hj _].
  apply Forall_forall. intros s Hs.
  destruct (Segmenter.isMetadata s) eqn:Hm; [done|].
  eapply Forall_forall in Hshape as [Hne _]; [|done].
  eapply Forall_forall in Hj; [|done]. unfold Shape.justified in Hj.
  rewrite Hm in Hj.
  destruct (Segmenter.itemIndices s) as [|k ks]; [done|].
  apply Forall_cons in Hj as [(item & Hk & He & Hb) _].
  destruct (Hall k item Hk); congruence.
Qed.

Lemma page_without_body_items_witness :
  Segmenter.onPageLoadSuccess
    {| Segmenter.items := [Examples.upright "Chapter 1" 20 700;
                           Examples.upright "1." 12 600;
                           Examples.upright "" 12 580;
                           Examples.upright "Page 3" 12 20];
       Segmenter.viewportHeight := JsNumber.num 800 |}
  = [Examples.sentence "Chapter 1" true 0; Examples.sentence "1." true 1;
     Examples.sentence "Page 3" true 3].
Proof.
  rewrite page_without_body_items; [vm_compute; reflexivity|].
  intros [|[|[|[|k]]]] item Hk; simpl in Hk; try discriminate Hk;
    injection Hk as <-; vm_compute; auto.
Defined.

(** X3. A sentence that is not metadata never has an empty text: its
    text is the texts of its items, each followed by a space, trimmed,
    either whole or without the terminators they begin with. *)
Theorem body_sentence_text (p : Segmenter.Page) (s : Segmenter.Sentence) :
  s ∈ Segmenter.onPageLoadSuccess p ->
  Segmenter.isMetadata s = false ->
  JsString.isEmpty (Segmenter.text s) = false
  /\ (Segmenter.text s
      = JsString.trim (Pages.joined p (Segmenter.itemIndices s))
      \/ Segmenter.text s
         = JsString.trim
             (Pages.textPart (Pages.joined p (Segmenter.itemIndices s)))).
Proof.
  intros Hs Hm.
  destruct (Segmenter.items p) as [|item l] eqn:Hit.
  { unfold Segmenter.onPageLoadSuccess in Hs. rewrite Hit in Hs.
    by apply elem_of_nil in Hs. }
  destruct (onPageLoadSuccess_cover p) as [[Ha Ht Hb Hp Hsent] Hout].
  { by rewrite Hit. }
  rewrite Hout in Hs. clear Hout.
  set (st := Segmenter.forEach (Segmenter.step p) (Segmenter.items p) 0
               Segmenter.emptyAcc) in *.
  assert (s ∈ Segmenter.allSentences st -> Pages.bodyText p s) as Hold.
  { intros Hin. eapply Forall_forall in Hsent; done. }
  destruct (Pages.hasInk (Segmenter.fullText st)) eqn:Hink.
  - apply elem_of_app in Hs as [Hs|Hs]; [by apply Hold|].
    apply list_elem_of_singleton in Hs as ->. simpl. split.
    + by rewrite isEmpty_trim, Hp.
    + right. by rewrite Ht.
  - by apply Hold.
Qed.

Lemma body_sentence_text_witness :
  JsString.isEmpty (JsString.js "The cat sat.") = false
  /\ (JsString.js "The cat sat."
      = JsString.trim (Pages.joined Examples.chapterPage [1])
      \/ JsString.js "The cat sat."
         = JsString.trim
             (Pages.textPart (Pages.joined Examples.chapterPage [1]))).
Proof.
  apply (body_sentence_text Examples.chapterPage
           (Examples.sentence "The cat sat." false 1)); [|reflexivity].
  apply list_elem_of_In. vm_compute. right. left. reflexivity.
Defined.

Lemma inked_body_item_sentence
    (p : Segmenter.Page) (idx : nat) (item : Segmenter.TextItem) :
  Segmenter.items p !! idx = Some item ->
  Segmenter.itemIsMetadata p item = false ->
  Pages.hasInk (Segmenter.str item) = true ->
  exists s, s ∈ Segmenter.onPageLoadSuccess p
            /\ Segmenter.isMetadata s = false
            /\ idx ∈ Segmenter.itemIndices s.
Proof.
  intros Hit Hmeta Hink.
  assert (JsString.isEmpty (Segmenter.str item) = false) as He.
  { destruct (Segmenter.str item); [discriminate Hink|done]. }
  assert (Shape.isBody p idx) as Hbody by (by exists item).
  destruct (onPageLoadSuccess_cover p) as [[Ha Ht Hb Hp Hsent] Hout].
  { intros Hnil. by rewrite Hnil in Hit. }
  set (st := Segmenter.forEach (Segmenter.step p) (Segmenter.items p) 0
               Segmenter.emptyAcc) in *.
  assert (idx ∈ Shape.usedIndices st) as Hused.
  { apply Hb; [|done]. by apply lookup_lt_Some in Hit. }
  assert (exists s, s ∈ Segmenter.onPageLoadSuccess p
                    /\ idx ∈ Segmenter.itemIndices s) as (s & Hs & Hidx).
  { unfold Shape.usedIndices in Hused.
    apply elem_of_app in Hused as [Hused|Hused].
    - apply elem_of_concat_inv in Hused as (l & Hl & Hk).
      apply list_elem_of_fmap in Hl as (s & -> & Hs).
      exists s. split; [|done]. rewrite Hout.
      destruct (Pages.hasInk (Segmenter.fullText st));
        [apply elem_of_app; by left|done].
    - assert (Pages.hasInk (Segmenter.fullText st) = true) as Hfull.
      { rewrite Ht. by apply (joined_ink p _ idx item). }
      rewrite Hout, Hfull. eexists. split.
      + apply elem_of_app. right. by apply list_elem_of_singleton.
      + done. }
  exists s. split; [done|]. split; [|done].
  destruct (Segmenter.isMetadata s) eqn:Hm; [|done].
  destruct (onPageLoadSuccess_justified p) as [Hj _].
  eapply Forall_forall in Hj; [|done]. unfold Shape.justified in Hj.
  rewrite Hm in Hj. destruct Hj as (k & item' & _ & (Hk & _ & Hmk) & ->).
  simpl in Hidx. apply list_elem_of_singleton in Hidx as ->. congruence.
Qed.

(** X4. No readable body text is lost or read twice: an item that is
    not metadata and whose text is not blank belongs to exactly one
    sentence of the page, and that sentence is not metadata. *)
Theorem inked_body_item_is_segmented
    (p : Segmenter.Page) (idx : nat) (item : Segmenter.TextItem) :
  Segmenter.items p !! idx = Some item ->
  Segmenter.itemIsMetadata p item = false ->
  Pages.hasInk (Segmenter.str item) = true ->
  exists i s,
    Segmenter.onPageLoadSuccess p !! i = Some s
    /\ Segmenter.isMetadata s = false
    /\ idx ∈ Segmenter.itemIndices s
    /\ forall j s', Segmenter.onPageLoadSuccess p !! j = Some s' ->
                    idx ∈ Segmenter.itemIndices s' -> j = i.
Proof.
  intros Hit Hmeta Hink.
  destruct (inked_body_item_sentence p idx item Hit Hmeta Hink)
    as (s & Hs & Hsm & Hidx).
  apply list_elem_of_lookup_1 in Hs as [i Hs].
  exists i, s. split; [done|]. split; [done|]. split; [done|].
  intros j s' Hs' Hidx'.
  destruct (decide (j = i)) as [|Hne]; [done|]. exfalso.
  destruct (segmented_shape p) as [_ Hd].
  apply (NoDup_concat_disjoint _ i j (Segmenter.itemIndices s)
           (Segmenter.itemIndices s') idx Hd);
    [by rewrite list_lookup_fmap, Hs|by rewrite list_lookup_fmap, Hs'
    |congruence|done|done].
Qed.

Lemma inked_body_item_is_segmented_witness :
  exists i s,
    Segmenter.onPageLoadSuccess Examples.turnedPage !! i = Some s
    /\ Segmenter.isMetadata s = false
    /\ 1 ∈ Segmenter.itemIndices s
    /\ forall j s', Segmenter.onPageLoadSuccess Examples.turnedPage !! j
                    = Some s' ->
                    1 ∈ Segmenter.itemIndices s' -> j = i.
Proof.
  apply (inked_body_item_is_segmented Examples.turnedPage 1
           (Examples.turned "note" 12 500)); vm_compute; reflexivity.
Defined.

(** ** Playing to the end of the page *)

Section ReadingFacts.
Import JsString Segmenter Scheduler Navigation.

Lemma setActiveSentenceIndex_same r :
  setActiveSentenceIndex (fun _ => activeSentenceIndex r) r = r.
Proof. by destruct r. Qed.

Lemma settle_step fuel r :
  settle (S fuel) r =
  match nextActive (readingEffect r) with
  | None => Some (calls (readingEffect r), r)
  | Some j =>
      if j =? activeSentenceIndex r then Some (calls (readingEffect r), r)
      else
        match settle fuel (setActiveSentenceIndex (fun _ => j) r) with
        | Some (cs, r') =>
            Some (calls (readingEffect r) ++ cleanup (readingEffect r) ++ cs,
                  r')
        | None => None
        end
  end.
Proof. reflexivity. Qed.

Lemma findBody_Some rest n j :
  findBody rest n = Some j ->
  exists pre sj post,
    rest = pre ++ sj :: post
    /\ Forall (fun s => isMetadata s = true) pre
    /\ isMetadata sj = false
    /\ j = n + length pre.
Proof.
  revert n; induction rest as [|s rest IH]; intros n H; [done|].
  simpl in H. destruct (isMetadata s) eqn:Hs.
  - destruct (IH _ H) as (pre & sj & post & -> & Hpre & Hsj & ->).
    exists (s :: pre), sj, post. repeat split; [by constructor|done|].
    simpl. lia.
  - injection H as <-. exists [], s, rest. repeat split; [constructor|done|].
    simpl. lia.
Qed.

Lemma findBody_None rest n :
  findBody rest n = None -> Forall (fun s => isMetadata s = true) rest.
Proof.
  revert n; induction rest as [|s rest IH]; intros n H; [constructor|].
  simpl in H. destruct (isMetadata s) eqn:Hs; [|done].
  constructor; eauto.
Qed.

Lemma skipMetadata_findBody rest n :
  skipMetadata rest n =
  match findBody rest n with
  | Some j => j
  | None => n + length rest
  end.
Proof.
  revert n; induction rest as [|s rest IH]; intros n; simpl; [lia|].
  destruct (isMetadata s); [|done]. rewrite IH.
  destruct (findBody rest (S n)); lia.
Qed.

Lemma filter_bodies_metadata (l : list Sentence) :
  Forall (fun s => isMetadata s = true) l ->
  List.filter (fun s => negb (isMetadata s)) l = [].
Proof. induction 1 as [|s l Hs Hl IH]; [done|]. simpl. by rewrite Hs. Qed.

(** When no sentence that is not metadata lies at or after the cursor,
    the commits speak nothing and leave the engine empty. *)
Lemma settle_silent r :
  nextBody (localSentences r) (activeSentenceIndex r) = None ->
  exists cs, settle 2 r = Some (cs, r)
             /\ spokenTexts cs = [] /\ performAll [] cs = [].
Proof.
  intros Hnone. unfold nextBody in Hnone. rewrite settle_step.
  unfold readingEffect.
  destruct (parentIsReading r && (0 <? length (localSentences r))) eqn:Hp;
    [|by exists [cancel]].
  destruct (localSentences r !! activeSentenceIndex r) as [s|] eqn:Hs;
    [|by exists []].
  rewrite (drop_S _ _ _ Hs) in Hnone. simpl in Hnone.
  destruct (isMetadata s); [|done].
  rewrite skipMetadata_findBody.
  replace (activeSentenceIndex r + 1) with (S (activeSentenceIndex r)) by lia.
  rewrite Hnone, length_drop.
  apply lookup_lt_Some in Hs.
  replace (S (activeSentenceIndex r)
           + (length (localSentences r) - S (activeSentenceIndex r))
           <? length (localSentences r)) with false
    by (symmetry; apply Nat.ltb_ge; lia).
  by exists [cancel].
Qed.

(** Otherwise they end on the first such sentence and speak it. *)
Lemma settle_speaks r j sj :
  parentIsReading r = true ->
  nextBody (localSentences r) (activeSentenceIndex r) = Some j ->
  localSentences r !! j = Some sj ->
  settle 2 r =
  Some ([cancel; speak (utteranceOf r sj)],
        setActiveSentenceIndex (fun _ => j) r).
Proof.
  intros Hp Hj Hsj. unfold nextBody in Hj.
  destruct (localSentences r !! activeSentenceIndex r) as [s|] eqn:Hs.
  2:{ apply lookup_ge_None in Hs. rewrite drop_ge in Hj by done. done. }
  rewrite (drop_S _ _ _ Hs) in Hj. simpl in Hj.
  destruct (isMetadata s) eqn:Hm.
  - pose proof (readingEffect_metadata r s Hp Hs Hm) as Heff. simpl in Heff.
    rewrite skipMetadata_findBody in Heff.
    replace (activeSentenceIndex r + 1) with (S (activeSentenceIndex r))
      in Heff by lia.
    rewrite Hj in Heff.
    apply lookup_lt_Some in Hsj as Hlt. apply Nat.ltb_lt in Hlt.
    rewrite Hlt in Heff.
    apply findBody_Some in Hj as (pre & sj' & post & Hrest & _ & Hmj & ->).
    assert (sj' = sj) as ->.
    { assert (drop (S (activeSentenceIndex r)) (localSentences r)
                !! length pre = Some sj') as Hl
        by (rewrite Hrest; apply list_lookup_middle; done).
      rewrite lookup_drop in Hl. congruence. }
    rewrite settle_step, Heff. cbn [nextActive calls cleanup].
    destruct (Nat.eqb_spec (S (activeSentenceIndex r) + length pre)
                (activeSentenceIndex r)) as [Heq|_]; [lia|].
    rewrite settle_step, (readingEffect_body _ sj);
      [reflexivity|exact Hp|exact Hsj|exact Hmj].
  - injection Hj as <-. assert (s = sj) as -> by congruence.
    rewrite settle_step, (readingEffect_body r sj) by done.
    cbn [nextActive calls]. by rewrite setActiveSentenceIndex_same.
Qed.

Lemma bodies_from_cursor (l : list Sentence) i j sj :
  nextBody l i = Some j -> l !! j = Some sj ->
  List.filter (fun s => negb (isMetadata s)) (drop i l)
  = sj :: List.filter (fun s => negb (isMetadata s)) (drop (S j) l)
  /\ i <= j.
Proof.
  intros Hj Hsj. unfold nextBody in Hj.
  apply findBody_Some in Hj as (pre & sj' & post & Hrest & Hpre & Hmj & ->).
  assert (drop i l !! length pre = Some sj') as Hl
    by (rewrite Hrest; apply list_lookup_middle; done).
  rewrite lookup_drop in Hl. assert (sj' = sj) as -> by congruence.
  split; [|lia].
  assert (drop (S (i + length pre)) l = post) as ->.
  { replace (S (i + length pre)) with (i + S (length pre)) by lia.
    rewrite <- drop_drop, Hrest.
    rewrite drop_app_ge by lia.
    replace (S (length pre) - length pre) with 1 by lia. done. }
  rewrite Hrest, List.filter_app, (filter_bodies_metadata pre Hpre).
  simpl. by rewrite Hmj.
Qed.

Lemma spokenTexts_app cs cs' :
  spokenTexts (cs ++ cs') = spokenTexts cs ++ spokenTexts cs'.
Proof. apply omap_app. Qed.

Lemma playThrough_step fuel r :
  playThrough (S fuel) r =
  match settle 2 r with
  | None => None
  | Some (cs, r1) =>
      match performAll [] cs with
      | [] => Some (cs, r1)
      | _ :: _ =>
          if activeSentenceIndex (onend r1 r1) =? activeSentenceIndex r1
          then Some (cs, r1)
          else
            match playThrough fuel (onend r1 r1) with
            | Some (cs', r') =>
                Some (cs ++ cleanup (readingEffect r1) ++ cs', r')
            | None => None
            end
      end
  end.
Proof. reflexivity. Qed.

Lemma playThrough_spoken fuel r :
  parentIsReading r = true ->
  length (localSentences r) - activeSentenceIndex r < fuel ->
  exists cs r',
    playThrough fuel r = Some (cs, r')
    /\ spokenTexts cs =
       map text
         (List.filter (fun s => negb (isMetadata s))
            (drop (activeSentenceIndex r) (localSentences r)))
    /\ localSentences r' = localSentences r
    /\ parentIsReading r' = true.
Proof.
  revert r; induction fuel as [|fuel IH]; intros r Hp Hfuel; [lia|].
  rewrite playThrough_step.
  destruct (nextBody (localSentences r) (activeSentenceIndex r))
    as [j|] eqn:Hnext.
  - assert (exists sj, localSentences r !! j = Some sj) as [sj Hsj].
    { unfold nextBody in Hnext.
      apply findBody_Some in Hnext as (pre & sj & post & Hrest & _ & _ & ->).
      exists sj. rewrite <- lookup_drop, Hrest.
      by apply list_lookup_middle. }
    destruct (bodies_from_cursor _ _ _ _ Hnext Hsj) as [Hbodies Hij].
    rewrite (settle_speaks r j sj Hp Hnext Hsj).
    cbn [performAll fold_left perform app].
    set (r1 := setActiveSentenceIndex (fun _ => j) r).
    assert (readingEffect r1 =
            {| calls := [cancel; speak (utteranceOf r1 sj)];
               nextActive := None; cleanup := [cancel] |}) as Heff.
    { apply readingEffect_body; [done|done|].
      unfold nextBody in Hnext.
      apply findBody_Some in Hnext as (pre & sj' & post & Hrest & _ & Hm & ->).
      assert (drop (activeSentenceIndex r) (localSentences r) !! length pre
              = Some sj') as Hl
        by (rewrite Hrest; apply list_lookup_middle; done).
      rewrite lookup_drop in Hl. congruence. }
    unfold onend. simpl activeSentenceIndex. simpl localSentences.
    apply lookup_lt_Some in Hsj as Hjlen.
    destruct (Z.of_nat j <? Z.of_nat (length (localSentences r)) - 1)%Z
      eqn:Hlast.
    + apply Z.ltb_lt in Hlast.
      change (activeSentenceIndex (setActiveSentenceIndex S r1)) with (S j).
      destruct (Nat.eqb_spec (S j) j) as [Heq|_]; [lia|].
      destruct (IH (setActiveSentenceIndex S r1))
        as (cs' & r' & -> & Hsp & Hl & Hr); [done|simpl; lia|].
      rewrite Heff. cbn [cleanup].
      exists ([cancel; speak (utteranceOf r sj)] ++ [cancel] ++ cs'), r'.
      split; [done|]. split; [|done].
      rewrite !spokenTexts_app, Hsp, Hbodies. done.
    + apply Z.ltb_ge in Hlast.
      change (activeSentenceIndex r1) with j. rewrite Nat.eqb_refl.
      exists [cancel; speak (utteranceOf r sj)], r1.
      split; [done|]. split; [|done].
      rewrite Hbodies, drop_ge by lia. done.
  - destruct (settle_silent r Hnext) as (cs & -> & Hsp & ->).
    exists cs, r. split; [done|]. split; [|done].
    rewrite Hsp. unfold nextBody in Hnext.
    by rewrite (filter_bodies_metadata _ (findBody_None _ _ Hnext)).
Qed.

End ReadingFacts.

Section NavigationFacts.
Import JsString Segmenter Scheduler Navigation.

Lemma settle_not_reading r :
  parentIsReading r = false -> settle 2 r = Some ([cancel], r).
Proof.
  intros Hp. rewrite settle_step. unfold readingEffect. by rewrite Hp.
Qed.

Lemma settle_in_range r cs r' :
  settle 2 r = Some (cs, r') ->
  activeSentenceIndex r < length (localSentences r) ->
  activeSentenceIndex r' < length (localSentences r')
  /\ localSentences r' = localSentences r.
Proof.
  intros Hs Hr. destruct (parentIsReading r) eqn:Hp.
  - destruct (nextBody (localSentences r) (activeSentenceIndex r))
      as [j|] eqn:Hnext.
    + assert (exists sj, localSentences r !! j = Some sj) as [sj Hsj].
      { unfold nextBody in Hnext.
        apply findBody_Some in Hnext as (pre & sj & post & Hrest & _ & _ & ->).
        exists sj. rewrite <- lookup_drop, Hrest.
        by apply list_lookup_middle. }
      rewrite (settle_speaks r j sj Hp Hnext Hsj) in Hs.
      injection Hs as <- <-. simpl. split; [|done].
      by apply lookup_lt_Some in Hsj.
    + destruct (settle_silent r Hnext) as (cs0 & Hs0 & _).
      rewrite Hs0 in Hs. by injection Hs as <- <-.
  - rewrite (settle_not_reading r Hp) in Hs. by injection Hs as <- <-.
Qed.

End NavigationFacts.

(** X5. Playing from the cursor with no touch of the user passes to the
    engine the texts of the sentences from the cursor to the end of the
    page that are not metadata, in their order, each once, and nothing
    else. *)
Theorem play_through_speaks_body_sentences (fuel : nat) (r : Scheduler.Reader) :
  Scheduler.parentIsReading r = true ->
  length (Scheduler.localSentences r) - Scheduler.activeSentenceIndex r < fuel ->
  exists cs r',
    Navigation.playThrough fuel r = Some (cs, r')
    /\ Navigation.spokenTexts cs =
       map Segmenter.text
         (List.filter (fun s => negb (Segmenter.isMetadata s))
            (drop (Scheduler.activeSentenceIndex r)
               (Scheduler.localSentences r))).
Proof.
  intros Hp Hfuel.
  destruct (playThrough_spoken fuel r Hp Hfuel) as (cs & r' & H1 & H2 & _).
  by exists cs, r'.
Qed.

Lemma play_through_speaks_body_sentences_witness :
  exists cs r',
    Navigation.playThrough 4
      (Examples.playing (Segmenter.onPageLoadSuccess Examples.chapterPage) 0)
    = Some (cs, r')
    /\ Navigation.spokenTexts cs
       = [JsString.js "The cat sat."; JsString.js "It was happy!"].
Proof.
  destruct (play_through_speaks_body_sentences 4
              (Examples.playing
                 (Segmenter.onPageLoadSuccess Examples.chapterPage) 0))
    as (cs & r' & H1 & H2); [reflexivity|vm_compute; lia|].
  exists cs, r'. split; [exact H1|]. rewrite H2. vm_compute. reflexivity.
Defined.

(** X6. Whatever the state, one run of the reading effect passes an
    utterance to the engine only while playing, only for the active
    sentence and only if that sentence is not metadata, and cancels
    before it does, so that the engine then holds this utterance alone;
    when not playing or without sentences it only cancels; an engine
    that held at most one utterance holds at most one afterwards. *)
Theorem reading_effect_single_utterance
    (r : Scheduler.Reader) (queue : list Scheduler.Utterance) :
  (forall u,
      Scheduler.speak u ∈ Scheduler.calls (Scheduler.readingEffect r) ->
      Scheduler.parentIsReading r = true
      /\ (exists s,
             Scheduler.localSentences r !! Scheduler.activeSentenceIndex r
               = Some s
             /\ Segmenter.isMetadata s = false
             /\ u = Scheduler.utteranceOf r s)
      /\ Scheduler.performAll queue
           (Scheduler.calls (Scheduler.readingEffect r)) = [u])
  /\ (Scheduler.parentIsReading r = false \/ Scheduler.localSentences r = [] ->
      Scheduler.calls (Scheduler.readingEffect r) = [Scheduler.cancel])
  /\ (length queue <= 1 ->
      length (Scheduler.performAll queue
                (Scheduler.calls (Scheduler.readingEffect r))) <= 1).
Proof.
  unfold Scheduler.readingEffect.
  destruct (Scheduler.parentIsReading r) eqn:Hp; simpl.
  2:{ split; [|split; [done|simpl; lia]].
      intros u Hu. apply list_elem_of_singleton in Hu. discriminate Hu. }
  destruct (Scheduler.localSentences r) as [|s0 l] eqn:Hl; simpl.
  { split; [|split; [done|simpl; lia]].
    intros u Hu. apply list_elem_of_singleton in Hu. discriminate Hu. }
  destruct ((s0 :: l) !! Scheduler.activeSentenceIndex r) as [s|] eqn:Hs.
  2:{ split; [|split; [by intros [|]|done]].
      intros u Hu. by apply elem_of_nil in Hu. }
  destruct (Segmenter.isMetadata s) eqn:Hm.
  - match goal with
    | |- context [if ?b then _ else _] => destruct b
    end; simpl.
    + split; [|split; [by intros [|]|done]].
      intros u Hu. by apply elem_of_nil in Hu.
    + split; [|split; [by intros [|]|simpl; lia]].
      intros u Hu. apply list_elem_of_singleton in Hu. discriminate Hu.
  - simpl. split; [|split; [by intros [|]|simpl; lia]].
    intros u Hu. apply elem_of_cons in Hu as [Hu|Hu]; [discriminate Hu|].
    apply list_elem_of_singleton in Hu. injection Hu as ->.
    split; [done|]. split; [|done]. by exists s.
Qed.

Lemma reading_effect_single_utterance_witness :
  Scheduler.performAll
    [Scheduler.utteranceOf
       (Examples.playing (Segmenter.onPageLoadSuccess Examples.chapterPage) 1)
       (Examples.sentence "Chapter 1" true 0)]
    (Scheduler.calls
       (Scheduler.readingEffect
          (Examples.playing
             (Segmenter.onPageLoadSuccess Examples.chapterPage) 1)))
  = [Scheduler.utteranceOf
       (Examples.playing (Segmenter.onPageLoadSuccess Examples.chapterPage) 1)
       (Examples.sentence "The cat sat." false 1)].
Proof.
  apply (proj1 (reading_effect_single_utterance _ _)).
  vm_compute. right. left.
Defined.

(** X7. A cursor inside the list of sentences stays inside it under the
    next and previous buttons, a click on a sentence of the list, the
    commits of the reading effect, the end of an utterance whose
    handler was made with the same sentences at the current cursor or
    a later one, and the sync with a parent index inside the list.
    Otherwise it need not: the handler of an utterance made at an
    earlier cursor, run when the cursor is on the last sentence, moves
    it past the end, and the sync with a parent index outside the list
    moves it there. *)
Theorem cursor_stays_in_range (jump : bool) (r : Scheduler.Reader) :
  Scheduler.activeSentenceIndex r < length (Scheduler.localSentences r) ->
  let inRange (r' : Scheduler.Reader) :=
    Scheduler.activeSentenceIndex r' < length (Scheduler.localSentences r')
    /\ Scheduler.localSentences r' = Scheduler.localSentences r in
  inRange (Navigation.reader (Navigation.handleNextSentence jump r))
  /\ inRange (Navigation.reader (Navigation.handlePrevSentence jump r))
  /\ (forall index, index < length (Scheduler.localSentences r) ->
        inRange (Navigation.reader
                   (Navigation.handleSentenceClick jump index r)))
  /\ (exists cs r', Scheduler.settle 2 r = Some (cs, r') /\ inRange r')
  /\ (forall captured,
        Scheduler.localSentences captured = Scheduler.localSentences r ->
        Scheduler.activeSentenceIndex r
        <= Scheduler.activeSentenceIndex captured ->
        inRange (Scheduler.onend captured r))
  /\ (forall captured,
        Scheduler.localSentences captured = Scheduler.localSentences r ->
        Scheduler.activeSentenceIndex captured + 1
        < length (Scheduler.localSentences r) ->
        Scheduler.activeSentenceIndex r + 1
        = length (Scheduler.localSentences r) ->
        Scheduler.activeSentenceIndex (Scheduler.onend captured r)
        = length (Scheduler.localSentences r))
  /\ inRange (Navigation.syncWithParent None r)
  /\ (forall parentIndex,
        parentIndex < length (Scheduler.localSentences r) ->
        inRange (Navigation.syncWithParent (Some parentIndex) r))
  /\ (forall parentIndex,
        length (Scheduler.localSentences r) <= parentIndex ->
        Scheduler.activeSentenceIndex
          (Navigation.syncWithParent (Some parentIndex) r)
        = parentIndex).
Proof.
  intros Hr inRange. unfold inRange.
  split; [|split; [|split; [|split; [|split; [|split; [|split; [|split]]]]]]].
  - unfold Navigation.handleNextSentence.
    destruct (Z.ltb_spec (Z.of_nat (Scheduler.activeSentenceIndex r))
                (Z.of_nat (length (Scheduler.localSentences r)) - 1));
      simpl; split; try done; lia.
  - unfold Navigation.handlePrevSentence.
    destruct (Nat.ltb_spec 0 (Scheduler.activeSentenceIndex r));
      simpl; split; try done; lia.
  - intros index Hi. simpl. by split.
  - destruct (Scheduler.settle 2 r) as [[cs r']|] eqn:Hs.
    + exists cs, r'. split; [done|]. by apply (settle_in_range r cs r').
    + exfalso. destruct (Scheduler.parentIsReading r) eqn:Hp.
      * destruct (Navigation.nextBody (Scheduler.localSentences r)
                    (Scheduler.activeSentenceIndex r)) as [j|] eqn:Hnext.
        -- assert (exists sj, Scheduler.localSentences r !! j = Some sj)
             as [sj Hsj].
           { unfold Navigation.nextBody in Hnext.
             apply findBody_Some in Hnext
               as (pre & sj & post & Hrest & _ & _ & ->).
             exists sj. rewrite <- lookup_drop, Hrest.
             by apply list_lookup_middle. }
           by rewrite (settle_speaks r j sj Hp Hnext Hsj) in Hs.
        -- destruct (settle_silent r Hnext) as (cs0 & Hs0 & _). congruence.
      * by rewrite (settle_not_reading r Hp) in Hs.
  - intros captured Hsame Hle. unfold Scheduler.onend. rewrite Hsame.
    destruct (Z.ltb_spec (Z.of_nat (Scheduler.activeSentenceIndex captured))
                (Z.of_nat (length (Scheduler.localSentences r)) - 1));
      simpl; split; try done; lia.
  - intros captured Hsame Hcap Hlast. unfold Scheduler.onend. rewrite Hsame.
    destruct (Z.ltb_spec (Z.of_nat (Scheduler.activeSentenceIndex captured))
                (Z.of_nat (length (Scheduler.localSentences r)) - 1));
      simpl; lia.
  - by split.
  - intros parentIndex Hp. unfold Navigation.syncWithParent.
    destruct (parentIndex =? Scheduler.activeSentenceIndex r);
      simpl; by split.
  - intros parentIndex Hp. unfold Navigation.syncWithParent.
    destruct (Nat.eqb_spec parentIndex (Scheduler.activeSentenceIndex r));
      [lia|done].
Qed.

Lemma cursor_stays_in_range_witness :
  Scheduler.activeSentenceIndex
    (Scheduler.onend
       (Examples.playing
          (Segmenter.onPageLoadSuccess Examples.chapterPage) 1)
       (Examples.playing
          (Segmenter.onPageLoadSuccess Examples.chapterPage) 2))
  = length
      (Scheduler.localSentences
         (Examples.playing
            (Segmenter.onPageLoadSuccess Examples.chapterPage) 2)).
Proof.
  apply (proj1 (proj2 (proj2 (proj2 (proj2 (proj2
           (cursor_stays_in_range true
              (Examples.playing
                 (Segmenter.onPageLoadSuccess Examples.chapterPage) 2)
              ltac:(vm_compute; lia))))))));
    [reflexivity|vm_compute; lia|vm_compute; lia].
Defined.

(** X8. Where a sentence follows, the next button and then the previous
    button bring the reader back to the state it had, and so do the
    previous and then the next button where a sentence precedes; the
    parent is told of each move, with the new cursor. *)
Theorem next_and_previous_undo_each_other (r : Scheduler.Reader) :
  (Scheduler.activeSentenceIndex r + 1 < length (Scheduler.localSentences r) ->
   Navigation.reader
     (Navigation.handlePrevSentence true
        (Navigation.reader (Navigation.handleNextSentence true r))) = r
   /\ Navigation.parentCalls (Navigation.handleNextSentence true r)
      = [Navigation.onJumpTo (Scheduler.activeSentenceIndex r + 1)])
  /\ (0 < Scheduler.activeSentenceIndex r < length (Scheduler.localSentences r) ->
      Navigation.reader
        (Navigation.handleNextSentence true
           (Navigation.reader (Navigation.handlePrevSentence true r))) = r
      /\ Navigation.parentCalls (Navigation.handlePrevSentence true r)
         = [Navigation.onJumpTo (Scheduler.activeSentenceIndex r - 1)]).
Proof.
  destruct r as [reading sentences i speed voice]. simpl. split.
  - intros Hi. unfold Navigation.handleNextSentence. simpl.
    destruct (Z.ltb_spec (Z.of_nat i) (Z.of_nat (length sentences) - 1));
      [|lia].
    simpl. split; [|done]. unfold Navigation.handlePrevSentence. simpl.
    destruct (Nat.ltb_spec 0 (i + 1)); [|lia]. simpl.
    unfold Scheduler.setActiveSentenceIndex. simpl. f_equal. lia.
  - intros Hi. unfold Navigation.handlePrevSentence. simpl.
    destruct (Nat.ltb_spec 0 i); [|lia]. simpl. split; [|done].
    unfold Navigation.handleNextSentence. simpl.
    destruct (Z.ltb_spec (Z.of_nat (i - 1)) (Z.of_nat (length sentences) - 1));
      [|lia].
    simpl. unfold Scheduler.setActiveSentenceIndex. simpl. f_equal. lia.
Qed.

Lemma next_and_previous_undo_each_other_witness :
  Navigation.reader
    (Navigation.handlePrevSentence true
       (Navigation.reader
          (Navigation.handleNextSentence true
             (Examples.playing
                (Segmenter.onPageLoadSuccess Examples.chapterPage) 0))))
  = Examples.playing (Segmenter.onPageLoadSuccess Examples.chapterPage) 0.
Proof.
  apply (proj1 (next_and_previous_undo_each_other
                  (Examples.playing
                     (Segmenter.onPageLoadSuccess Examples.chapterPage) 0))).
  vm_compute. lia.
Defined.

(** ** The spans of the text layer *)

Section DomFacts.
Import JsString Segmenter Dom.

Lemma forElements_length f els (spans : list Span) :
  length (forElements f els spans) = length spans.
Proof.
  revert spans; induction els as [|e els IH]; intros spans; [done|].
  unfold forElements in *. simpl. by rewrite IH, length_alter.
Qed.

Lemma forElements_lookup f els (spans : list Span) k :
  NoDup els ->
  forElements f els spans !! k =
  if bool_decide (k ∈ els) then f <$> spans !! k else spans !! k.
Proof.
  revert spans; induction els as [|e els IH]; intros spans Hd.
  { by rewrite bool_decide_eq_false_2 by apply not_elem_of_nil. }
  apply NoDup_cons in Hd as [He Hd].
  unfold forElements in *. simpl. rewrite IH by done.
  destruct (decide (k = e)) as [->|Hne].
  - rewrite (bool_decide_eq_false_2 (e ∈ els)) by done.
    rewrite (bool_decide_eq_true_2 (e ∈ e :: els)) by (by left).
    apply list_lookup_alter_eq.
  - rewrite list_lookup_alter_ne by done.
    destruct (decide (k ∈ els)) as [Hin|Hnin].
    + rewrite !bool_decide_eq_true_2; [done|by right|done].
    + rewrite !bool_decide_eq_false_2; [done| |done].
      intros [?|?]%elem_of_cons; done.
Qed.

(** Groups of spans worked through one after the other, no span in two
    groups: a span of a group gets the change of its group, any other
    span none. *)
Section Groups.
Context {X : Type} (els : X -> list nat) (f : X -> nat -> Span -> Span).

Lemma run_length l n spans : length (run els f l n spans) = length spans.
Proof.
  revert n spans; induction l as [|x l IH]; intros n spans; [done|].
  unfold run in *. simpl. by rewrite IH, forElements_length.
Qed.

Lemma run_lookup l n spans :
  NoDup (concat (map els l)) ->
  (forall i x k, l !! i = Some x -> k ∈ els x ->
                 run els f l n spans !! k = f x (n + i) <$> spans !! k)
  /\ (forall k, (forall x, x ∈ l -> k ∉ els x) ->
                run els f l n spans !! k = spans !! k).
Proof.
  revert n spans; induction l as [|x l IH]; intros n spans Hd.
  { split; [intros i x k Hi; by rewrite lookup_nil in Hi|done]. }
  simpl in Hd. apply NoDup_app in Hd as (Hx & Hcross & Hl).
  destruct (IH (S n) (forElements (f x n) (els x) spans) Hl) as [Hin Hout].
  unfold run in *. simpl. split.
  - intros [|i] y k Hi Hk; simpl in Hi.
    + injection Hi as <-. rewrite Hout.
      * rewrite forElements_lookup, bool_decide_eq_true_2 by done.
        by rewrite Nat.add_0_r.
      * intros z Hz Hkz. apply (Hcross k Hk).
        apply list_elem_of_In, in_concat. exists (els z).
        split; [apply in_map; by apply list_elem_of_In|by apply list_elem_of_In].
    + rewrite (Hin i y k Hi Hk), forElements_lookup by done.
      rewrite bool_decide_eq_false_2.
      { f_equal. f_equal. lia. }
      intros Hkx. apply (Hcross k Hkx).
      apply list_elem_of_In, in_concat. exists (els y).
      split; [|by apply list_elem_of_In].
      apply in_map, list_elem_of_In. by eapply list_elem_of_lookup_2.
  - intros k Hk. rewrite Hout.
    + rewrite forElements_lookup, bool_decide_eq_false_2; [done| |done].
      apply Hk. by left.
    + intros z Hz. apply Hk. by right.
Qed.

End Groups.

Lemma NoDup_elements (spans : list Span) (sentences : list Sentence) :
  NoDup (concat (map itemIndices sentences)) ->
  NoDup (concat (map (elementsOf spans) sentences)).
Proof.
  induction sentences as [|s l IH]; [done|]. simpl.
  rewrite !NoDup_app. intros (Hs & Hcross & Hl).
  split; [by apply NoDup_filter|]. split; [|auto].
  intros k Hk Hin. apply list_elem_of_filter in Hk as [_ Hk].
  apply (Hcross k Hk).
  apply list_elem_of_In, in_concat in Hin as (e & He & Hke).
  apply in_map_iff in He as (s' & <- & Hs').
  apply list_elem_of_In in Hke.
  apply list_elem_of_filter in Hke as [_ Hke].
  apply list_elem_of_In, in_concat. exists (itemIndices s').
  split; [by apply in_map|by apply list_elem_of_In].
Qed.

Lemma classListContains_add c cl :
  classListContains c (classListAdd c cl) = true.
Proof.
  unfold classListAdd. destruct (classListContains c cl) eqn:H; [done|].
  unfold classListContains. rewrite existsb_app. simpl.
  by rewrite String.eqb_refl, orb_true_r.
Qed.

Lemma classListContains_remove c cl :
  classListContains c (classListRemove c cl) = false.
Proof.
  unfold classListContains, classListRemove.
  induction cl as [|d cl IH]; [done|]. simpl.
  destruct (String.eqb c d) eqn:H; simpl; [done|]. by rewrite H.
Qed.

Lemma highlightEffect_run domItemsMap active spans :
  fst (highlightEffect domItemsMap active spans) =
  run (fun elements : list nat => elements)
    (fun _ idx => highlightSpan (idx =? active)) domItemsMap 0 spans.
Proof.
  unfold highlightEffect, run.
  assert (forall l n acc,
             fst (forEach
                    (fun (acc : list Span * option nat) elements idx =>
                       let isActive := idx =? active in
                       (forElements (highlightSpan isActive) elements
                          (fst acc),
                        if isActive then
                          match elements with
                          | el :: _ => Some el
                          | [] => snd acc
                          end
                        else snd acc)) l n acc)
             = forEach
                 (fun spans' (x : list nat) idx =>
                    forElements (highlightSpan (idx =? active)) x spans')
                 l n (fst acc)) as H.
  { induction l as [|x l IH]; intros n acc; [done|]. simpl. by rewrite IH. }
  destruct domItemsMap; [done|]. apply H.
Qed.

Lemma highlightEffect_scroll domItemsMap active spans :
  snd (highlightEffect domItemsMap active spans) =
  match domItemsMap !! active with
  | Some (el :: _) => Some el
  | _ => None
  end.
Proof.
  assert (forall l n acc,
             snd (forEach
                    (fun (acc : list Span * option nat) elements idx =>
                       let isActive := idx =? active in
                       (forElements (highlightSpan isActive) elements
                          (fst acc),
                        if isActive then
                          match elements with
                          | el :: _ => Some el
                          | [] => snd acc
                          end
                        else snd acc)) l n acc)
             = if decide (n <= active) then
                 match l !! (active - n) with
                 | Some (el :: _) => Some el
                 | _ => snd acc
                 end
               else snd acc) as H.
  { induction l as [|x l IH]; intros n acc; simpl.
    - by destruct (decide (n <= active)).
    - rewrite IH. simpl.
      destruct (Nat.eqb_spec n active) as [->|Hne].
      + rewrite Nat.sub_diag. simpl.
        destruct (decide (S active <= active)); [lia|].
        destruct (decide (active <= active)); [|lia]. by destruct x.
      + destruct (decide (S n <= active)), (decide (n <= active));
          try lia; [|done].
        replace (active - n) with (S (active - S n)) by lia. done. }
  unfold highlightEffect. destruct domItemsMap as [|x l] eqn:Hd.
  { by rewrite lookup_nil. }
  rewrite H. simpl. destruct (decide (0 <= active)); [|lia].
  rewrite Nat.sub_0_r. by destruct ((x :: l) !! active) as [[|]|].
Qed.

(** The spans after [mapSentencesToDom] on sentences no two of which
    share an index. *)
Lemma mapSentencesToDom_spans (spans : list Span) (sentences : list Sentence) :
  NoDup (concat (map itemIndices sentences)) ->
  exists spans',
    mapSentencesToDom (Some spans) sentences
    = Some (spans', map (elementsOf spans) sentences)
    /\ length spans' = length spans
    /\ (forall sIdx s k el,
           sentences !! sIdx = Some s -> k ∈ itemIndices s ->
           spans !! k = Some el ->
           spans' !! k = Some (bindSpan s sIdx el))
    /\ (forall k, (forall s, s ∈ sentences -> k ∉ itemIndices s) ->
                  spans' !! k = spans !! k).
Proof.
  intros Hd. eexists. split; [reflexivity|].
  fold (run (elementsOf spans) bindSpan sentences 0 spans).
  destruct (run_lookup (elementsOf spans) bindSpan sentences 0 spans
              (NoDup_elements spans sentences Hd)) as [Hin Hout].
  split; [apply run_length|]. split.
  - intros sIdx s k el Hs Hk Hel. rewrite (Hin sIdx s k Hs).
    + by rewrite Hel.
    + apply list_elem_of_filter. split; [|done].
      by apply lookup_lt_Some in Hel.
  - intros k Hk. apply Hout. intros s Hs Hks.
    apply list_elem_of_filter in Hks as [_ Hks]. by apply (Hk s).
Qed.

End DomFacts.

Section DomStatements.
Import JsString Segmenter Scheduler Navigation Dom.



End DomStatements.

(** X9. After [mapSentencesToDom] on the sentences of a page, every
    span of an item of a sentence carries the sentence-token class; the
    click handler of a span of a sentence that is not metadata selects
    that sentence, a span of a metadata sentence keeps the handler it
    had, and a span of no sentence is left as it was.  The map stored
    lists, for each sentence, the spans that exist among its items. *)
Theorem spans_bound_to_their_sentence
    (p : Segmenter.Page) (spans : list Dom.Span) :
  exists spans',
    Dom.mapSentencesToDom (Some spans) (Segmenter.onPageLoadSuccess p)
    = Some (spans',
            map (Dom.elementsOf spans) (Segmenter.onPageLoadSuccess p))
    /\ length spans' = length spans
    /\ (forall sIdx s k el,
           Segmenter.onPageLoadSuccess p !! sIdx = Some s ->
           k ∈ Segmenter.itemIndices s ->
           spans !! k = Some el ->
           exists el',
             spans' !! k = Some el'
             /\ Dom.classListContains "sentence-token" (Dom.classList el')
                = true
             /\ Dom.onclick el' =
                if Segmenter.isMetadata s then Dom.onclick el
                else Some sIdx)
    /\ (forall k,
           (forall s, s ∈ Segmenter.onPageLoadSuccess p ->
                      k ∉ Segmenter.itemIndices s) ->
           spans' !! k = spans !! k).
Proof.
  destruct (segmented_shape p) as [_ Hd].
  destruct (mapSentencesToDom_spans spans _ Hd)
    as (spans' & Hmap & Hlen & Hin & Hout).
  exists spans'. split; [done|]. split; [done|]. split; [|done].
  intros sIdx s k el Hs Hk Hel. exists (Dom.bindSpan s sIdx el).
  split; [by apply (Hin sIdx s k el)|]. unfold Dom.bindSpan.
  destruct (Segmenter.isMetadata s); simpl.
  - split; [apply classListContains_add|done].
  - split; [|done]. unfold Dom.classListAdd at 1.
    destruct (Dom.classListContains "interactive-token" _) eqn:Hc.
    + apply classListContains_add.
    + unfold Dom.classListContains. rewrite existsb_app.
      fold (Dom.classListContains "sentence-token"
              (Dom.classListAdd "sentence-token" (Dom.classList el))).
      by rewrite classListContains_add.
Qed.

(** X10. Whatever classes the spans carry, from the binding or from
    earlier runs of the effect, after the highlighting effect a span of
    an item of a sentence carries the sentence-active class exactly
    when its sentence is the active one, and keeps its click handler;
    the span scrolled into view is the first span of the active
    sentence, when it has one. *)
Theorem active_sentence_alone_is_highlighted
    (p : Segmenter.Page) (spans spans1 current : list Dom.Span)
    (domItemsMap : list (list nat)) (active : nat) :
  Dom.mapSentencesToDom (Some spans) (Segmenter.onPageLoadSuccess p)
  = Some (spans1, domItemsMap) ->
  length current = length spans ->
  (forall j s k,
      Segmenter.onPageLoadSuccess p !! j = Some s ->
      k ∈ Segmenter.itemIndices s -> k < length spans ->
      exists el0 el,
        current !! k = Some el0
        /\ fst (Dom.highlightEffect domItemsMap active current) !! k
           = Some el
        /\ Dom.onclick el = Dom.onclick el0
        /\ (Dom.classListContains "sentence-active" (Dom.classList el) = true
            <-> j = active))
  /\ snd (Dom.highlightEffect domItemsMap active current)
     = match Segmenter.onPageLoadSuccess p !! active with
       | Some s => head (Dom.elementsOf spans s)
       | None => None
       end.
Proof.
  intros Hmap Hcur.
  destruct (segmented_shape p) as [_ Hd].
  destruct (mapSentencesToDom_spans spans _ Hd)
    as (spans' & Hmap' & Hlen & _).
  rewrite Hmap' in Hmap. injection Hmap as -> <-. split.
  - intros j s k Hs Hk Hklen.
    rewrite highlightEffect_run.
    destruct (run_lookup (fun elements : list nat => elements)
                (fun _ idx => Dom.highlightSpan (idx =? active))
                (map (Dom.elementsOf spans) (Segmenter.onPageLoadSuccess p))
                0 current) as [Hin _].
    { rewrite map_id. by apply NoDup_elements. }
    destruct (lookup_lt_is_Some_2 current k) as [el1 Hel1].
    { by rewrite Hcur. }
    rewrite (Hin j (Dom.elementsOf spans s) k).
    + rewrite Hel1. simpl. eexists _, _. split; [done|].
      split; [done|]. split; [done|]. simpl.
      destruct (Nat.eqb_spec j active) as [->|Hne].
      * by rewrite classListContains_add.
      * by rewrite classListContains_remove.
    + by rewrite list_lookup_fmap, Hs.
    + apply list_elem_of_filter. by split.
  - rewrite highlightEffect_scroll, list_lookup_fmap.
    destruct (Segmenter.onPageLoadSuccess p !! active) as [s|]; [|done].
    simpl. by destruct (Dom.elementsOf spans s).
Qed.

Lemma active_sentence_alone_is_highlighted_witness :
  exists el0 el,
    [Dom.plainSpan;
     {| Dom.classList := ["sentence-token"; "sentence-active"]%string;
        Dom.onclick := Some 1 |};
     Dom.plainSpan] !! 1 = Some el0
    /\ fst (Dom.highlightEffect
              (map (Dom.elementsOf
                      [Dom.plainSpan; Dom.plainSpan; Dom.plainSpan])
                 (Segmenter.onPageLoadSuccess Examples.chapterPage))
              2
              [Dom.plainSpan;
               {| Dom.classList := ["sentence-token"; "sentence-active"]%string;
                  Dom.onclick := Some 1 |};
               Dom.plainSpan]) !! 1 = Some el
    /\ Dom.onclick el = Dom.onclick el0
    /\ (Dom.classListContains "sentence-active" (Dom.classList el) = true
        <-> 1 = 2).
Proof.
  apply (proj1 (active_sentence_alone_is_highlighted Examples.chapterPage
                  [Dom.plainSpan; Dom.plainSpan; Dom.plainSpan] _
                  [Dom.plainSpan;
                   {| Dom.classList :=
                        ["sentence-token"; "sentence-active"]%string;
                      Dom.onclick := Some 1 |};
                   Dom.plainSpan] _ 2
                  eq_refl eq_refl)
           1 (Examples.sentence "The cat sat." false 1) 1).
  - vm_compute. reflexivity.
  - vm_compute. left.
  - simpl. lia.
Defined.



Section EncoderFacts.
Import JsString Wav Layout Quantize.
#[local] Open Scope Z_scope.




Lemma quantize_finite (q : Q) :
  toInt16 (scale (clamp (Finite q))) = truncate (scaled q)
  /\ (-32768 <= scaled q <= 32767)%Q.
Proof.
  unfold clamp, scaled. simpl.
  destruct (Qltb 1 q) eqn:H1; simpl.
  { split; [|lra]. by vm_compute. }
  apply Qltb_ge in H1.
  destruct (Qltb q (-1)) eqn:H2; simpl.
  { split; [|lra]. by vm_compute. }
  apply Qltb_ge in H2.
  destruct (Qltb q 0) eqn:H3.
  - apply Qltb_lt in H3.
    assert (-32768 <= q * 32768 <= 32767)%Q by lra.
    split; [by apply toInt16_exact|done].
  - apply Qltb_ge in H3.
    assert (-32768 <= q * 32767 <= 32767)%Q by lra.
    split; [by apply toInt16_exact|done].
Qed.


Lemma Forall_byte_le32 v : Forall (fun b => 0 <= b < 256) (le32 v).
Proof.
  unfold le32. repeat constructor; apply Z.mod_pos_bound; lia.
Qed.

Lemma Forall_byte_le16 v : Forall (fun b => 0 <= b < 256) (le16 v).
Proof.
  unfold le16. repeat constructor; apply Z.mod_pos_bound; lia.
Qed.

Lemma Forall_byte_header n sampleRate :
  Forall (fun b => 0 <= b < 256) (header n sampleRate).
Proof.
  unfold header.
  repeat (apply Forall_app; split);
    try apply Forall_byte_le32; try apply Forall_byte_le16;
    repeat constructor; lia.
Qed.

Lemma Forall_byte_samples samples :
  Forall (fun b => 0 <= b < 256) (flat_map sampleBytes samples).
Proof.
  induction samples as [|x l IH]; [constructor|].
  change (flat_map sampleBytes (x :: l))
    with (sampleBytes x ++ flat_map sampleBytes l).
  apply Forall_app. split; [apply Forall_byte_le16|done].
Qed.

Lemma truncate_toward_zero (q : Q) :
  ((0 <= q)%Q ->
   (inject_Z (truncate q) <= q < inject_Z (truncate q) + 1)%Q)
  /\ ((q <= 0)%Q ->
      (inject_Z (truncate q) - 1 < q <= inject_Z (truncate q))%Q).
Proof.
  destruct q as [n d].
  unfold truncate, Qle, Qlt, Qplus, Qminus, Qopp, inject_Z. simpl.
  split; intros Hq; split; Z.to_euclidean_division_equations; nia.
Qed.

(** The integer written for a sample, case by case. *)
Lemma written_cases (x : sample) :
  match x with
  | Finite q =>
      ((1 < q)%Q -> toInt16 (scale (clamp x)) = 32767)
      /\ ((q < -1)%Q -> toInt16 (scale (clamp x)) = -32768)
      /\ ((-1 <= q < 0)%Q ->
          toInt16 (scale (clamp x)) = truncate (q * 32768))
      /\ ((0 <= q <= 1)%Q ->
          toInt16 (scale (clamp x)) = truncate (q * 32767))
  | PlusInfinity => toInt16 (scale (clamp x)) = 32767
  | MinusInfinity => toInt16 (scale (clamp x)) = -32768
  | NotANumber => toInt16 (scale (clamp x)) = 0
  end.
Proof.
  destruct x as [q| | |]; [|reflexivity..].
  destruct (quantize_finite q) as [-> _]. unfold scaled.
  destruct (Qltb 1 q) eqn:H1;
    [apply Qltb_lt in H1|apply Qltb_ge in H1];
  (destruct (Qltb q (-1)) eqn:H2;
    [apply Qltb_lt in H2|apply Qltb_ge in H2]);
  (destruct (Qltb q 0) eqn:H3;
    [apply Qltb_lt in H3|apply Qltb_ge in H3]);
  repeat split; intros; try reflexivity; lra.
Qed.

End EncoderFacts.

(** X12. The encoder never writes outside its buffer: for any samples
    and any rate it returns a buffer of 44 bytes and two bytes per
    sample, and every entry of the buffer is a byte. *)
Theorem encoder_returns_bytes (samples : list Wav.sample) (sampleRate : Z) :
  exists wavBuffer,
    Wav.encodeWav samples sampleRate = Some wavBuffer
    /\ length wavBuffer = 44 + 2 * length samples
    /\ Forall (fun b => (0 <= b < 256)%Z) wavBuffer.
Proof.
  eexists. split; [apply encodeWav_bytes|]. split.
  - rewrite length_app.
    rewrite flat_map_constant_length with (c := 2) by done.
    simpl. lia.
  - apply Forall_app. split;
      [apply Forall_byte_header|apply Forall_byte_samples].
Qed.

(** X13. The fields of the header agree with one another and with the
    buffer: for a rate and a length that fit 32 bits, the RIFF length is
    the length of the buffer less 8, the data length is the length of
    the buffer less 44, the block align is the channel count times the
    bytes of a sample, and the byte rate is the rate times the block
    align. *)
Theorem wav_header_fields_agree
    (samples : list Wav.sample) (sampleRate : Z) (wavBuffer : list Z) :
  (0 <= sampleRate)%Z ->
  (sampleRate * 2 < 4294967296)%Z ->
  (36 + Z.of_nat (length samples) * 2 < 4294967296)%Z ->
  Wav.encodeWav samples sampleRate = Some wavBuffer ->
  Wav.getUint32 4 wavBuffer = Some (Z.of_nat (length wavBuffer) - 8)%Z
  /\ Wav.getUint32 40 wavBuffer = Some (Z.of_nat (length wavBuffer) - 44)%Z
  /\ Wav.getUint32 24 wavBuffer = Some sampleRate
  /\ exists channels blockAlign bitsPerSample,
       Wav.getUint16 22 wavBuffer = Some channels
       /\ Wav.getUint16 32 wavBuffer = Some blockAlign
       /\ Wav.getUint16 34 wavBuffer = Some bitsPerSample
       /\ (blockAlign * 8 = channels * bitsPerSample)%Z
       /\ Wav.getUint32 28 wavBuffer = Some (sampleRate * blockAlign)%Z.
Proof.
  intros Hr0 Hr Hn Henc. rewrite encodeWav_bytes in Henc.
  assert (wavBuffer = Layout.header (length samples) sampleRate
                        ++ flat_map Layout.sampleBytes samples) as ->
    by congruence.
  clear Henc.
  assert (length (Layout.header (length samples) sampleRate
                    ++ flat_map Layout.sampleBytes samples)
          = 44 + 2 * length samples) as ->.
  { rewrite length_app.
    rewrite flat_map_constant_length with (c := 2) by done. simpl. lia. }
  split.
  { unfold Wav.getUint32. simpl. f_equal.
    rewrite le32_value by lia. lia. }
  split.
  { unfold Wav.getUint32. simpl. f_equal.
    rewrite le32_value by lia. lia. }
  split.
  { unfold Wav.getUint32. simpl. f_equal. apply le32_value. lia. }
  exists 1%Z, 2%Z, 16%Z.
  do 4 (split; [reflexivity|]).
  unfold Wav.getUint32. simpl. f_equal. apply le32_value. lia.
Qed.

Lemma wav_header_fields_agree_witness :
  Wav.getUint32 4
    (Layout.header 2 44100
       ++ flat_map Layout.sampleBytes [Wav.Finite (1 # 2); Wav.NotANumber])
  = Some 40%Z.
Proof.
  apply (proj1 (wav_header_fields_agree
                  [Wav.Finite (1 # 2); Wav.NotANumber] 44100 _
                  ltac:(lia) ltac:(lia) ltac:(simpl; lia)
                  (encodeWav_bytes _ _))).
Defined.



(** C10. Of every sample the encoder writes, into the two bytes of its
    place in the buffer, a signed 16-bit integer: for a sample under -1
    or over 1 that of -1 or of 1, which are -32768 and 32767; for a
    negative sample of [-1, 1] the sample times 32768 and for any other
    the sample times 32767, rounded toward zero.  The product lies in
    [-32768, 32767], so the integer written is its whole part itself
    and nothing wraps.  The infinities are written as 32767 and -32768
    and a sample that is not a number as 0. *)
Theorem quantization_asymmetric_in_range
    (samples : list Wav.sample) (sampleRate : Z) (i : nat) (x : Wav.sample) :
  samples !! i = Some x ->
  exists wavBuffer v,
    Wav.encodeWav samples sampleRate = Some wavBuffer
    /\ Wav.getInt16 (44 + 2 * i) wavBuffer = Some v
    /\ (-32768 <= v <= 32767)%Z
    /\ match x with
       | Wav.Finite q =>
           ((1 < q)%Q -> v = 32767%Z)
           /\ ((q < -1)%Q -> v = (-32768)%Z)
           /\ ((-1 <= q < 0)%Q ->
               v = Wav.truncate (q * 32768)
               /\ (-32768 <= q * 32768 < 0)%Q
               /\ (inject_Z v - 1 < q * 32768 <= inject_Z v)%Q)
           /\ ((0 <= q <= 1)%Q ->
               v = Wav.truncate (q * 32767)
               /\ (0 <= q * 32767 <= 32767)%Q
               /\ (inject_Z v <= q * 32767 < inject_Z v + 1)%Q)
       | Wav.PlusInfinity => v = 32767%Z
       | Wav.MinusInfinity => v = (-32768)%Z
       | Wav.NotANumber => v = 0%Z
       end.
Proof.
  intros Hi. eexists _, _. split; [apply encodeWav_bytes|].
  split; [by apply getInt16_sample|]. split; [apply toInt16_range|].
  pose proof (written_cases x) as Hcases.
  destruct x as [q| | |]; [|done..].
  destruct Hcases as (Hover & Hunder & Hneg & Hpos).
  split; [done|]. split; [done|]. split.
  - intros Hq. rewrite (Hneg Hq). split; [done|]. split; [lra|].
    apply truncate_toward_zero. lra.
  - intros Hq. rewrite (Hpos Hq). split; [done|]. split; [lra|].
    apply truncate_toward_zero. lra.
Qed.

Lemma quantization_asymmetric_in_range_witness :
  exists wavBuffer,
    Wav.encodeWav [Wav.Finite (3 # 2); Wav.Finite (-1 # 2)] 16000
    = Some wavBuffer
    /\ Wav.getInt16 (44 + 2 * 0) wavBuffer = Some 32767%Z
    /\ Wav.getInt16 (44 + 2 * 1) wavBuffer = Some (-16384)%Z.
Proof.
  destruct (quantization_asymmetric_in_range
              [Wav.Finite (3 # 2); Wav.Finite (-1 # 2)] 16000 0
              (Wav.Finite (3 # 2)) eq_refl)
    as (wavBuffer & v & Henc & Hget & _ & Hover & _).
  destruct (quantization_asymmetric_in_range
              [Wav.Finite (3 # 2); Wav.Finite (-1 # 2)] 16000 1
              (Wav.Finite (-1 # 2)) eq_refl)
    as (wavBuffer' & v' & Henc' & Hget' & _ & _ & _ & Hneg & _).
  exists wavBuffer. split; [exact Henc|].
  assert (wavBuffer' = wavBuffer) as -> by congruence.
  rewrite Hover in Hget by lra.
  destruct Hneg as [Hv' _]; [split; lra|].
  rewrite Hv' in Hget'. split; [exact Hget|exact Hget'].
Defined.

(** C7. Whatever the rate and the number of channels of the decoded
    recording, the converted buffer is 44 header bytes and two bytes per
    sample of the first channel; the header declares linear PCM, one
    channel, 16000 Hz, 16 bits per sample and a data length of twice the
    number of samples (which fits its 32 bits).  The two bytes of a
    sample hold a signed 16-bit integer: for a sample over 1 or under -1
    the integer of 1 or of -1, that is, the sample is clamped to
    [-1, 1] first; for a sample of [-1, 1] its product with 32768 or
    32767 rounded toward zero. *)
Theorem wav_header_canonical
    (decodeAudioData : list Z -> option Wav.AudioBuffer)
    (blob : Wav.Blob) (audioBuffer : Wav.AudioBuffer) :
  decodeAudioData (Wav.blobBytes blob) = Some audioBuffer ->
  let samples := Wav.channel0 audioBuffer in
  (Z.of_nat (length samples) * 2 < 4294967296)%Z ->
  exists wavBuffer,
    Wav.convertToWav decodeAudioData blob =
      ([], Wav.Returned {| Wav.blobType := "audio/wav";
                           Wav.blobBytes := wavBuffer |})
    /\ length wavBuffer = 44 + 2 * length samples
    /\ take 4 wavBuffer = [82; 73; 70; 70]%Z
    /\ take 8 (drop 8 wavBuffer) = [87; 65; 86; 69; 102; 109; 116; 32]%Z
    /\ Wav.getUint16 20 wavBuffer = Some 1%Z
    /\ Wav.getUint16 22 wavBuffer = Some 1%Z
    /\ Wav.getUint32 24 wavBuffer = Some 16000%Z
    /\ Wav.getUint16 34 wavBuffer = Some 16%Z
    /\ take 4 (drop 36 wavBuffer) = [100; 97; 116; 97]%Z
    /\ Wav.getUint32 40 wavBuffer = Some (Z.of_nat (length samples) * 2)%Z
    /\ forall i x, samples !! i = Some x ->
         exists v,
           Wav.getInt16 (44 + 2 * i) wavBuffer = Some v
           /\ (-32768 <= v <= 32767)%Z
           /\ match x with
              | Wav.Finite q =>
                  ((1 < q)%Q -> v = 32767%Z)
                  /\ ((q < -1)%Q -> v = (-32768)%Z)
                  /\ ((-1 <= q < 0)%Q -> v = Wav.truncate (q * 32768))
                  /\ ((0 <= q <= 1)%Q -> v = Wav.truncate (q * 32767))
              | Wav.PlusInfinity => v = 32767%Z
              | Wav.MinusInfinity => v = (-32768)%Z
              | Wav.NotANumber => v = 0%Z
              end.
Proof.
  intros Hd samples Hlen.
  eexists. split; [by apply convertToWav_decoded|].
  fold samples.
  split.
  { rewrite length_app.
    rewrite flat_map_constant_length with (c := 2) by done.
    simpl. lia. }
  do 7 (split; [reflexivity|]).
  split.
  { unfold Wav.getUint32. simpl. f_equal. apply le32_value. lia. }
  intros i x Hi. eexists. split; [by apply getInt16_sample|].
  split; [apply toInt16_range|]. apply written_cases.
Qed.

Lemma wav_header_canonical_witness :
  exists wavBuffer,
    Wav.convertToWav
      (fun _ => Some {| Wav.sampleRate := 48000;
                        Wav.channel0 := [Wav.Finite (3 # 2)];
                        Wav.otherChannels := [[Wav.Finite 0]] |})
      {| Wav.blobType := "audio/webm"; Wav.blobBytes := [] |}
    = ([], Wav.Returned {| Wav.blobType := "audio/wav";
                           Wav.blobBytes := wavBuffer |})
    /\ Wav.getUint32 24 wavBuffer = Some 16000%Z
    /\ Wav.getUint16 22 wavBuffer = Some 1%Z
    /\ Wav.getInt16 44 wavBuffer = Some 32767%Z.
Proof.
  destruct (wav_header_canonical
              (fun _ => Some {| Wav.sampleRate := 48000;
                                Wav.channel0 := [Wav.Finite (3 # 2)];
                                Wav.otherChannels := [[Wav.Finite 0]] |})
              {| Wav.blobType := "audio/webm"; Wav.blobBytes := [] |}
              _ eq_refl)
    as (wavBuffer & Hc & _ & _ & _ & _ & Hch & Hrate & _ & _ & _ & Hs);
    [simpl; lia|].
  exists wavBuffer. split; [exact Hc|]. split; [exact Hrate|].
  split; [exact Hch|].
  destruct (Hs 0 (Wav.Finite (3 # 2)) eq_refl) as (v & Hv & _ & Hover & _).
  rewrite Hover in Hv by lra. exact Hv.
Defined.

Section FeedbackFacts.
Import JsString JsNumber Segmenter Scheduler Practice Feedback.

Lemma filter_missed_none (spoken expected : list jsstring) :
  (forall w, w ∈ expected -> w ∈ spoken) ->
  List.filter (fun w => negb (correct w))
    (map (fun word =>
            {| word := word; correct := bool_decide (word ∈ spoken) |})
       expected) = [].
Proof.
  induction expected as [|w l IH]; [done|]. intros Hall. simpl.
  rewrite bool_decide_eq_true_2 by (apply Hall; by left). simpl.
  apply IH. intros w' Hw'. apply Hall. by right.
Qed.

Lemma map_word_feedback (spoken expected : list jsstring) :
  map word
    (map (fun word =>
            {| word := word; correct := bool_decide (word ∈ spoken) |})
       expected) = expected.
Proof. induction expected as [|w l IH]; [done|]. simpl. by rewrite IH. Qed.

Lemma words_empty toLowerCase :
  agreesOnLatin1 toLowerCase -> words toLowerCase [] = [[]].
Proof. intros Hlow. unfold words. by rewrite Hlow. Qed.

Lemma feedback_of_silence (expected : list jsstring) :
  map (fun word =>
         {| word := word;
            correct := bool_decide (word ∈ [[] : jsstring]) |})
    expected
  = map (fun w => {| word := w; correct := isEmpty w |}) expected.
Proof.
  apply map_ext. intros w. f_equal. destruct w as [|c w].
  - apply bool_decide_eq_true_2. by left.
  - apply bool_decide_eq_false_2. intros Hin.
    apply list_elem_of_singleton in Hin. discriminate Hin.
Qed.

Lemma missed_of_silence (expected : list jsstring) :
  map word
    (List.filter (fun w => negb (correct w))
       (map (fun w => {| word := w; correct := isEmpty w |}) expected))
  = List.filter (fun w => negb (isEmpty w)) expected.
Proof.
  induction expected as [|w l IH]; [done|].
  destruct w as [|c w]; simpl; by rewrite IH.
Qed.

End FeedbackFacts.

(** X15. When every word of the active sentence occurs among the words
    of the transcript, in whatever order and whatever else was said,
    upper and lower case and punctuation apart, the feedback lists the
    words of the sentence in order, marks each one correct, and the
    correction effect does nothing, whatever the score.  This holds of
    every text, whatever the engine's case table. *)
Theorem complete_reading_needs_no_correction
    (toLowerCase : JsString.jsstring -> JsString.jsstring)
    (pr : Feedback.PracticeResult) (r : Feedback.Result)
    (sentences : list Segmenter.Sentence)
    (active : nat) (s : Segmenter.Sentence)
    (selectedVoice : option Scheduler.Voice) :
  Feedback.result pr = Some r ->
  sentences !! active = Some s ->
  (forall w, w ∈ Feedback.words toLowerCase (Segmenter.text s) ->
             w ∈ Feedback.words toLowerCase (Feedback.spokenText pr)) ->
  map Practice.word
    (Feedback.getWordFeedback toLowerCase (Some pr) sentences active)
  = Feedback.words toLowerCase (Segmenter.text s)
  /\ Forall (fun w => Practice.correct w = true)
       (Feedback.getWordFeedback toLowerCase (Some pr) sentences active)
  /\ Feedback.correctionEffect (Some pr)
       (Feedback.getWordFeedback toLowerCase (Some pr) sentences active)
       selectedVoice
     = [].
Proof.
  intros Hr Hs Hall. unfold Feedback.getWordFeedback. rewrite Hs.
  split; [apply map_word_feedback|]. split.
  - apply Forall_forall. intros m Hm.
    apply list_elem_of_fmap in Hm as (w & -> & Hw). simpl.
    apply bool_decide_eq_true_2. by apply Hall.
  - unfold Feedback.correctionEffect. rewrite Hr.
    destruct (JsNumber.lt _ _); [|done].
    by rewrite filter_missed_none.
Qed.

Lemma complete_reading_needs_no_correction_witness :
  Forall (fun w => Practice.correct w = true)
    (Feedback.getWordFeedback JsString.lowerLatin1
       (Some {| Feedback.result :=
                  Some {| Feedback.spoken_text :=
                            Some (JsString.js "Well... SAT, the cat?");
                          Feedback.score := JsNumber.lit_0_4 |} |})
       [Examples.sentence "The cat sat." false 0] 0).
Proof.
  apply (complete_reading_needs_no_correction JsString.lowerLatin1
           {| Feedback.result :=
                Some {| Feedback.spoken_text :=
                          Some (JsString.js "Well... SAT, the cat?");
                        Feedback.score := JsNumber.lit_0_4 |} |}
           {| Feedback.spoken_text :=
                Some (JsString.js "Well... SAT, the cat?");
              Feedback.score := JsNumber.lit_0_4 |}
           [Examples.sentence "The cat sat." false 0] 0
           (Examples.sentence "The cat sat." false 0) None
           eq_refl eq_refl).
  intros w Hw. apply list_elem_of_In in Hw. apply list_elem_of_In.
  vm_compute in Hw. vm_compute. tauto.
Defined.

(** X16. With a result that has no transcript (no spoken text or an
    empty one) a word of the active sentence is marked correct only if
    it is the empty word; with a score below 0.85 and a word that is
    not empty, the correction cancels the speech and, a second later,
    speaks at rate 0.9 the words of the sentence that are not empty, in
    order and separated by commas.  This holds of every text, whatever
    the engine's case table does outside Latin-1. *)
Theorem missing_transcript_marks_words_wrong
    (toLowerCase : JsString.jsstring -> JsString.jsstring)
    (pr : Feedback.PracticeResult) (r : Feedback.Result)
    (sentences : list Segmenter.Sentence)
    (active : nat) (s : Segmenter.Sentence)
    (selectedVoice : option Scheduler.Voice) :
  JsString.agreesOnLatin1 toLowerCase ->
  Feedback.result pr = Some r ->
  sentences !! active = Some s ->
  Feedback.spokenText pr = [] ->
  let wordFeedback :=
    Feedback.getWordFeedback toLowerCase (Some pr) sentences active in
  let said :=
    List.filter (fun w => negb (JsString.isEmpty w))
      (Feedback.words toLowerCase (Segmenter.text s)) in
  wordFeedback
  = map (fun w => {| Practice.word := w;
                     Practice.correct := JsString.isEmpty w |})
      (Feedback.words toLowerCase (Segmenter.text s))
  /\ (JsNumber.lt (Feedback.score r) JsNumber.lit_0_85 = true ->
      said <> [] ->
      Feedback.correctionEffect (Some pr) wordFeedback selectedVoice
      = [Feedback.now Scheduler.cancel;
         Feedback.later 1000
           (Scheduler.speak
              {| Scheduler.utteranceText :=
                   JsString.js "Let's try these words again: "
                     ++ Feedback.join (JsString.js ", ") said;
                 Scheduler.voice := selectedVoice;
                 Scheduler.rate := JsNumber.lit_0_9 |})])
  /\ (JsNumber.lt (Feedback.score r) JsNumber.lit_0_85 = false ->
      Feedback.correctionEffect (Some pr) wordFeedback selectedVoice = []).
Proof.
  intros Hlow Hr Hs Ht wordFeedback said. unfold wordFeedback, said.
  unfold Feedback.getWordFeedback. rewrite Hs, Ht, (words_empty _ Hlow).
  rewrite feedback_of_silence.
  split; [done|split].
  - intros Hscore Hsaid. unfold Feedback.correctionEffect.
    rewrite Hr, Hscore, missed_of_silence.
    destruct (List.filter _ _) as [|w l]; [done|]. reflexivity.
  - intros Hscore. unfold Feedback.correctionEffect.
    by rewrite Hr, Hscore.
Qed.

Lemma missing_transcript_marks_words_wrong_witness :
  Feedback.getWordFeedback JsString.lowerLatin1
    (Some {| Feedback.result :=
               Some {| Feedback.spoken_text := None;
                       Feedback.score := JsNumber.lit_0_4 |} |})
    [Examples.sentence "The cat - sat." false 0] 0
  = map (fun w => {| Practice.word := w;
                     Practice.correct := JsString.isEmpty w |})
      (Feedback.words JsString.lowerLatin1 (JsString.js "The cat - sat.")).
Proof.
  apply (proj1 (missing_transcript_marks_words_wrong JsString.lowerLatin1
                  {| Feedback.result :=
                       Some {| Feedback.spoken_text := None;
                               Feedback.score := JsNumber.lit_0_4 |} |}
                  {| Feedback.spoken_text := None;
                     Feedback.score := JsNumber.lit_0_4 |}
                  [Examples.sentence "The cat - sat." false 0] 0
                  (Examples.sentence "The cat - sat." false 0) None
                  (fun s _ => eq_refl) eq_refl eq_refl eq_refl)).
Defined.

Section WordMapFacts.
Import JsString Practice.

Lemma splitOn_nonempty sep cur s : splitOn sep cur s <> [].
Proof.
  revert cur. induction s as [|c s IH]; intros cur; simpl; [done|].
  destruct (c =? sep)%N; [done|apply IH].
Qed.

Lemma word_imap (spk exp : list jsstring) :
  map word
    (imap (fun i word =>
             {| word := word;
                correct := bool_decide (spk !! i = Some word) |}) exp)
  = exp.
Proof.
  apply list_eq. intros i.
  rewrite list_lookup_fmap, list_lookup_imap.
  by destruct (exp !! i).
Qed.

End WordMapFacts.

(** X17. The word map always lists the lower-cased pieces of the
    expected text, of which there is at least one; without a transcript
    none of them is marked correct, and with a transcript that the
    engine lowers to the same text as the expected one all of them
    are.  This holds of every text, whatever the engine's case
    table. *)
Theorem word_match_map_edges
    (toLowerCase : JsString.jsstring -> JsString.jsstring)
    (expected : JsString.jsstring) :
  (forall spoken,
      map Practice.word (Practice.getWordMatchMap toLowerCase expected spoken)
      = JsString.splitSpace (toLowerCase expected)
      /\ Practice.getWordMatchMap toLowerCase expected spoken <> [])
  /\ Forall (fun m => Practice.correct m = false)
       (Practice.getWordMatchMap toLowerCase expected None)
  /\ (forall spoken,
        toLowerCase spoken = toLowerCase expected ->
        Forall (fun m => Practice.correct m = true)
          (Practice.getWordMatchMap toLowerCase expected (Some spoken))).
Proof.
  split; [|split].
  - intros spoken. unfold Practice.getWordMatchMap.
    split; [apply word_imap|].
    intros Hnil. apply (f_equal length) in Hnil.
    rewrite length_imap in Hnil.
    apply (splitOn_nonempty 32 [] (toLowerCase expected)).
    by apply length_zero_iff_nil.
  - apply Forall_forall. intros m Hm. unfold Practice.getWordMatchMap in Hm.
    apply elem_of_lookup_imap_1 in Hm as (i & w & -> & _).
    cbn [Practice.correct].
    apply bool_decide_eq_false_2. by rewrite lookup_nil.
  - intros spoken Heq. apply Forall_forall. intros m Hm.
    unfold Practice.getWordMatchMap in Hm. rewrite Heq in Hm.
    apply elem_of_lookup_imap_1 in Hm as (i & w & -> & Hw).
    cbn [Practice.correct].
    by apply bool_decide_eq_true_2.
Qed.

Lemma word_match_map_edges_witness :
  Forall (fun m => Practice.correct m = true)
    (Practice.getWordMatchMap JsString.lowerLatin1
       (JsString.js "The cat sat.") (Some (JsString.js "the CAT sat."))).
Proof.
  apply (proj2 (proj2 (word_match_map_edges JsString.lowerLatin1
                         (JsString.js "The cat sat.")))
           (JsString.js "the CAT sat.")).
  reflexivity.
Defined.

Section AssistantFacts.
Import JsString Assistant.

Lemma counted_step w e : counted w -> counted (step w e).
Proof.
  unfold counted. intros [Hle Hts].
  destruct e as [|response| |rendered audioBlob|response| |index|]; simpl.
  - done.
  - destruct (uploads w); [done|].
    destruct response as [data|]; simpl; [|done].
    by destruct (Data.uploaded data).
  - unfold readCurrentSentence. by destruct (_ || _).
  - unfold practiceCurrentSentence. by destruct (_ !! _).
  - destruct (evaluations w); [done|].
    destruct response as [data|]; simpl; [|done].
    destruct (Data.success data); simpl; [|done].
    destruct (Data.is_correct data); simpl; split; try done; lia.
  - destruct (timeouts w); [done|]. simpl. done.
  - done.
  - split; [lia|done].
Qed.

Lemma settled_step w e :
  isRestart e = false -> settled w -> settled (step w e).
Proof.
  unfold settled. intros He Hw.
  destruct e as [|response| |rendered audioBlob|response| |index|];
    simpl; try discriminate He.
  - unfold count. simpl. lia.
  - destruct (uploads w); [done|].
    destruct response as [data|]; simpl.
    + destruct (Data.uploaded data); unfold count; simpl; lia.
    + unfold count; simpl; lia.
  - unfold readCurrentSentence, count.
    destruct (_ || _); simpl; lia.
  - unfold practiceCurrentSentence, count.
    destruct (_ !! _); simpl; lia.
  - destruct (evaluations w); [done|].
    destruct response as [data|]; simpl.
    + destruct (Data.success data); simpl.
      * destruct (Data.is_correct data); unfold count; simpl; lia.
      * unfold count; simpl; lia.
    + unfold count; simpl; lia.
  - destruct (timeouts w) eqn:Ht; [lia|]. simpl. lia.
  - unfold count; simpl; lia.
Qed.

Lemma counted_run events w : counted w -> counted (run w events).
Proof.
  revert w. induction events as [|e l IH]; intros w Hw; [done|].
  simpl. apply IH. by apply counted_step.
Qed.

Lemma settled_run events w :
  forallb (fun e => negb (isRestart e)) events = true ->
  settled w -> settled (run w events).
Proof.
  revert w. induction events as [|e l IH]; intros w He Hw; [done|].
  simpl in He. apply andb_prop in He as [He Hl].
  simpl. apply IH; [done|]. apply settled_step; [|done].
  by destruct (isRestart e).
Qed.

Lemma step_recordingStopped w audioBlob s :
  allSentences (app w) !! currentSentenceIndex (app w) = Some s ->
  step w (recordingStopped (app w) audioBlob)
  = {| app := setStatus evaluating (setIsProcessing true (app w));
       timeouts := timeouts w;
       evaluations := S (evaluations w);
       uploads := uploads w |}.
Proof.
  intros Hcur. unfold step, practiceCurrentSentence. rewrite Hcur.
  unfold after, count. simpl. f_equal; lia.
Qed.

Lemma step_correct w n data :
  evaluations w = S n ->
  Data.success data = true ->
  Data.is_correct data = true ->
  exists a,
    step w (evaluationSettles (Some data))
    = {| app := a; timeouts := S (timeouts w);
         evaluations := n; uploads := uploads w |}
    /\ allSentences a = allSentences (app w)
    /\ currentSentenceIndex a = currentSentenceIndex (app w).
Proof.
  intros He Hs Hc. unfold step, practiceCurrentSentenceResumed.
  rewrite He, Hs, Hc. unfold after, count. simpl.
  eexists. split; [f_equal; lia|]. done.
Qed.

End AssistantFacts.

(** X18. Whatever happens from the start of the assistant, the correct
    attempts never exceed the attempts and the count of sentences stays
    0; as long as the session is not restarted, the completed sentences
    and the advances still waiting for their timeout add up to the
    correct attempts. *)
Theorem session_counters (events : list Assistant.Event) :
  let w := Assistant.run Assistant.start events in
  let stats := Assistant.sessionStats (Assistant.app w) in
  Assistant.correctAttempts stats <= Assistant.totalAttempts stats
  /\ Assistant.totalSentences stats = 0
  /\ (forallb (fun e => negb (Assistant.isRestart e)) events = true ->
      Assistant.completedSentences stats + Assistant.timeouts w
      = Assistant.correctAttempts stats).
Proof.
  intros w stats.
  destruct (counted_run events Assistant.start) as [Hle Hts].
  { split; [simpl; lia|done]. }
  split; [done|]. split; [done|].
  intros He. by apply (settled_run events Assistant.start He).
Qed.

Lemma session_counters_witness :
  Assistant.completedSentences
    (Assistant.sessionStats
       (Assistant.app
          (Assistant.run Assistant.start
             [Assistant.fileChosen;
              Assistant.uploadSettles
                (Some {| Data.uploaded := true;
                         Data.sentences :=
                           [{| Data.text := JsString.js "The cat sat." |}];
                         Data.pdf_url := JsString.js "a.pdf" |});
              Assistant.recordingStopped
                (Assistant.setAllSentences
                   [{| Data.text := JsString.js "The cat sat." |}]
                   Assistant.initial) [];
              Assistant.evaluationSettles
                (Some {| Data.success := true; Data.is_correct := true;
                         Data.word_feedback := None;
                         Data.feedback := JsString.js "Good" |})])))
  + 1
  = 1.
Proof.
  apply (proj2 (proj2 (session_counters
           [Assistant.fileChosen;
            Assistant.uploadSettles
              (Some {| Data.uploaded := true;
                       Data.sentences :=
                         [{| Data.text := JsString.js "The cat sat." |}];
                       Data.pdf_url := JsString.js "a.pdf" |});
            Assistant.recordingStopped
              (Assistant.setAllSentences
                 [{| Data.text := JsString.js "The cat sat." |}]
                 Assistant.initial) [];
            Assistant.evaluationSettles
              (Some {| Data.success := true; Data.is_correct := true;
                       Data.word_feedback := None;
                       Data.feedback := JsString.js "Good" |})]))).
  reflexivity.
Defined.

(** X20. After a correct attempt on the last sentence and its timeout
    the index is past the end: the read-aloud button then does nothing,
    and a further attempt sends no request, reports an error and leaves
    the counters as they are. *)
Theorem practice_after_last_sentence
    (w : Assistant.World) (audioBlob audioBlob' : list Z)
    (data : Data.Evaluation) :
  Assistant.currentSentenceIndex (Assistant.app w) + 1
  = length (Assistant.allSentences (Assistant.app w)) ->
  Data.success data = true ->
  Data.is_correct data = true ->
  let a :=
    Assistant.app
      (Assistant.run w
         [Assistant.recordingStopped (Assistant.app w) audioBlob;
          Assistant.evaluationSettles (Some data);
          Assistant.timeoutFires]) in
  Assistant.currentSentenceIndex a = length (Assistant.allSentences a)
  /\ Assistant.readCurrentSentence a a = a
  /\ snd (Assistant.practiceCurrentSentence a audioBlob' a) = []
  /\ Assistant.status (fst (Assistant.practiceCurrentSentence a audioBlob' a))
     = Assistant.practiceError
  /\ Assistant.isProcessing
       (fst (Assistant.practiceCurrentSentence a audioBlob' a)) = false
  /\ Assistant.sessionStats
       (fst (Assistant.practiceCurrentSentence a audioBlob' a))
     = Assistant.sessionStats a.
Proof.
  intros Hlast Hs Hc.
  destruct (Assistant.allSentences (Assistant.app w)
              !! Assistant.currentSentenceIndex (Assistant.app w))
    as [s|] eqn:Hcur.
  2:{ apply lookup_ge_None in Hcur. lia. }
  cbn [Assistant.run fold_left].
  rewrite (step_recordingStopped w audioBlob s Hcur).
  destruct (step_correct
              {| Assistant.app :=
                   Assistant.setStatus Assistant.evaluating
                     (Assistant.setIsProcessing true (Assistant.app w));
                 Assistant.timeouts := Assistant.timeouts w;
                 Assistant.evaluations := S (Assistant.evaluations w);
                 Assistant.uploads := Assistant.uploads w |}
              (Assistant.evaluations w) data eq_refl Hs Hc)
    as (a1 & -> & Hall1 & Hidx1).
  cbn [Assistant.step Assistant.timeouts Assistant.app].
  set (a := Assistant.advance a1).
  assert (Assistant.allSentences a = Assistant.allSentences (Assistant.app w))
    as Hall by (subst a; simpl; by rewrite Hall1).
  assert (Assistant.currentSentenceIndex a
          = Assistant.currentSentenceIndex (Assistant.app w) + 1)
    as Hidx by (subst a; simpl; by rewrite Hidx1).
  assert (Assistant.allSentences a !! Assistant.currentSentenceIndex a = None)
    as Hnone.
  { apply lookup_ge_None. rewrite Hall, Hidx. lia. }
  clearbody a.
  split; [rewrite Hall, Hidx; lia|].
  unfold Assistant.readCurrentSentence, Assistant.practiceCurrentSentence.
  rewrite Hnone. split.
  { rewrite bool_decide_eq_false_2; [by rewrite orb_true_r|].
    by intros [? ?]. }
  done.
Qed.

Lemma practice_after_last_sentence_witness :
  Assistant.currentSentenceIndex
    (Assistant.app
       (Assistant.run
          {| Assistant.app :=
               Assistant.setAllSentences
                 [{| Data.text := JsString.js "The cat sat." |}]
                 Assistant.initial;
             Assistant.timeouts := 0; Assistant.evaluations := 0;
             Assistant.uploads := 0 |}
          [Assistant.recordingStopped
             (Assistant.setAllSentences
                [{| Data.text := JsString.js "The cat sat." |}]
                Assistant.initial) [1%Z];
           Assistant.evaluationSettles
             (Some {| Data.success := true; Data.is_correct := true;
                      Data.word_feedback := None;
                      Data.feedback := JsString.js "Good" |});
           Assistant.timeoutFires]))
  = 1.
Proof.
  apply (proj1 (practice_after_last_sentence
                  {| Assistant.app :=
                       Assistant.setAllSentences
                         [{| Data.text := JsString.js "The cat sat." |}]
                         Assistant.initial;
                     Assistant.timeouts := 0; Assistant.evaluations := 0;
                     Assistant.uploads := 0 |}
                  [1%Z] []
                  {| Data.success := true; Data.is_correct := true;
                     Data.word_feedback := None;
                     Data.feedback := JsString.js "Good" |}
                  eq_refl eq_refl eq_refl)).
Defined.

Section RecordingFacts.
Import JsString Wav Recording.
Context (decodeAudioData : list Z -> option AudioBuffer).

Lemma kept_app (a b : list (list Z)) : kept (a ++ b) = kept a ++ kept b.
Proof. apply List.filter_app. Qed.

(** The data events of one recorder add the chunks that are kept. *)
Lemma run_dataAvailable (id : nat) (r : Recorder) (chunks : list (list Z))
    (s : Session) :
  recorders s !! id = Some r ->
  isActive r || stopQueued r = true ->
  run decodeAudioData s (map (dataAvailable id) chunks)
  = {| isRecording := isRecording s;
       mediaRecorderRef := mediaRecorderRef s;
       audioChunksRef := audioChunksRef s ++ kept chunks;
       recorders := recorders s;
       pending := pending s;
       log := log s |}.
Proof.
  revert s. induction chunks as [|data l IH]; intros s Hr Hlive.
  { destruct s. simpl. by rewrite app_nil_r. }
  change (run decodeAudioData s (map (dataAvailable id) (data :: l)))
    with (run decodeAudioData
            (step decodeAudioData s (dataAvailable id data))
            (map (dataAvailable id) l)).
  assert (step decodeAudioData s (dataAvailable id data)
          = ondataavailable data s) as ->.
  { simpl. by rewrite Hr, Hlive. }
  unfold ondataavailable, kept. cbn [List.filter].
  destruct (0 <? length data).
  - rewrite IH; [|done|done]. simpl. unfold kept. by rewrite <- app_assoc.
  - by rewrite IH.
Qed.

Lemma coherent_step (s : Session) (e : Event) :
  coherent s -> coherent (step decodeAudioData s e).
Proof.
  intros Hs. pose proof Hs as (Hrec & Href & Hq).
  destruct e as [|tracks| |id data|id]; simpl.
  - unfold handlePracticeClick.
    destruct (isRecording s) eqn:Hi; [|first [exact Hs|done]].
    unfold stopRecording. rewrite Hi.
    destruct (mediaRecorderRef s) as [current|] eqn:Hc; [|first [exact Hs|done]].
    split; [done|]. split.
    + intros c Hcur. simpl in *. rewrite length_alter. by apply Href.
    + simpl. apply Forall_alter; [done|].
      intros r _ Hr. unfold stop.
      destruct (isActive r) eqn:Ha; [simpl; discriminate|by rewrite Ha].
  - destruct (pending s); [first [exact Hs|done]|].
    split; [|split]; simpl.
    + intros _. eexists _, _. split; [done|].
      split; [by apply list_lookup_middle|done].
    + intros c [= <-]. rewrite length_app. simpl. lia.
    + apply Forall_app. split; [done|]. by repeat constructor.
  - destruct (pending s); first [exact Hs|done].
  - destruct (recorders s !! id) as [r|]; [|first [exact Hs|done]].
    destruct (_ || _); [|first [exact Hs|done]].
    unfold ondataavailable. destruct (0 <? length data); first [exact Hs|done].
  - unfold stopFires.
    destruct (recorders s !! id) as [r|] eqn:Hr; [|first [exact Hs|done]].
    destruct (stopQueued r) eqn:Hsq; [|first [exact Hs|done]].
    split; [|split]; simpl.
    + intros Hi. destruct (Hrec Hi) as (c & rc & Hc & Hrc & Hact).
      exists c, rc. split; [first [exact Hs|done]|]. split; [|first [exact Hs|done]].
      rewrite list_lookup_insert_ne; [done|].
      intros <-. rewrite Hr in Hrc. injection Hrc as <-.
      eapply Forall_forall in Hq; [|by eapply list_elem_of_lookup_2].
      rewrite (Hq Hact) in Hsq. discriminate Hsq.
    + intros c Hc. rewrite length_insert. by apply Href.
    + apply Forall_insert; [done|]. done.
Qed.

Lemma orphaned_step (id : nat) (tracks : list nat) (s : Session)
    (e : Event) :
  orphaned id tracks s -> orphaned id tracks (step decodeAudioData s e).
Proof.
  intros Hs. pose proof Hs as (Hid & Hne & Href).
  destruct e as [|tracks'| |id' data|id']; simpl.
  - unfold handlePracticeClick.
    destruct (isRecording s) eqn:Hi; [|first [exact Hs|done]].
    unfold stopRecording. rewrite Hi.
    destruct (mediaRecorderRef s) as [current|] eqn:Hc; [|first [exact Hs|done]].
    split; [|split]; simpl.
    + rewrite list_lookup_alter_ne; [done|]. congruence.
    + congruence.
    + intros c Hcur. rewrite length_alter. apply Href. congruence.
  - destruct (pending s); [first [exact Hs|done]|].
    pose proof (lookup_lt_Some _ _ _ Hid) as Hlt.
    split; [|split]; simpl.
    + by rewrite lookup_app_l.
    + intros [= Heq]. lia.
    + intros c [= <-]. rewrite length_app. simpl. lia.
  - destruct (pending s); first [exact Hs|done].
  - destruct (recorders s !! id') as [r|]; [|first [exact Hs|done]].
    destruct (_ || _); [|first [exact Hs|done]].
    unfold ondataavailable. destruct (0 <? length data); first [exact Hs|done].
  - unfold stopFires.
    destruct (recorders s !! id') as [r|] eqn:Hr; [|first [exact Hs|done]].
    destruct (stopQueued r) eqn:Hsq; [|first [exact Hs|done]].
    split; [|split]; simpl.
    + rewrite list_lookup_insert_ne; [done|].
      intros <-. rewrite Hid in Hr. injection Hr as <-.
      discriminate Hsq.
    + done.
    + intros c Hc. rewrite length_insert. by apply Href.
Qed.

Lemma coherent_run (events : list Event) (s : Session) :
  coherent s -> coherent (run decodeAudioData s events).
Proof.
  revert s. induction events as [|e l IH]; intros s Hs; [done|].
  simpl. apply IH. by apply coherent_step.
Qed.

Lemma orphaned_run (id : nat) (tracks : list nat) (events : list Event)
    (s : Session) :
  orphaned id tracks s -> orphaned id tracks (run decodeAudioData s events).
Proof.
  revert s. induction events as [|e l IH]; intros s Hs; [done|].
  simpl. apply IH. by apply orphaned_step.
Qed.

Lemma run_app (s : Session) (l1 l2 : list Event) :
  run decodeAudioData s (l1 ++ l2)
  = run decodeAudioData (run decodeAudioData s l1) l2.
Proof. apply fold_left_app. Qed.

End RecordingFacts.

(** X21. One recording, from a click while idle to the stop event: the
    component records after the microphone is granted and no longer
    after the second click; the stop handler runs once, on the chunks
    that are not empty of this recording alone and the tracks of its
    stream, in the order they came, whether they came before or after
    the second click. *)
Theorem recording_round
    (decodeAudioData : list Z -> option Wav.AudioBuffer)
    (s : Recording.Session) (tracks : list nat)
    (before after : list (list Z)) :
  Recording.isRecording s = false ->
  Recording.pending s = 0 ->
  let id := length (Recording.recorders s) in
  let recordingNow :=
    Recording.run decodeAudioData s
      ([Recording.practiceClicked; Recording.microphoneGranted tracks]
         ++ map (Recording.dataAvailable id) before) in
  let done :=
    Recording.run decodeAudioData recordingNow
      ([Recording.practiceClicked]
         ++ map (Recording.dataAvailable id) after
         ++ [Recording.stopEvent id]) in
  Recording.isRecording recordingNow = true
  /\ Recording.isRecording done = false
  /\ Recording.log done
     = Recording.log s
         ++ map Recording.fromStopHandler
              (fst (Wav.onstop decodeAudioData
                      (Recording.kept (before ++ after)) tracks))
  /\ Recording.recorders done !! id
     = Some {| Recording.stream := tracks; Recording.isActive := false;
               Recording.stopQueued := false |}.
Proof.
  intros Hi Hp id recordingNow done.
  set (fresh := {| Recording.stream := tracks; Recording.isActive := true;
                   Recording.stopQueued := false |}).
  assert (recordingNow
          = {| Recording.isRecording := true;
               Recording.mediaRecorderRef := Some id;
               Recording.audioChunksRef := Recording.kept before;
               Recording.recorders := Recording.recorders s ++ [fresh];
               Recording.pending := 0;
               Recording.log := Recording.log s |}) as Hnow.
  { unfold recordingNow. rewrite run_app. cbn [Recording.run fold_left].
    fold (Recording.run decodeAudioData).
    unfold Recording.step at 2, Recording.handlePracticeClick.
    rewrite Hi. unfold Recording.step, Recording.startRecording.
    cbn [Recording.pending].
    rewrite (run_dataAvailable decodeAudioData id fresh);
      [|by apply list_lookup_middle|reflexivity].
    cbn. by rewrite Hp. }
  set (halted := {| Recording.stream := tracks; Recording.isActive := false;
                    Recording.stopQueued := true |}).
  assert (done
          = Recording.stopFires decodeAudioData id
              {| Recording.isRecording := false;
                 Recording.mediaRecorderRef := Some id;
                 Recording.audioChunksRef :=
                   Recording.kept before ++ Recording.kept after;
                 Recording.recorders := Recording.recorders s ++ [halted];
                 Recording.pending := 0;
                 Recording.log := Recording.log s |}) as Hdone.
  { unfold done. rewrite Hnow. rewrite run_app.
    cbn [Recording.run fold_left]. fold (Recording.run decodeAudioData).
    assert (Recording.step decodeAudioData
              {| Recording.isRecording := true;
                 Recording.mediaRecorderRef := Some id;
                 Recording.audioChunksRef := Recording.kept before;
                 Recording.recorders := Recording.recorders s ++ [fresh];
                 Recording.pending := 0;
                 Recording.log := Recording.log s |}
              Recording.practiceClicked
            = {| Recording.isRecording := false;
                 Recording.mediaRecorderRef := Some id;
                 Recording.audioChunksRef := Recording.kept before;
                 Recording.recorders := Recording.recorders s ++ [halted];
                 Recording.pending := 0;
                 Recording.log := Recording.log s |}) as ->.
    { unfold Recording.step, Recording.handlePracticeClick,
        Recording.stopRecording.
      cbn [Recording.isRecording Recording.mediaRecorderRef
           Recording.recorders Recording.audioChunksRef Recording.pending
           Recording.log].
      f_equal. unfold id.
      rewrite <- (Nat.add_0_r (length (Recording.recorders s))).
      by rewrite alter_app_r. }
    rewrite run_app.
    rewrite (run_dataAvailable decodeAudioData id halted);
      [reflexivity| |reflexivity].
    by apply list_lookup_middle. }
  split; [by rewrite Hnow|].
  rewrite Hdone. unfold Recording.stopFires.
  cbn [Recording.recorders].
  rewrite (list_lookup_middle (Recording.recorders s) [] halted id eq_refl).
  cbn [Recording.stopQueued halted Recording.isRecording Recording.log
       Recording.recorders Recording.audioChunksRef Recording.stream].
  split; [done|]. split; [by rewrite kept_app|].
  unfold id. rewrite <- (Nat.add_0_r (length (Recording.recorders s))).
  rewrite insert_app_r. by apply list_lookup_middle.
Qed.

Lemma recording_round_witness :
  Recording.log
    (Recording.run (fun _ => None)
       (Recording.run (fun _ => None) Recording.idle
          ([Recording.practiceClicked; Recording.microphoneGranted [7]]
             ++ map (Recording.dataAvailable 0) []))
       ([Recording.practiceClicked]
          ++ map (Recording.dataAvailable 0) [[]; [26; 69]%Z]
          ++ [Recording.stopEvent 0]))
  = Recording.log Recording.idle
      ++ map Recording.fromStopHandler
           (fst (Wav.onstop (fun _ => None)
                   (Recording.kept ([] ++ [[]; [26; 69]%Z])) [7])).
Proof.
  apply (recording_round (fun _ => None) Recording.idle [7] []
           [[]; [26; 69]%Z] eq_refl eq_refl).
Defined.

(** X22. Two clicks before the microphone is granted start two
    recorders, and the ref keeps the second only: whatever happens
    afterwards, the first recorder goes on recording and its stop
    handler, the only place where the tracks of its stream are stopped,
    never runs. *)
Theorem double_start_orphans_first_recorder
    (decodeAudioData : list Z -> option Wav.AudioBuffer)
    (s : Recording.Session) (tracks tracks' : list nat)
    (events : list Recording.Event) :
  Recording.isRecording s = false ->
  Recording.recorders
    (Recording.run decodeAudioData s
       ([Recording.practiceClicked; Recording.practiceClicked;
         Recording.microphoneGranted tracks;
         Recording.microphoneGranted tracks']
          ++ events))
  !! length (Recording.recorders s)
  = Some {| Recording.stream := tracks; Recording.isActive := true;
            Recording.stopQueued := false |}.
Proof.
  intros Hi. rewrite run_app.
  apply (orphaned_run decodeAudioData (length (Recording.recorders s))
           tracks events).
  cbn [Recording.run fold_left].
  unfold Recording.step at 4, Recording.handlePracticeClick. rewrite Hi.
  unfold Recording.step at 3, Recording.handlePracticeClick.
  cbn [Recording.startRecording Recording.isRecording]. rewrite Hi.
  unfold Recording.step, Recording.startRecording.
  cbn [Recording.pending Recording.answered Recording.startRecordingResumed
       Recording.recorders Recording.isRecording Recording.mediaRecorderRef
       Recording.audioChunksRef Recording.log].
  split; [|split]; simpl.
  - rewrite lookup_app_l.
    + by apply list_lookup_middle.
    + rewrite length_app. simpl. lia.
  - rewrite length_app. simpl. intros [= Heq]. lia.
  - intros c [= <-]. rewrite !length_app. simpl. lia.
Qed.

Lemma double_start_orphans_first_recorder_witness :
  Recording.recorders
    (Recording.run (fun _ => None) Recording.idle
       ([Recording.practiceClicked; Recording.practiceClicked;
         Recording.microphoneGranted [1];
         Recording.microphoneGranted [2]]
          ++ [Recording.dataAvailable 0 [5%Z]; Recording.practiceClicked;
              Recording.stopEvent 1; Recording.stopEvent 0;
              Recording.practiceClicked]))
  !! length (Recording.recorders Recording.idle)
  = Some {| Recording.stream := [1]; Recording.isActive := true;
            Recording.stopQueued := false |}.
Proof.
  apply (double_start_orphans_first_recorder (fun _ => None) Recording.idle
           [1] [2]).
  reflexivity.
Defined.

(** X23. Whatever happens from the idle component, the recorder in the
    ref exists, and whenever the component says it records that
    recorder is recording: a click on stop always finds a recorder that
    records. *)
Theorem recording_flag_coherent
    (decodeAudioData : list Z -> option Wav.AudioBuffer)
    (events : list Recording.Event) :
  let s := Recording.run decodeAudioData Recording.idle events in
  (Recording.isRecording s = true ->
   exists current r,
     Recording.mediaRecorderRef s = Some current
     /\ Recording.recorders s !! current = Some r
     /\ Recording.isActive r = true
     /\ Recording.isActive
          <$> Recording.recorders (Recording.handlePracticeClick s)
              !! current
        = Some false)
  /\ (forall current, Recording.mediaRecorderRef s = Some current ->
                      current < length (Recording.recorders s)).
Proof.
  intros s.
  destruct (coherent_run decodeAudioData events Recording.idle)
    as (Hrec & Href & _).
  { split; [discriminate|]. split; [discriminate|constructor]. }
  fold s in Hrec, Href. split; [|done].
  intros Hi. destruct (Hrec Hi) as (c & r & Hc & Hr & Hact).
  exists c, r. split; [done|]. split; [done|]. split; [done|].
  unfold Recording.handlePracticeClick, Recording.stopRecording.
  rewrite Hi, Hc. cbn [Recording.recorders].
  rewrite list_lookup_alter_eq, Hr. simpl.
  unfold Recording.stop. by rewrite Hact.
Qed.

Lemma recording_flag_coherent_witness :
  exists current r,
    Recording.mediaRecorderRef
      (Recording.run (fun _ => None) Recording.idle
         [Recording.practiceClicked; Recording.microphoneGranted [3]])
    = Some current
    /\ Recording.recorders
         (Recording.run (fun _ => None) Recording.idle
            [Recording.practiceClicked; Recording.microphoneGranted [3]])
       !! current = Some r
    /\ Recording.isActive r = true.
Proof.
  destruct (proj1 (recording_flag_coherent (fun _ => None)
                     [Recording.practiceClicked;
                      Recording.microphoneGranted [3]]) eq_refl)
    as (current & r & H1 & H2 & H3 & _).
  by exists current, r.
Defined.

Section PanelFacts.
Import JsString Panel.

Lemma panel_run_app (s : State) (l1 l2 : list Event) :
  run s (l1 ++ l2) = run (run s l1) l2.
Proof. apply fold_left_app. Qed.

(** The data events of one recorder add the chunks that are kept. *)
Lemma panel_run_dataAvailable (id : nat) (r : Recorder)
    (data : list (list Z)) (s : State) :
  recorders s !! id = Some r ->
  isActive r || stopQueued r = true ->
  run s (map (dataAvailable id) data)
  = {| sentenceText := sentenceText s;
       chunks := chunks s ++ kept data;
       recording := recording s;
       result := result s;
       mediaRecorderRef := mediaRecorderRef s;
       recorders := recorders s;
       pending := pending s;
       posted := posted s;
       awaiting := awaiting s |}.
Proof.
  revert s. induction data as [|d l IH]; intros s Hr Hlive.
  { destruct s. simpl. by rewrite app_nil_r. }
  change (run s (map (dataAvailable id) (d :: l)))
    with (run (step s (dataAvailable id d)) (map (dataAvailable id) l)).
  assert (step s (dataAvailable id d) = ondataavailable d s) as ->.
  { simpl. by rewrite Hr, Hlive. }
  unfold ondataavailable, kept. cbn [List.filter].
  destruct (0 <? length d).
  - rewrite IH; [|done|done]. simpl. unfold kept. by rewrite <- app_assoc.
  - by rewrite IH.
Qed.

End PanelFacts.

(** X24. One recording of the practice panel, from the start button to
    the stop event: the request sent holds the sentence and the chunks
    that had come when the stop button was clicked, and none of those
    that came after the click, though the state holds them all; with
    no chunk before the click the audio sent is empty. *)
Theorem panel_posts_chunks_before_click
    (s : Panel.State) (before after : list (list Z)) :
  Panel.recording s = false ->
  Panel.pending s = 0 ->
  let id := length (Panel.recorders s) in
  let done :=
    Panel.run s
      ([Panel.startClicked; Panel.microphoneGranted]
         ++ map (Panel.dataAvailable id) before
         ++ [Panel.stopClicked]
         ++ map (Panel.dataAvailable id) after
         ++ [Panel.stopEvent id]) in
  Panel.posted done
  = Panel.posted s
      ++ [{| Panel.audio := concat (Panel.kept before);
             Panel.word := Panel.sentenceText s |}]
  /\ Panel.chunks done = Panel.kept before ++ Panel.kept after
  /\ Panel.recording done = false
  /\ (before = [] ->
      Panel.audio <$> last (Panel.posted done) = Some []).
Proof.
  intros Hi Hp id done.
  set (fresh := {| Panel.isActive := true; Panel.stopQueued := false;
                   Panel.onstop := None |}).
  set (halted := {| Panel.isActive := false; Panel.stopQueued := true;
                    Panel.onstop :=
                      Some (Panel.kept before, Panel.sentenceText s) |}).
  assert (done
          = Panel.stopFires id
              {| Panel.sentenceText := Panel.sentenceText s;
                 Panel.chunks := Panel.kept before ++ Panel.kept after;
                 Panel.recording := false;
                 Panel.result := None;
                 Panel.mediaRecorderRef := Some id;
                 Panel.recorders := Panel.recorders s ++ [halted];
                 Panel.pending := 0;
                 Panel.posted := Panel.posted s;
                 Panel.awaiting := Panel.awaiting s |}) as Hdone.
  { unfold done.
    change ([Panel.startClicked; Panel.microphoneGranted]
              ++ map (Panel.dataAvailable id) before
              ++ [Panel.stopClicked]
              ++ map (Panel.dataAvailable id) after
              ++ [Panel.stopEvent id])
      with ([Panel.startClicked; Panel.microphoneGranted]
              ++ map (Panel.dataAvailable id) before
              ++ Panel.stopClicked
                   :: (map (Panel.dataAvailable id) after
                         ++ [Panel.stopEvent id])).
    rewrite panel_run_app.
    assert (Panel.run s [Panel.startClicked; Panel.microphoneGranted]
            = {| Panel.sentenceText := Panel.sentenceText s;
                 Panel.chunks := [];
                 Panel.recording := true;
                 Panel.result := None;
                 Panel.mediaRecorderRef := Some id;
                 Panel.recorders := Panel.recorders s ++ [fresh];
                 Panel.pending := 0;
                 Panel.posted := Panel.posted s;
                 Panel.awaiting := Panel.awaiting s |}) as ->.
    { cbn [Panel.run fold_left]. unfold Panel.step at 2. rewrite Hi.
      unfold Panel.step, Panel.startRecording. cbn. by rewrite Hp. }
    rewrite panel_run_app.
    rewrite (panel_run_dataAvailable id fresh);
      [|by apply list_lookup_middle|reflexivity].
    cbn [Panel.sentenceText Panel.chunks Panel.recording Panel.result
         Panel.mediaRecorderRef Panel.recorders Panel.pending Panel.posted
         Panel.awaiting app].
    change (Panel.run ?x (Panel.stopClicked :: ?l))
      with (Panel.run (Panel.step x Panel.stopClicked) l).
    rewrite panel_run_app.
    assert (Panel.step
              {| Panel.sentenceText := Panel.sentenceText s;
                 Panel.chunks := Panel.kept before;
                 Panel.recording := true;
                 Panel.result := None;
                 Panel.mediaRecorderRef := Some id;
                 Panel.recorders := Panel.recorders s ++ [fresh];
                 Panel.pending := 0;
                 Panel.posted := Panel.posted s;
                 Panel.awaiting := Panel.awaiting s |}
              Panel.stopClicked
            = {| Panel.sentenceText := Panel.sentenceText s;
                 Panel.chunks := Panel.kept before;
                 Panel.recording := false;
                 Panel.result := None;
                 Panel.mediaRecorderRef := Some id;
                 Panel.recorders := Panel.recorders s ++ [halted];
                 Panel.pending := 0;
                 Panel.posted := Panel.posted s;
                 Panel.awaiting := Panel.awaiting s |}) as ->.
    { unfold Panel.step, Panel.stopRecording.
      cbn [Panel.sentenceText Panel.chunks Panel.recording Panel.result
           Panel.mediaRecorderRef Panel.recorders Panel.pending
           Panel.posted Panel.awaiting].
      f_equal. unfold id.
      rewrite <- (Nat.add_0_r (length (Panel.recorders s))).
      by rewrite alter_app_r. }
    rewrite (panel_run_dataAvailable id halted);
      [reflexivity|by apply list_lookup_middle|reflexivity]. }
  rewrite Hdone. unfold Panel.stopFires.
  cbn [Panel.recorders].
  rewrite (list_lookup_middle (Panel.recorders s) [] halted id eq_refl).
  cbn [Panel.stopQueued halted Panel.onstop Panel.posted Panel.chunks
       Panel.recording].
  split; [done|]. split; [done|]. split; [done|].
  intros ->. by rewrite last_snoc.
Qed.

Lemma panel_posts_chunks_before_click_witness :
  Panel.audio
    <$> last
          (Panel.posted
             (Panel.run
                {| Panel.sentenceText := JsString.js "The cat sat.";
                   Panel.chunks := []; Panel.recording := false;
                   Panel.result := None; Panel.mediaRecorderRef := None;
                   Panel.recorders := []; Panel.pending := 0;
                   Panel.posted := []; Panel.awaiting := 0 |}
                ([Panel.startClicked; Panel.microphoneGranted]
                   ++ map (Panel.dataAvailable 0) []
                   ++ [Panel.stopClicked]
                   ++ map (Panel.dataAvailable 0) [[26; 69; 223]%Z]
                   ++ [Panel.stopEvent 0])))
  = Some [].
Proof.
  apply (proj2 (proj2 (proj2
           (panel_posts_chunks_before_click
              {| Panel.sentenceText := JsString.js "The cat sat.";
                 Panel.chunks := []; Panel.recording := false;
                 Panel.result := None; Panel.mediaRecorderRef := None;
                 Panel.recorders := []; Panel.pending := 0;
                 Panel.posted := []; Panel.awaiting := 0 |}
              [] [[26; 69; 223]%Z] eq_refl eq_refl)))).
  reflexivity.
Defined.

Section OrderFacts.
Import JsString Segmenter Shape Pages Order.

Lemma endBefore_mono a b out : a <= b -> endBefore a out -> endBefore b out.
Proof.
  intros Hab H. eapply Forall_impl; [done|]. simpl.
  intros s Hs x Hx. specialize (Hs x Hx). lia.
Qed.

Lemma byLastIndex_snoc out s :
  byLastIndex out ->
  (forall b, lastIndex s = Some b -> endBefore b out) ->
  byLastIndex (out ++ [s]).
Proof.
  intros Hout Hs i j si sj a b Hi Hj Hij Ha Hb.
  pose proof (lookup_lt_Some _ _ _ Hj) as Hlt.
  rewrite length_app in Hlt. simpl in Hlt.
  assert (i < length out) as Hilt by lia.
  rewrite lookup_app_l in Hi by done.
  destruct (decide (j < length out)) as [Hjlt|Hjge].
  - rewrite lookup_app_l in Hj by done.
    exact (Hout i j si sj a b Hi Hj Hij Ha Hb).
  - assert (j = length out) as -> by lia.
    rewrite list_lookup_middle in Hj by done. injection Hj as <-.
    specialize (Hs b Hb).
    apply (proj1 (Forall_forall _ _) Hs si); [|done].
    by eapply list_elem_of_lookup_2.
Qed.

Lemma endBefore_snoc b out s :
  endBefore b out -> (forall a, lastIndex s = Some a -> a < b) ->
  endBefore b (out ++ [s]).
Proof.
  intros Hout Hs. apply Forall_app. split; [done|]. by repeat constructor.
Qed.

Lemma OrderInv_empty : OrderInv 0 emptyAcc.
Proof.
  split; simpl; [|constructor|constructor|discriminate].
  intros i j si sj a b Hi. by rewrite lookup_nil in Hi.
Qed.

Lemma last_bound (l : list nat) n b :
  Forall (fun k => k < n) l -> last l = Some b -> b < n.
Proof.
  intros Hl Hb. eapply Forall_forall in Hl; [done|].
  apply last_Some in Hb as [l' ->]. apply elem_of_app. right. by left.
Qed.

(** The flush of the open text, when there is one to push. *)
Lemma OrderInv_push n st t :
  OrderInv n st ->
  hasInk (fullText st) = true ->
  byLastIndex
    (allSentences st
       ++ [{| text := t; isMetadata := false;
              itemIndices := currentItemIndices st |}])
  /\ endBefore n
       (allSentences st
          ++ [{| text := t; isMetadata := false;
                 itemIndices := currentItemIndices st |}]).
Proof.
  intros [Hs Hb Ho Hc] Hink. destruct (Hc Hink) as (b & Hlast & Hbefore).
  split.
  - apply byLastIndex_snoc; [done|]. unfold lastIndex. simpl.
    intros b' Hb'. congruence.
  - apply endBefore_snoc; [done|]. unfold lastIndex. simpl.
    intros a Ha. by eapply last_bound.
Qed.

Lemma OrderInv_flushBeforeMetadata n st :
  AccInv n st -> OrderInv n st ->
  OrderInv n (flushBeforeMetadata st)
  /\ hasInk (fullText (flushBeforeMetadata st)) = false.
Proof.
  intros Ha H. unfold flushBeforeMetadata. rewrite isEmpty_trim.
  destruct (hasInk (fullText st)) eqn:Hink; simpl; [|by rewrite Hink].
  split; [|done].
  destruct (pushPieces_cases (splitRaw (fullText st))
              (currentItemIndices st) (allSentences st)) as [->|[t ->]].
  - apply splitRaw_leadingOnly, Ha.
  - destruct H. split; simpl; [done|done|constructor|discriminate].
  - destruct (OrderInv_push n st t H Hink) as [H1 H2].
    split; simpl; [done|done|constructor|discriminate].
Qed.

Lemma OrderInv_step p n st item :
  AccInv n st -> OrderInv n st -> OrderInv (S n) (step p st item n).
Proof.
  intros Ha H. unfold step.
  destruct (isEmpty (str item)).
  { destruct H as [Hs Hb Ho Hc]. split; [done| | |done].
    - eapply endBefore_mono; [|done]. lia.
    - eapply Forall_impl; [done|]. simpl. lia. }
  destruct (itemIsMetadata p item).
  { destruct (OrderInv_flushBeforeMetadata n st Ha H)
      as [[Hs Hb Ho Hc] Hblank].
    split; simpl.
    - apply byLastIndex_snoc; [done|]. unfold lastIndex. simpl.
      intros b [= <-]. done.
    - apply endBefore_snoc.
      + eapply endBefore_mono; [|done]. lia.
      + unfold lastIndex. simpl. intros a [= <-]. lia.
    - eapply Forall_impl; [done|]. simpl. lia.
    - by rewrite Hblank. }
  destruct H as [Hs Hb Ho Hc].
  assert (last (currentItemIndices st ++ [n]) = Some n) as Hlast
    by apply last_snoc.
  destruct (hasTerminal (str item) && bodyFlushes _); split; simpl.
  - apply byLastIndex_snoc; [done|]. unfold lastIndex. simpl.
    intros b Hbl. rewrite Hlast in Hbl. by injection Hbl as <-.
  - apply endBefore_snoc.
    + eapply endBefore_mono; [|done]. lia.
    + unfold lastIndex. simpl. intros a Hal. rewrite Hlast in Hal.
      injection Hal as <-. lia.
  - constructor.
  - discriminate.
  - done.
  - eapply endBefore_mono; [|done]. lia.
  - apply Forall_app. split.
    + eapply Forall_impl; [done|]. simpl. lia.
    + repeat constructor.
  - intros _. by exists n.
Qed.

Lemma OrderInv_forEach p l n st :
  AccInv n st -> OrderInv n st ->
  OrderInv (n + length l) (forEach (step p) l n st).
Proof.
  revert n st. induction l as [|item l IH]; intros n st Ha H; simpl.
  - by rewrite Nat.add_0_r.
  - replace (n + S (length l)) with (S n + length l) by lia.
    apply IH; [by apply AccInv_step|by apply OrderInv_step].
Qed.

End OrderFacts.

(** X25. The sentences of a page come in the order of their last
    items: of two sentences, the one that comes first in the list ends
    at an earlier item.  The first items need not be in that order: a
    blank body line stays open across a heading and joins the sentence
    that follows it. *)
Theorem sentences_ordered_by_last_item (p : Segmenter.Page) :
  Order.byLastIndex (Segmenter.onPageLoadSuccess p)
  /\ map Segmenter.itemIndices (Segmenter.onPageLoadSuccess Order.blankLedPage)
     = [[1]; [0; 2]].
Proof.
  split; [|by vm_compute].
  unfold Segmenter.onPageLoadSuccess.
  destruct (Segmenter.items p) as [|item l] eqn:Hit.
  { intros i j si sj a b Hi. by rewrite lookup_nil in Hi. }
  rewrite <- Hit.
  pose proof (AccInv_forEach p (Segmenter.items p) 0 Segmenter.emptyAcc
                AccInv_empty) as Ha.
  pose proof (OrderInv_forEach p (Segmenter.items p) 0 Segmenter.emptyAcc
                AccInv_empty OrderInv_empty) as Ho.
  set (st := Segmenter.forEach (Segmenter.step p) (Segmenter.items p) 0
               Segmenter.emptyAcc) in *.
  unfold Segmenter.flushAtEnd. rewrite isEmpty_trim.
  destruct (Pages.hasInk (Segmenter.fullText st)) eqn:Hink; simpl;
    [|apply Ho].
  destruct (pushPieces_cases (Segmenter.splitRaw (Segmenter.fullText st))
              (Segmenter.currentItemIndices st) (Segmenter.allSentences st))
    as [->|[t ->]].
  - apply splitRaw_leadingOnly, Ha.
  - apply Ho.
  - by apply (OrderInv_push _ st t Ho Hink).
Qed.
